(** * A shallow embedding of Duktape's Promise polyfill (polyfills/promise.js)

    The polyfill is a single closure holding a job queue (a linked list of
    job objects), Promise objects, and the closures created by
    [createResolutionFunctions] and [Promise.all].  The embedding keeps one
    explicit [machine] state that holds every object the polyfill allocates,
    addressed by allocation index, and every function of the polyfill becomes
    a function on that state.

    User code (executors, reaction handlers, [then] methods of thenables) is
    represented by finite programs over the polyfill's public interface. *)

From stdpp Require Import base relations list strings.
From Stdlib Require Import ZArith Lia.

Local Open Scope Z_scope.
Local Open Scope nat_scope.

(** ** Values *)

(** The functions the polyfill itself creates.  [BResolve t] and [BReject t]
    are the two closures returned by the call of [createResolutionFunctions]
    whose environment has index [t]; [BAllElement e] is the
    [promiseAllElement] function object number [e]; [BThen] is the prototype's
    [then] method. *)
Inductive builtin : Type :=
| BResolve (t : nat)
| BReject (t : nat)
| BAllElement (e : nat)
| BThen.

(** A callable value: a user function (an index into the table of user
    functions) or a function of the polyfill. *)
Inductive fnval : Type :=
| FUser (fid : nat)
| FBuiltin (b : builtin).

(** JavaScript values, as far as the polyfill can tell them apart.  A plain
    object is described by what reading its [then] member gives: a function,
    something that is not a function, or an exception raised by a getter. *)
Inductive val : Type :=
| VUndef
| VNull
| VBool (b : bool)
| VNum (n : Z)
| VStr (s : string)
| VTypeError (msg : string)
| VPromise (p : nat)
| VArray (a : nat)
| VFun (f : fnval)
| VObject (then_member : option fnval)
| VTrapped (e : val).

Inductive completion : Type :=
| Normal (v : val)
| Abrupt (e : val).

#[global] Instance builtin_eq_dec : EqDecision builtin.
Proof. solve_decision. Defined.
#[global] Instance fnval_eq_dec : EqDecision fnval.
Proof. solve_decision. Defined.
#[global] Instance val_eq_dec : EqDecision val.
Proof. solve_decision. Defined.
#[global] Instance completion_eq_dec : EqDecision completion.
Proof. solve_decision. Defined.

(** ** Objects of the polyfill *)

(** The [handler] property of a reaction: one of the two marker strings, or
    a function. *)
Inductive handler : Type :=
| Identity
| Thrower
| Handler (f : fnval).

Record reaction : Type := Reaction {
  r_handler : handler;
  r_resolve : builtin;
  r_reject : builtin
}.

(** The two shapes of job object passed to [enqueueJob]. *)
Inductive job : Type :=
| ReactionJob (h : handler) (resolve reject : builtin) (value : val)
| ThenableJob (thenable : val) (then_fn : fnval) (resolve reject : builtin).

(** A job object together with its [next] property. *)
Record cell : Type := Cell {
  c_job : job;
  next : option nat
}.

(** A Promise object: [state] is [None] for [undefined] (pending),
    [Some true] when fulfilled and [Some false] when rejected.  The two
    reaction lists are deleted on settlement, which is modelled by emptying
    them; they are only read while the promise is pending. *)
Record promise : Type := MkPromise {
  state : option bool;
  value : val;
  fulfillReactions : list reaction;
  rejectReactions : list reaction
}.

(** The environment of one call of [createResolutionFunctions(p)]. *)
Record resolver : Type := Resolver {
  target : nat;
  alreadyResolved : bool
}.

(** The environment of one call of [all]: the [values] array (a JavaScript
    array may have holes, [None]), the [remaining] counter and the variable
    [resolveFn], which holds the [resolve] of the pair with that index. *)
Record all_env : Type := AllEnv {
  values : list (option val);
  remaining : Z;
  resolveFn : nat
}.

(** A [promiseAllElement] function object with its properties. *)
Record elem_env : Type := ElemEnv {
  e_all : nat;
  e_index : nat;
  alreadyCalled : bool
}.

#[global] Instance handler_eq_dec : EqDecision handler.
Proof. solve_decision. Defined.
#[global] Instance reaction_eq_dec : EqDecision reaction.
Proof. solve_decision. Defined.
#[global] Instance job_eq_dec : EqDecision job.
Proof. solve_decision. Defined.

Record machine : Type := Machine {
  jobs : list cell;
  queueHead : option nat;
  queueTail : option nat;
  promises : list promise;
  resolvers : list resolver;
  alls : list all_env;
  elems : list elem_env;
  vars : list (option val)
}.

Definition initial : machine :=
  Machine [] None None [] [] [] [] [].

Definition set_jobs (f : list cell → list cell) (s : machine) : machine :=
  Machine (f (jobs s)) (queueHead s) (queueTail s) (promises s)
          (resolvers s) (alls s) (elems s) (vars s).
Definition set_queueHead (h : option nat) (s : machine) : machine :=
  Machine (jobs s) h (queueTail s) (promises s)
          (resolvers s) (alls s) (elems s) (vars s).
Definition set_queueTail (t : option nat) (s : machine) : machine :=
  Machine (jobs s) (queueHead s) t (promises s)
          (resolvers s) (alls s) (elems s) (vars s).
Definition set_promises (f : list promise → list promise) (s : machine) : machine :=
  Machine (jobs s) (queueHead s) (queueTail s) (f (promises s))
          (resolvers s) (alls s) (elems s) (vars s).
Definition set_resolvers (f : list resolver → list resolver) (s : machine) : machine :=
  Machine (jobs s) (queueHead s) (queueTail s) (promises s)
          (f (resolvers s)) (alls s) (elems s) (vars s).
Definition set_alls (f : list all_env → list all_env) (s : machine) : machine :=
  Machine (jobs s) (queueHead s) (queueTail s) (promises s)
          (resolvers s) (f (alls s)) (elems s) (vars s).
Definition set_elems (f : list elem_env → list elem_env) (s : machine) : machine :=
  Machine (jobs s) (queueHead s) (queueTail s) (promises s)
          (resolvers s) (alls s) (f (elems s)) (vars s).
Definition set_vars (f : list (option val) → list (option val)) (s : machine) : machine :=
  Machine (jobs s) (queueHead s) (queueTail s) (promises s)
          (resolvers s) (alls s) (elems s) (f (vars s)).

(** [a[i] = v] on a JavaScript array: writing past the end extends the
    array, leaving holes. *)
Definition array_set {A} (i : nat) (v : A) (a : list (option A)) : list (option A) :=
  if decide (i < length a) then <[i := Some v]> a
  else a ++ replicate (i - length a) None ++ [Some v].

(** ** The job queue (promise.js, lines 31-52) *)

(** [enqueueJob(job)]: the argument is always a fresh object literal, which
    is allocated here with no [next] property.  [compact] is the identity on
    the value level.  With a non-empty queue whose tail is missing the
    source would fail on [queueTail.next]; that state is excluded by the
    queue invariant below and the model leaves [next] alone there. *)
Definition enqueueJob (j : job) (s : machine) : machine :=
  let n := length (jobs s) in
  let s := set_jobs (λ js, js ++ [Cell j None]) s in
  match queueHead s with
  | Some _ =>
      let s :=
        match queueTail s with
        | Some t => set_jobs (alter (λ c, Cell (c_job c) (Some n)) t) s
        | None => s
        end in
      set_queueTail (Some n) s
  | None => set_queueTail (Some n) (set_queueHead (Some n) s)
  end.

(** [dequeueJob()]: returns the head job object (its index) or [None]. *)
Definition dequeueJob (s : machine) : option nat * machine :=
  match queueHead s with
  | Some ret =>
      let nxt := match jobs s !! ret with Some c => next c | None => None end in
      let s := set_queueHead nxt s in
      let s := match nxt with None => set_queueTail None s | Some _ => s end in
      (Some ret, s)
  | None => (None, s)
  end.

(** ** Raw fulfill and reject (lines 81-108) *)

Definition job_of_reaction (v : val) (r : reaction) : job :=
  ReactionJob (r_handler r) (r_resolve r) (r_reject r) v.

Definition settle (b : bool) (v : val) (pr : promise) : promise :=
  MkPromise (Some b) v [] [].

Definition doFulfill (p : nat) (v : val) (s : machine) : machine :=
  match promises s !! p with
  | Some pr =>
      match state pr with
      | Some _ => s
      | None =>
          let reactions := fulfillReactions pr in
          let s := set_promises (<[p := settle true v pr]>) s in
          foldl (λ s r, enqueueJob (job_of_reaction v r) s) s reactions
      end
  | None => s
  end.

Definition doReject (p : nat) (v : val) (s : machine) : machine :=
  match promises s !! p with
  | Some pr =>
      match state pr with
      | Some _ => s
      | None =>
          let reactions := rejectReactions pr in
          let s := set_promises (<[p := settle false v pr]>) s in
          foldl (λ s r, enqueueJob (job_of_reaction v r) s) s reactions
      end
  | None => s
  end.

(** ** Resolution functions (lines 117-153) *)

(** [createResolutionFunctions(p)] allocates the closure environment (the
    variable [alreadyResolved] and the captured [p]) and returns its index
    [t]; the returned pair is [BResolve t], [BReject t]. *)
Definition createResolutionFunctions (p : nat) (s : machine) : nat * machine :=
  (length (resolvers s), set_resolvers (λ rs, rs ++ [Resolver p false]) s).

Definition neutralize (t : nat) (s : machine) : machine :=
  set_resolvers (alter (λ r, Resolver (target r) true) t) s.

(** [p.state !== void 0].  An index at which no Promise object was ever
    allocated is no reference the source can hold; the test answers [true]
    for it, so that nothing is done with it. *)
Definition settled (p : nat) (s : machine) : bool :=
  match promises s !! p with
  | Some pr => bool_decide (state pr ≠ None)
  | None => true
  end.

(** The [reject] closure of environment [t]. *)
Definition t_reject (t : nat) (err : val) (s : machine) : machine :=
  match resolvers s !! t with
  | Some r =>
      if alreadyResolved r then s
      else
        let s := neutralize t s in
        if settled (target r) s then s
        else doReject (target r) err s
  | None => s
  end.

(** What [val !== null && typeof val === 'object' && val.then] followed by
    [typeof then === 'function'] finds.  A Promise object inherits [then]
    from the prototype; functions are not of type ['object'], so a function
    is no thenable whatever members it has.  The member is read when
    [resolve] is called.  An object of this model keeps the [then] member it
    was made with, whereas a JavaScript object may be given one later; where
    a theorem depends on what the probe of a value finds that was stored
    earlier, this is a hypothesis of the theorem, not derived from how the
    value came to be stored. *)
Inductive probe_result : Type :=
| NotThenable
| Thenable (then_fn : fnval)
| ProbeThrows (e : val).

Definition probe (v : val) : probe_result :=
  match v with
  | VPromise _ => Thenable (FBuiltin BThen)
  | VObject (Some f) => Thenable f
  | VTrapped e => ProbeThrows e
  | _ => NotThenable
  end.

(** The [resolve] closure of environment [t]. *)
Definition t_resolve (t : nat) (v : val) (s : machine) : machine :=
  match resolvers s !! t with
  | Some r =>
      if alreadyResolved r then s
      else
        let s := neutralize t s in
        let p := target r in
        if settled p s then s
        else if decide (v = VPromise p) then
          doReject p (VTypeError "self resolution") s
        else
          match probe v with
          | Thenable then_fn =>
              let '(t', s) := createResolutionFunctions p s in
              enqueueJob (ThenableJob v then_fn (BResolve t') (BReject t')) s
          | NotThenable => doFulfill p v s
          | ProbeThrows e => doReject p e s
          end
  | None => s
  end.

(** ** The constructor (lines 185-205) *)

(** [new Promise(executor)] for a callable [executor], which receives the
    index [t] of the pair [t.resolve], [t.reject].  The result is the new
    Promise object and [t]: several callers use an executor that does
    nothing but store the pair in [resolveFn], [rejectFn]. *)
Definition Promise_new (executor : nat → machine → completion * machine)
    (s : machine) : nat * nat * machine :=
  let p := length (promises s) in
  let s := set_promises (λ ps, ps ++ [MkPromise None VUndef [] []]) s in
  let '(t, s) := createResolutionFunctions p s in
  let '(c, s) := executor t s in
  match c with
  | Normal _ => (p, t, s)
  | Abrupt e => (p, t, t_reject t e s)
  end.

(** [function (resolve, reject) { resolveFn = resolve; rejectFn = reject; }] *)
Definition capture (t : nat) (s : machine) : completion * machine :=
  (Normal VUndef, s).

(** ** [then] and [catch] (lines 268-309) *)

Definition handler_or (default : handler) (v : val) : handler :=
  match v with
  | VFun f => Handler f
  | _ => default
  end.

Definition push_reactions (p : nat) (f r : reaction) (s : machine) : machine :=
  set_promises (alter (λ pr,
    MkPromise (state pr) (value pr)
              (fulfillReactions pr ++ [f]) (rejectReactions pr ++ [r])) p) s.

Definition then_ (this onFulfilled onRejected : val) (s : machine)
    : completion * machine :=
  match this with
  | VPromise q =>
      let '(p, t, s) := Promise_new capture s in
      let onFulfilled := handler_or Identity onFulfilled in
      let onRejected := handler_or Thrower onRejected in
      let s :=
        match promises s !! q with
        | Some pr =>
            match state pr with
            | None =>
                push_reactions q
                  (Reaction onFulfilled (BResolve t) (BReject t))
                  (Reaction onRejected (BResolve t) (BReject t)) s
            | Some true =>
                enqueueJob (ReactionJob onFulfilled (BResolve t) (BReject t)
                                        (value pr)) s
            | Some false =>
                enqueueJob (ReactionJob onRejected (BResolve t) (BReject t)
                                        (value pr)) s
            end
        | None => s
        end in
      (Normal (VPromise p), s)
  | _ => (Abrupt (VTypeError "Promise required"), s)
  end.

(** [this.then.call(this, void 0, onRejected)], for a Promise receiver,
    whose [then] is the prototype's. *)
Definition _catch (this onRejected : val) (s : machine) : completion * machine :=
  then_ this VUndef onRejected s.

(** ** [Promise.resolve], [Promise.reject] (lines 211-220) *)

(** [Promise.resolve(val)], called on [Promise] itself.  The source returns
    [val] when it is a promise whose [constructor] is the receiver: the
    promises of this model are made by the one constructor and keep their
    [constructor] member, so that the test holds for each of them (the
    source has no subclassing).  This is the case of the calls in [all] and
    [race]. *)

Definition resolve (v : val) (s : machine) : val * machine :=
  match v with
  | VPromise _ => (v, s)
  | _ =>
      let '(p, _, s) :=
        Promise_new (λ t s, (Normal VUndef, t_resolve t v s)) s in
      (VPromise p, s)
  end.

Definition reject (v : val) (s : machine) : val * machine :=
  let '(p, _, s) :=
    Promise_new (λ t s, (Normal VUndef, t_reject t v s)) s in
  (VPromise p, s).

(** ** [Promise.all] and [Promise.race] (lines 223-265) *)

(** The function [promiseAllElement] number [e], applied to [v]. *)
Definition promiseAllElement (e : nat) (v : val) (s : machine) : machine :=
  match elems s !! e with
  | Some F =>
      if alreadyCalled F then s
      else
        let s := set_elems (<[e := ElemEnv (e_all F) (e_index F) true]>) s in
        let a := e_all F in
        match alls s !! a with
        | Some env =>
            let rem := (remaining env - 1)%Z in
            let s := set_alls (<[a := AllEnv (array_set (e_index F) v (values env))
                                             rem (resolveFn env)]>) s in
            if decide (rem = 0%Z) then t_resolve (resolveFn env) (VArray a) s
            else s
        | None => s
        end
  | None => s
  end.

(** The body of [list.forEach] in [all], for the element [x] at position
    [index]. *)
Definition all_step (a t : nat) (index : nat) (x : val) (s : machine) : machine :=
  let '(tv, s) := resolve x s in
  let e := length (elems s) in
  let s := set_elems (λ es, es ++ [ElemEnv a index false]) s in
  let s := set_alls (alter (λ env,
             AllEnv (values env) (remaining env + 1)%Z (resolveFn env)) a) s in
  snd (then_ tv (VFun (FBuiltin (BAllElement e))) (VFun (FBuiltin (BReject t))) s).

Fixpoint all_loop (a t : nat) (index : nat) (list : list val) (s : machine)
    : machine :=
  match list with
  | [] => s
  | x :: list => all_loop a t (S index) list (all_step a t index x s)
  end.

Definition all (list : list val) (s : machine) : val * machine :=
  let '(p, t, s) := Promise_new capture s in
  let a := length (alls s) in
  let s := set_alls (λ l, l ++ [AllEnv [] 1%Z t]) s in
  let s := all_loop a t 0 list s in
  let s :=
    match alls s !! a with
    | Some env =>
        let rem := (remaining env - 1)%Z in
        let s := set_alls (<[a := AllEnv (values env) rem (resolveFn env)]>) s in
        if decide (rem = 0%Z) then t_resolve t (VArray a) s else s
    | None => s
    end in
  (VPromise p, s).

Definition race_step (t : nat) (x : val) (s : machine) : machine :=
  let '(tv, s) := resolve x s in
  snd (then_ tv (VFun (FBuiltin (BResolve t))) (VFun (FBuiltin (BReject t))) s).

Definition race (list : list val) (s : machine) : val * machine :=
  let '(p, t, s) := Promise_new capture s in
  (VPromise p, foldl (λ s x, race_step t x s) s list).

(** ** Calling a function of the polyfill *)

Definition arg (i : nat) (args : list val) : val := default VUndef (args !! i).

Definition call_builtin (b : builtin) (this : val) (args : list val)
    (s : machine) : completion * machine :=
  match b with
  | BResolve t => (Normal VUndef, t_resolve t (arg 0 args) s)
  | BReject t => (Normal VUndef, t_reject t (arg 0 args) s)
  | BAllElement e => (Normal VUndef, promiseAllElement e (arg 0 args) s)
  | BThen => then_ this (arg 0 args) (arg 1 args) s
  end.

(** ** User code *)

(** A user function body: a finite program whose steps are calls into the
    polyfill and accesses to variables of the user's own.  [New] is
    [new Promise(executor)] with the executor's body given as a function of
    the two resolution functions it receives; [Try] is [Promise.try(func)].
    Draining the queue is left to the host and is not a step of user code. *)
Inductive prog : Type :=
| Ret (v : val)
| Throw (e : val)
| Call (b : builtin) (this : val) (args : list val) (k : completion → prog)
| New (executor : val → val → prog) (k : val → prog)
| Resolve (v : val) (k : val → prog)
| Reject (v : val) (k : val → prog)
| All (list : list val) (k : val → prog)
| Race (list : list val) (k : val → prog)
| Try (func : prog) (k : val → prog)
| GetVar (x : nat) (k : val → prog)
| SetVar (x : nat) (v : val) (k : prog).

Definition resolve_of (t : nat) : val := VFun (FBuiltin (BResolve t)).
Definition reject_of (t : nat) : val := VFun (FBuiltin (BReject t)).

Fixpoint interp (c : prog) (s : machine) : completion * machine :=
  match c with
  | Ret v => (Normal v, s)
  | Throw e => (Abrupt e, s)
  | Call b this args k =>
      let '(r, s) := call_builtin b this args s in
      interp (k r) s
  | New executor k =>
      let '(p, _, s) :=
        Promise_new (λ t s, interp (executor (resolve_of t) (reject_of t)) s) s in
      interp (k (VPromise p)) s
  | Resolve v k =>
      let '(r, s) := resolve v s in
      interp (k r) s
  | Reject v k =>
      let '(r, s) := reject v s in
      interp (k r) s
  | All list k =>
      let '(r, s) := all list s in
      interp (k r) s
  | Race list k =>
      let '(r, s) := race list s in
      interp (k r) s
  | Try func k =>
      let '(p, _, s) :=
        Promise_new (λ t s,
          match interp func s with
          | (Normal v, s) => (Normal VUndef, t_resolve t v s)
          | (Abrupt e, s) => (Abrupt e, s)
          end) s in
      interp (k (VPromise p)) s
  | GetVar x k =>
      interp (k (default VUndef (mjoin (vars s !! x)))) s
  | SetVar x v k =>
      interp k (set_vars (array_set x v) s)
  end.

(** ** Running the queue (lines 156-182, 333-335) *)

Section Run.

(** The user's functions: [table fid this args] is the body of function
    [fid] for the given receiver and arguments. *)
Variable table : nat → val → list val → prog.

Definition call (f : fnval) (this : val) (args : list val) (s : machine)
    : completion * machine :=
  match f with
  | FUser fid => interp (table fid this args) s
  | FBuiltin b => call_builtin b this args s
  end.

(** Running one dequeued job object. *)
Definition run_job (j : job) (s : machine) : machine :=
  match j with
  | ThenableJob thenable then_fn resolve reject =>
      match call then_fn thenable [VFun (FBuiltin resolve); VFun (FBuiltin reject)] s with
      | (Normal _, s) => s
      | (Abrupt e, s) => snd (call_builtin reject VUndef [e] s)
      end
  | ReactionJob h resolve reject v =>
      let '(r, s) :=
        match h with
        | Identity => (Normal v, s)
        | Thrower => (Abrupt v, s)
        | Handler f => call f VUndef [v] s
        end in
      match r with
      | Normal res => snd (call_builtin resolve VUndef [res] s)
      | Abrupt e => snd (call_builtin reject VUndef [e] s)
      end
  end.

Definition runQueueEntry (s : machine) : bool * machine :=
  match dequeueJob s with
  | (Some i, s) =>
      match jobs s !! i with
      | Some c => (true, run_job (c_job c) s)
      | None => (true, s)
      end
  | (None, s) => (false, s)
  end.

(** The machine after [n] calls of [runQueueEntry]. *)
Fixpoint entries (n : nat) (s : machine) : machine :=
  match n with
  | 0 => s
  | S n => entries n (snd (runQueueEntry s))
  end.

(** The job object at the head of the queue, which the next call of
    [runQueueEntry] runs, and the jobs run by the first [n] calls. *)
Definition head_job (s : machine) : option job :=
  i ← queueHead s; c_job <$> jobs s !! i.

Fixpoint trace (n : nat) (s : machine) : list job :=
  match n with
  | 0 => []
  | S n =>
      match head_job s with
      | Some j => j :: trace n (snd (runQueueEntry s))
      | None => []
      end
  end.

(** [while (runQueueEntry()) {}], with a bound on the number of
    iterations: [None] when the bound is reached before the loop ends. *)
Fixpoint runQueue (fuel : nat) (s : machine) : option machine :=
  match fuel with
  | 0 => None
  | S fuel =>
      match runQueueEntry s with
      | (true, s) => runQueue fuel s
      | (false, s) => Some s
      end
  end.

End Run.

(** * Properties *)

#[global] Arguments enqueueJob : simpl never.
#[global] Arguments dequeueJob : simpl never.
#[global] Arguments doFulfill : simpl never.
#[global] Arguments doReject : simpl never.
#[global] Arguments t_resolve : simpl never.
#[global] Arguments t_reject : simpl never.
#[global] Arguments Promise_new : simpl never.
#[global] Arguments then_ : simpl never.
#[global] Arguments resolve : simpl never.
#[global] Arguments reject : simpl never.
#[global] Arguments promiseAllElement : simpl never.
#[global] Arguments all_step : simpl never.
#[global] Arguments all : simpl never.
#[global] Arguments race_step : simpl never.
#[global] Arguments race : simpl never.
#[global] Arguments call_builtin : simpl never.

(** ** The linked list is a FIFO queue *)

(** [lseg cells h l t]: following [next] from the job object [h] visits
    exactly the jobs [l], the last of them being the object [t].  Job objects
    are linked in allocation order. *)
Fixpoint lseg (cells : list cell) (h : option nat) (l : list job)
    (t : option nat) : Prop :=
  match l with
  | [] => h = None
  | j :: l' =>
      ∃ i nxt, h = Some i ∧ cells !! i = Some (Cell j nxt) ∧
        (∀ k, nxt = Some k → i < k) ∧ (l' = [] → t = Some i) ∧
        lseg cells nxt l' t
  end.

(** The queue of [s] holds the jobs [l], head first. *)
Definition queue_repr (s : machine) (l : list job) : Prop :=
  lseg (jobs s) (queueHead s) l (queueTail s).

Lemma lseg_inj cells h l1 l2 t :
  lseg cells h l1 t → lseg cells h l2 t → l1 = l2.
Proof.
  revert h l2. induction l1 as [|j l1 IH]; intros h [|j2 l2]; simpl; try done.
  - intros -> (? & ? & ? & _); done.
  - intros (? & ? & -> & _) ?; done.
  - intros (i & nxt & -> & Hi & _ & _ & H1) (i2 & nxt2 & [= <-] & Hi2 & _ & _ & H2).
    rewrite Hi in Hi2. injection Hi2 as <- <-. f_equal. eauto.
Qed.

Lemma queue_repr_inj s l1 l2 : queue_repr s l1 → queue_repr s l2 → l1 = l2.
Proof. apply lseg_inj. Qed.

Lemma lseg_tail_ge cells i l t :
  lseg cells (Some i) l (Some t) → i ≤ t.
Proof.
  revert i. induction l as [|j l IH]; intros i; simpl; [done|].
  intros (i' & nxt & [= <-] & Hi & Hlt & Hlast & Hl).
  destruct l as [|j' l].
  - specialize (Hlast eq_refl). injection Hlast as ->. lia.
  - destruct nxt as [k|]; [|by destruct Hl as (? & ? & ? & _)].
    specialize (Hlt k eq_refl). apply IH in Hl. lia.
Qed.

Lemma lseg_tail_is_Some cells h l t :
  l ≠ [] → lseg cells h l t → ∃ i, t = Some i ∧ i < length cells.
Proof.
  revert h. induction l as [|j l IH]; intros h Hne; [done|]. simpl.
  intros (i & nxt & -> & Hi & _ & Hlast & Hl).
  destruct l as [|j' l].
  - exists i. split; [auto|]. by eapply lookup_lt_Some.
  - eapply IH; [done|apply Hl].
Qed.

(** Appending a fresh object and linking it from the old tail. *)
Lemma lseg_snoc cells h l t j :
  l ≠ [] → lseg cells h l (Some t) →
  lseg (alter (λ c, Cell (c_job c) (Some (length cells))) t (cells ++ [Cell j None]))
       h (l ++ [j]) (Some (length cells)).
Proof.
  revert h. induction l as [|j0 l IH]; intros h Hne; [done|]. simpl.
  intros (i & nxt & -> & Hi & Hlt & Hlast & Hl).
  pose proof (lookup_lt_Some _ _ _ Hi) as Hilt.
  destruct l as [|j1 l].
  - specialize (Hlast eq_refl). injection Hlast as ->. simpl in Hl. subst nxt.
    exists i, (Some (length cells)). split_and!; try done.
    + rewrite list_lookup_alter_eq, lookup_app_l, Hi by done. done.
    + intros k [= <-]. done.
    + simpl. exists (length cells), None. split_and!; try done.
      rewrite list_lookup_alter_ne by lia.
      rewrite lookup_app_r by lia. by rewrite Nat.sub_diag.
  - destruct nxt as [k|]; [|by destruct Hl as (? & ? & ? & _)].
    pose proof (Hlt k eq_refl). pose proof (lseg_tail_ge _ _ _ _ Hl).
    exists i, (Some k). split_and!; try done.
    + rewrite list_lookup_alter_ne by lia. by rewrite lookup_app_l.
    + apply IH; done.
Qed.

(** [enqueueJob] appends at the tail. *)
Lemma enqueueJob_repr j s l :
  queue_repr s l → queue_repr (enqueueJob j s) (l ++ [j]).
Proof.
  unfold queue_repr, enqueueJob. destruct s as [cells h t ps rs als es vs]. simpl.
  intros Hl. destruct l as [|j0 l].
  - simpl in Hl. subst h. simpl.
    exists (length cells), None. split_and!; try done.
    rewrite lookup_app_r by lia. by rewrite Nat.sub_diag.
  - destruct (lseg_tail_is_Some _ _ _ _ (ltac:(done) : j0 :: l ≠ []) Hl) as (i & -> & _).
    pose proof Hl as (i0 & ? & -> & _).
    by apply (lseg_snoc cells (Some i0) (j0 :: l) i j).
Qed.

(** [dequeueJob] removes the head, and reports an empty queue as such. *)
Lemma dequeueJob_repr_cons s j l :
  queue_repr s (j :: l) →
  ∃ i nxt, dequeueJob s = (Some i, snd (dequeueJob s)) ∧
    jobs s !! i = Some (Cell j nxt) ∧
    jobs (snd (dequeueJob s)) = jobs s ∧
    promises (snd (dequeueJob s)) = promises s ∧
    resolvers (snd (dequeueJob s)) = resolvers s ∧
    alls (snd (dequeueJob s)) = alls s ∧
    elems (snd (dequeueJob s)) = elems s ∧
    vars (snd (dequeueJob s)) = vars s ∧
    queue_repr (snd (dequeueJob s)) l.
Proof.
  unfold queue_repr, dequeueJob. destruct s as [cells h t ps rs als es vs]. simpl.
  intros (i & nxt & -> & Hi & _ & _ & Hl). rewrite Hi. simpl.
  exists i, nxt. split_and!; try done; try by destruct nxt.
  destruct nxt; simpl; [done|].
  destruct l; [done|]. by destruct Hl as (? & ? & ? & _).
Qed.

Lemma dequeueJob_repr_nil s :
  queue_repr s [] → dequeueJob s = (None, s).
Proof. unfold queue_repr, dequeueJob. simpl. by intros ->. Qed.

Lemma queue_repr_nil_iff s l :
  queue_repr s l → (queueHead s = None ↔ l = []).
Proof.
  unfold queue_repr. destruct l; simpl; [done|].
  intros (? & ? & -> & _). done.
Qed.

Lemma initial_repr : queue_repr initial [].
Proof. done. Qed.

(** ** What each operation leaves alone *)

Definition enqueue_all (js : list job) (s : machine) : machine :=
  foldl (λ s j, enqueueJob j s) s js.

Lemma foldl_enqueue_reactions v rs s :
  foldl (λ s r, enqueueJob (job_of_reaction v r) s) s rs
  = enqueue_all (job_of_reaction v <$> rs) s.
Proof.
  unfold enqueue_all. revert s. induction rs as [|r rs IH]; intros s; simpl; [done|].
  apply IH.
Qed.

Lemma enqueueJob_heap j s :
  promises (enqueueJob j s) = promises s ∧
  resolvers (enqueueJob j s) = resolvers s ∧
  alls (enqueueJob j s) = alls s ∧
  elems (enqueueJob j s) = elems s ∧
  vars (enqueueJob j s) = vars s.
Proof.
  unfold enqueueJob. destruct s as [cells [h|] [t|] ps rs als es vs]; done.
Qed.

Lemma enqueue_all_heap js s :
  promises (enqueue_all js s) = promises s ∧
  resolvers (enqueue_all js s) = resolvers s ∧
  alls (enqueue_all js s) = alls s ∧
  elems (enqueue_all js s) = elems s ∧
  vars (enqueue_all js s) = vars s.
Proof.
  unfold enqueue_all. revert s. induction js as [|j js IH]; intros s; simpl; [done|].
  destruct (IH (enqueueJob j s)) as (-> & -> & -> & -> & ->).
  apply enqueueJob_heap.
Qed.

Lemma enqueue_all_repr js s l :
  queue_repr s l → queue_repr (enqueue_all js s) (l ++ js).
Proof.
  unfold enqueue_all. revert s l. induction js as [|j js IH]; intros s l Hl; simpl.
  - by rewrite app_nil_r.
  - rewrite (assoc_L (++) l [j] js : l ++ j :: js = (l ++ [j]) ++ js).
    apply IH. by apply enqueueJob_repr.
Qed.

Lemma dequeueJob_heap s :
  jobs (snd (dequeueJob s)) = jobs s ∧
  promises (snd (dequeueJob s)) = promises s ∧
  resolvers (snd (dequeueJob s)) = resolvers s ∧
  alls (snd (dequeueJob s)) = alls s ∧
  elems (snd (dequeueJob s)) = elems s ∧
  vars (snd (dequeueJob s)) = vars s.
Proof.
  unfold dequeueJob. destruct s as [cells [h|] t ps rs als es vs]; simpl; [|done].
  destruct (cells !! h) as [[? [?|]]|]; done.
Qed.

(** Rewriting with the facts above. *)
Ltac heap_simpl :=
  repeat first
    [ rewrite (proj1 (enqueueJob_heap _ _))
    | rewrite (proj1 (proj2 (enqueueJob_heap _ _)))
    | rewrite (proj1 (proj2 (proj2 (enqueueJob_heap _ _))))
    | rewrite (proj1 (proj2 (proj2 (proj2 (enqueueJob_heap _ _)))))
    | rewrite (proj2 (proj2 (proj2 (proj2 (enqueueJob_heap _ _)))))
    | rewrite (proj1 (enqueue_all_heap _ _))
    | rewrite (proj1 (proj2 (enqueue_all_heap _ _)))
    | rewrite (proj1 (proj2 (proj2 (enqueue_all_heap _ _))))
    | rewrite (proj1 (proj2 (proj2 (proj2 (enqueue_all_heap _ _)))))
    | rewrite (proj2 (proj2 (proj2 (proj2 (enqueue_all_heap _ _)))))
    | progress simpl ].

(** ** Elementary transitions

    Every operation of the polyfill changes the machine by a sequence of
    the following transitions.  Invariants are proved once, for these. *)
Inductive prim : machine → machine → Prop :=
| prim_enqueue j s : prim s (enqueueJob j s)
| prim_resolve t v s : prim s (t_resolve t v s)
| prim_reject t v s : prim s (t_reject t v s)
| prim_alloc s :
    prim s (snd (createResolutionFunctions (length (promises s))
             (set_promises (λ ps, ps ++ [MkPromise None VUndef [] []]) s)))
| prim_push q pr f r s :
    promises s !! q = Some pr → state pr = None →
    prim s (push_reactions q f r s)
| prim_alls f s : prim s (set_alls f s)
| prim_elems f s : prim s (set_elems f s)
| prim_vars f s : prim s (set_vars f s).

Definition steps : machine → machine → Prop := rtc prim.

(** The host's side: the same, and taking a job off the queue. *)
Inductive hprim : machine → machine → Prop :=
| hprim_prim s s' : prim s s' → hprim s s'
| hprim_dequeue s : hprim s (snd (dequeueJob s)).

Definition hsteps : machine → machine → Prop := rtc hprim.

#[global] Instance steps_refl : Reflexive steps.
Proof. unfold steps. apply _. Qed.
#[global] Instance steps_trans : Transitive steps.
Proof. unfold steps. apply _. Qed.

#[global] Instance hsteps_refl : Reflexive hsteps.
Proof. unfold hsteps. apply _. Qed.
#[global] Instance hsteps_trans : Transitive hsteps.
Proof. unfold hsteps. apply _. Qed.

Lemma steps_prim s s' : prim s s' → steps s s'.
Proof. apply rtc_once. Qed.

Lemma steps_hsteps s s' : steps s s' → hsteps s s'.
Proof.
  induction 1 as [|s1 s2 s3 H _ IH]; [reflexivity|].
  eapply rtc_l; [by apply hprim_prim|done].
Qed.

Create HintDb steps discriminated.
#[global] Hint Resolve steps_prim : steps.
#[global] Hint Constructors prim : steps.
#[global] Hint Extern 1 (steps ?s ?s) => reflexivity : steps.

Lemma steps_Promise_new executor s :
  (∀ t s0, steps s0 (snd (executor t s0))) →
  steps s (snd (Promise_new executor s)).
Proof.
  intros He. unfold Promise_new.
  set (s1 := set_promises _ s).
  destruct (createResolutionFunctions _ s1) as [t s2] eqn:Hc.
  assert (steps s s2) as H2.
  { apply steps_prim. replace s2 with (snd (createResolutionFunctions (length (promises s)) s1))
      by by rewrite Hc. constructor. }
  specialize (He t s2). destruct (executor t s2) as [[v|e] s3]; simpl in *.
  - by etrans.
  - etrans; [exact H2|]. etrans; [exact He|]. auto with steps.
Qed.

Lemma steps_capture s : steps s (snd (Promise_new capture s)).
Proof. apply steps_Promise_new. intros; reflexivity. Qed.

Lemma steps_then_ this f r s : steps s (snd (then_ this f r s)).
Proof.
  unfold then_. destruct this; try reflexivity.
  pose proof (steps_capture s) as Hs.
  destruct (Promise_new capture s) as [[p' t] s1]. simpl in *.
  etrans; [exact Hs|].
  destruct (promises s1 !! p) as [pr|] eqn:Hp; [|reflexivity].
  destruct (state pr) as [[]|] eqn:Hst; eauto with steps.
Qed.

Lemma steps_resolve v s : steps s (snd (resolve v s)).
Proof.
  unfold resolve.
  assert (steps s (snd (Promise_new (λ t s, (Normal VUndef, t_resolve t v s)) s))) as H.
  { apply steps_Promise_new. intros; simpl; auto with steps. }
  destruct (Promise_new _ s) as [[p t] s1]. simpl in H.
  destruct v; simpl; try done; reflexivity.
Qed.

Lemma steps_reject v s : steps s (snd (reject v s)).
Proof.
  unfold reject.
  assert (steps s (snd (Promise_new (λ t s, (Normal VUndef, t_reject t v s)) s))) as H.
  { apply steps_Promise_new. intros; simpl; auto with steps. }
  by destruct (Promise_new _ s) as [[p t] s1].
Qed.

Lemma steps_promiseAllElement e v s : steps s (promiseAllElement e v s).
Proof.
  unfold promiseAllElement.
  destruct (elems s !! e) as [F|]; [|reflexivity].
  destruct (alreadyCalled F); [reflexivity|].
  etrans; [apply steps_prim, (prim_elems (<[e := ElemEnv (e_all F) (e_index F) true]>))|].
  set (s1 := set_elems _ s).
  destruct (alls s1 !! e_all F) as [env|]; [|reflexivity].
  etrans; [apply steps_prim, prim_alls|].
  case_decide; [|reflexivity]. auto with steps.
Qed.

Lemma steps_all_step a t index x s : steps s (all_step a t index x s).
Proof.
  unfold all_step.
  pose proof (steps_resolve x s) as H1.
  destruct (resolve x s) as [tv s1]. simpl in H1.
  etrans; [exact H1|].
  etrans; [apply steps_prim, (prim_elems (λ es, es ++ [ElemEnv a index false]))|].
  etrans; [apply steps_prim, prim_alls|].
  apply steps_then_.
Qed.

Lemma steps_all_loop a t index list s : steps s (all_loop a t index list s).
Proof.
  revert index s. induction list as [|x list IH]; intros index s; simpl; [reflexivity|].
  etrans; [apply steps_all_step|apply IH].
Qed.

Lemma steps_all list s : steps s (snd (all list s)).
Proof.
  unfold all.
  pose proof (steps_capture s) as H1.
  destruct (Promise_new capture s) as [[p t] s1]. simpl in H1.
  etrans; [exact H1|]. simpl.
  set (s2 := set_alls _ s1).
  assert (steps s1 s2) as H2 by apply steps_prim, prim_alls.
  etrans; [exact H2|].
  set (s3 := all_loop _ _ _ _ s2).
  assert (steps s2 s3) as H3 by apply steps_all_loop.
  etrans; [exact H3|].
  destruct (alls s3 !! _) as [env|]; [|reflexivity].
  etrans; [apply steps_prim, prim_alls|].
  case_decide; [|reflexivity]. auto with steps.
Qed.

Lemma steps_race_step t x s : steps s (race_step t x s).
Proof.
  unfold race_step.
  pose proof (steps_resolve x s) as H1.
  destruct (resolve x s) as [tv s1]. simpl in H1.
  etrans; [exact H1|]. apply steps_then_.
Qed.

Lemma steps_race list s : steps s (snd (race list s)).
Proof.
  unfold race.
  pose proof (steps_capture s) as H1.
  destruct (Promise_new capture s) as [[p t] s1]. simpl in *.
  etrans; [exact H1|]. clear H1. revert s1.
  induction list as [|x list IH]; intros s1; simpl; [reflexivity|].
  etrans; [apply steps_race_step|apply IH].
Qed.

Lemma steps_call_builtin b this args s :
  steps s (snd (call_builtin b this args s)).
Proof.
  destruct b; unfold call_builtin; simpl;
    auto using steps_promiseAllElement, steps_then_ with steps.
Qed.

Lemma steps_interp c s : steps s (snd (interp c s)).
Proof.
  revert s. induction c as [v|e|b this args k IH|executor IHe k IHk|v k IH|v k IH
    |list k IH|list k IH|func IHf k IHk|x k IH|x v k IH]; intros s; cbn [interp];
    try reflexivity.
  - pose proof (steps_call_builtin b this args s) as H1.
    destruct (call_builtin b this args s) as [r s1]. etrans; [exact H1|apply IH].
  - match goal with |- context [Promise_new ?ex s] =>
      pose proof (steps_Promise_new ex s) as H1 end.
    destruct (Promise_new _ s) as [[p t] s1].
    etrans; [apply H1|apply IHk]. intros; apply IHe.
  - pose proof (steps_resolve v s) as H1.
    destruct (resolve v s) as [r s1]. etrans; [exact H1|apply IH].
  - pose proof (steps_reject v s) as H1.
    destruct (reject v s) as [r s1]. etrans; [exact H1|apply IH].
  - pose proof (steps_all list s) as H1.
    destruct (all list s) as [r s1]. etrans; [exact H1|apply IH].
  - pose proof (steps_race list s) as H1.
    destruct (race list s) as [r s1]. etrans; [exact H1|apply IH].
  - match goal with |- context [Promise_new ?ex s] =>
      pose proof (steps_Promise_new ex s) as H1 end.
    destruct (Promise_new _ s) as [[p t] s1].
    etrans; [apply H1|apply IHk]. intros t0 s0.
    specialize (IHf s0). destruct (interp func s0) as [[v|e] s2]; simpl in *; [|done].
    etrans; [exact IHf|auto with steps].
  - apply IH.
  - etrans; [apply steps_prim, prim_vars|apply IH].
Qed.

Section RunSteps.
Variable table : nat → val → list val → prog.

Lemma steps_call f this args s : steps s (snd (call table f this args s)).
Proof. destruct f; simpl; auto using steps_interp, steps_call_builtin. Qed.

Lemma steps_run_job j s : steps s (run_job table j s).
Proof.
  destruct j as [h res rej v|thenable then_fn res rej]; simpl.
  - destruct h as [| |f]; simpl; try apply steps_call_builtin.
    pose proof (steps_call f VUndef [v] s) as H1.
    destruct (call table f VUndef [v] s) as [[r|e] s1]; simpl in *;
      (etrans; [exact H1|apply steps_call_builtin]).
  - pose proof (steps_call then_fn thenable [VFun (FBuiltin res); VFun (FBuiltin rej)] s) as H1.
    destruct (call table then_fn thenable _ s) as [[r|e] s1]; simpl in *; [done|].
    etrans; [exact H1|apply steps_call_builtin].
Qed.

Lemma steps_runQueueEntry s : hsteps s (snd (runQueueEntry table s)).
Proof.
  unfold runQueueEntry.
  pose proof (rtc_once _ _ (hprim_dequeue s)) as H1.
  destruct (dequeueJob s) as [[i|] s1]; simpl in *; [|done].
  destruct (jobs s1 !! i) as [c|]; simpl; [|done].
  etrans; [exact H1|apply steps_hsteps, steps_run_job].
Qed.

Lemma steps_entries n s : hsteps s (entries table n s).
Proof.
  revert s. induction n as [|n IH]; intros s; simpl; [reflexivity|].
  etrans; [apply steps_runQueueEntry|apply IH].
Qed.

Lemma steps_runQueue fuel s s' : runQueue table fuel s = Some s' → hsteps s s'.
Proof.
  revert s. induction fuel as [|fuel IH]; intros s; simpl; [done|].
  pose proof (steps_runQueueEntry s) as H1.
  destruct (runQueueEntry table s) as [[] s1]; simpl in *.
  - intros H. etrans; [exact H1|by apply IH].
  - by intros [= <-].
Qed.

End RunSteps.

(** ** Settling, unfolded *)

Lemma doFulfill_unfold p v s :
  doFulfill p v s =
  match promises s !! p with
  | Some pr =>
      match state pr with
      | Some _ => s
      | None => enqueue_all (job_of_reaction v <$> fulfillReactions pr)
                  (set_promises (<[p := settle true v pr]>) s)
      end
  | None => s
  end.
Proof.
  unfold doFulfill. destruct (promises s !! p) as [pr|]; [|done].
  destruct (state pr); [done|]. apply foldl_enqueue_reactions.
Qed.

Lemma doReject_unfold p v s :
  doReject p v s =
  match promises s !! p with
  | Some pr =>
      match state pr with
      | Some _ => s
      | None => enqueue_all (job_of_reaction v <$> rejectReactions pr)
                  (set_promises (<[p := settle false v pr]>) s)
      end
  | None => s
  end.
Proof.
  unfold doReject. destruct (promises s !! p) as [pr|]; [|done].
  destruct (state pr); [done|]. apply foldl_enqueue_reactions.
Qed.

Lemma settled_false p s :
  settled p s = false ↔ ∃ pr, promises s !! p = Some pr ∧ state pr = None.
Proof.
  unfold settled. destruct (promises s !! p) as [pr|].
  - rewrite bool_decide_eq_false. split.
    + intros H. exists pr. split; [done|].
      destruct (state pr); [|done]. by destruct H.
    + intros (? & [= <-] & Hs). rewrite Hs. by intros H.
  - split; [done|]. by intros (? & ? & _).
Qed.

Lemma settled_true p s pr :
  promises s !! p = Some pr → state pr ≠ None → settled p s = true.
Proof. unfold settled. intros -> ?. by apply bool_decide_eq_true. Qed.

(** ** Well-formed machines *)

(** The heap invariant: every pair refers to an allocated promise, a pair
    that is still live refers to a pending promise, and a promise has at most
    one live pair. *)
Definition live (rs : list resolver) (t p : nat) : Prop :=
  rs !! t = Some (Resolver p false).

Definition heap_wf (ps : list promise) (rs : list resolver) : Prop :=
  (∀ t r, rs !! t = Some r → target r < length ps) ∧
  (∀ t p, live rs t p → ∃ pr, ps !! p = Some pr ∧ state pr = None) ∧
  (∀ t t' p, live rs t p → live rs t' p → t = t').

Definition wf (s : machine) : Prop :=
  (∃ l, queue_repr s l) ∧ heap_wf (promises s) (resolvers s).

Definition trip (r : resolver) : resolver := Resolver (target r) true.

Lemma live_trip_inv rs t t' p : live (alter trip t rs) t' p → live rs t' p ∧ t' ≠ t.
Proof.
  unfold live. destruct (decide (t' = t)) as [->|Hne].
  - rewrite list_lookup_alter_eq. destruct (rs !! t); simpl; [|done]. done.
  - by rewrite list_lookup_alter_ne.
Qed.

Lemma heap_wf_trip ps rs t : heap_wf ps rs → heap_wf ps (alter trip t rs).
Proof.
  intros (Hr & Hl & Hu). split_and!.
  - intros t' r. destruct (decide (t' = t)) as [->|Hne].
    + rewrite list_lookup_alter_eq. destruct (rs !! t) as [r0|] eqn:Ht; simpl; [|done].
      intros [= <-]. simpl. eauto.
    + rewrite list_lookup_alter_ne by done. eauto.
  - intros t' p [H _]%live_trip_inv. eauto.
  - intros t1 t2 p [H1 _]%live_trip_inv [H2 _]%live_trip_inv. eauto.
Qed.

Lemma heap_wf_settle ps rs t p pr b v :
  heap_wf ps rs → live rs t p →
  heap_wf (<[p := settle b v pr]> ps) (alter trip t rs).
Proof.
  intros (Hr & Hl & Hu) Ht. split_and!.
  - intros t' r H. rewrite length_insert.
    by eapply (proj1 (heap_wf_trip ps rs t (conj Hr (conj Hl Hu)))).
  - intros t' p' [H Hne]%live_trip_inv.
    destruct (decide (p' = p)) as [->|Hp].
    + destruct Hne. eauto.
    + rewrite list_lookup_insert_ne by done. eauto.
  - intros t1 t2 p' [H1 _]%live_trip_inv [H2 _]%live_trip_inv. eauto.
Qed.

Lemma heap_wf_renew ps rs t p :
  heap_wf ps rs → live rs t p →
  heap_wf ps (alter trip t rs ++ [Resolver p false]).
Proof.
  intros (Hr & Hl & Hu) Ht.
  assert (∀ t' p', live (alter trip t rs ++ [Resolver p false]) t' p' →
            (live rs t' p' ∧ t' ≠ t) ∨ (t' = length rs ∧ p' = p)) as Hinv.
  { intros t' p'. unfold live. intros H.
    apply lookup_app_Some in H as [H|[Hge H]].
    - left. by apply live_trip_inv.
    - right. rewrite length_alter in Hge, H.
      apply list_lookup_singleton_Some in H as [? [= <-]]. split; [lia|done]. }
  split_and!.
  - intros t' r H. apply lookup_app_Some in H as [H|[_ H]].
    + by eapply (proj1 (heap_wf_trip ps rs t (conj Hr (conj Hl Hu)))).
    + apply list_lookup_singleton_Some in H as [_ <-]. apply (Hr _ _ Ht).
  - intros t' p' [[H _]|[_ ->]]%Hinv; eauto.
  - intros t1 t2 p' [[H1 Hn1]|[-> ->]]%Hinv [[H2 Hn2]|[-> Hp]]%Hinv; eauto.
    + subst p'. destruct Hn1. eauto.
    + destruct Hn2. eauto.
Qed.

Lemma heap_wf_alloc ps rs :
  heap_wf ps rs →
  heap_wf (ps ++ [MkPromise None VUndef [] []]) (rs ++ [Resolver (length ps) false]).
Proof.
  intros (Hr & Hl & Hu).
  assert (∀ t' p', live (rs ++ [Resolver (length ps) false]) t' p' →
            (live rs t' p' ∧ p' < length ps) ∨ (t' = length rs ∧ p' = length ps)) as Hinv.
  { intros t' p'. unfold live. intros H.
    apply lookup_app_Some in H as [H|[Hge H]].
    - left. split; [done|]. apply (Hr _ _ H).
    - right. apply list_lookup_singleton_Some in H as [? [= <-]]. split; [lia|done]. }
  split_and!.
  - intros t' r H. rewrite length_app. simpl.
    apply lookup_app_Some in H as [H|[_ H]].
    + apply Hr in H. lia.
    + apply list_lookup_singleton_Some in H as [_ <-]. simpl. lia.
  - intros t' p' [[H Hlt]|[-> ->]]%Hinv.
    + destruct (Hl _ _ H) as (pr & Hp & Hst). exists pr. by rewrite lookup_app_l.
    + eexists. rewrite lookup_app_r, Nat.sub_diag by lia. done.
  - intros t1 t2 p' [[H1 Hn1]|[-> ->]]%Hinv [[H2 Hn2]|[-> Hp]]%Hinv; eauto; lia.
Qed.

Lemma heap_wf_alter_pending ps rs q (f : promise → promise) :
  (∀ pr, state (f pr) = state pr) →
  heap_wf ps rs → heap_wf (alter f q ps) rs.
Proof.
  intros Hf (Hr & Hl & Hu). split_and!; [|
    |done].
  - intros t r H. rewrite length_alter. eauto.
  - intros t p H. destruct (Hl _ _ H) as (pr & Hp & Hst).
    destruct (decide (p = q)) as [->|Hne].
    + exists (f pr). rewrite list_lookup_alter_eq, Hp. simpl. by rewrite Hf.
    + exists pr. by rewrite list_lookup_alter_ne.
Qed.

(** ** The possible outcomes of calling a resolution function *)

(** [outcome P t s s']: a call of a resolution function of pair [t] takes [s]
    to [s'], every value it stores or enqueues satisfying [P]. *)
Inductive outcome (P : val → Prop) (t : nat) (s : machine) : machine → Prop :=
| out_same : outcome P t s s
| out_trip p :
    live (resolvers s) t p → outcome P t s (neutralize t s)
| out_settle p pr b w :
    live (resolvers s) t p → promises s !! p = Some pr → state pr = None →
    P w →
    outcome P t s
      (enqueue_all
         (job_of_reaction w <$>
            (if b : bool then fulfillReactions pr else rejectReactions pr))
         (set_promises (<[p := settle b w pr]>) (neutralize t s)))
| out_renew p pr x f :
    live (resolvers s) t p → promises s !! p = Some pr → state pr = None →
    P x → probe x = Thenable f →
    outcome P t s
      (enqueueJob (ThenableJob x f (BResolve (length (resolvers s)))
                                   (BReject (length (resolvers s))))
         (set_resolvers (λ rs, rs ++ [Resolver p false]) (neutralize t s))).

(** What a predicate on values must allow for [resolve] to stay within it. *)
Definition resolve_closed (P : val → Prop) : Prop :=
  P (VTypeError "self resolution") ∧ ∀ e, P (VTrapped e) → P e.

Lemma resolve_closed_True : resolve_closed (λ _, True).
Proof. done. Qed.

Lemma live_lookup rs t r :
  rs !! t = Some r → alreadyResolved r = false → live rs t (target r).
Proof. unfold live. destruct r as [p []]; simpl; by intros -> ?. Qed.

Lemma t_reject_outcome (P : val → Prop) t err s :
  P err → outcome P t s (t_reject t err s).
Proof.
  intros HP.
  unfold t_reject. destruct (resolvers s !! t) as [r|] eqn:Ht; [|constructor].
  destruct (alreadyResolved r) eqn:Ha; [constructor|].
  pose proof (live_lookup _ _ _ Ht Ha) as Hlive.
  destruct (settled (target r) (neutralize t s)) eqn:Hs; [by econstructor|].
  apply settled_false in Hs as (pr & Hp & Hst). simpl in Hp.
  rewrite doReject_unfold. simpl. rewrite Hp, Hst.
  by apply (out_settle P t s (target r) pr false err).
Qed.

Lemma t_resolve_outcome (P : val → Prop) t v s :
  resolve_closed P → P v → outcome P t s (t_resolve t v s).
Proof.
  intros [HT HE] HP.
  unfold t_resolve. destruct (resolvers s !! t) as [r|] eqn:Ht; [|constructor].
  destruct (alreadyResolved r) eqn:Ha; [constructor|].
  pose proof (live_lookup _ _ _ Ht Ha) as Hlive.
  destruct (settled (target r) (neutralize t s)) eqn:Hs; [by econstructor|].
  apply settled_false in Hs as (pr & Hp & Hst). simpl in Hp.
  case_decide.
  { rewrite doReject_unfold. simpl. rewrite Hp, Hst.
    by apply (out_settle P t s (target r) pr false). }
  destruct (probe v) as [|then_fn|e] eqn:Hv.
  - rewrite doFulfill_unfold. simpl. rewrite Hp, Hst.
    by apply (out_settle P t s (target r) pr true v).
  - unfold createResolutionFunctions. simpl. rewrite length_alter.
    by eapply out_renew.
  - rewrite doReject_unfold. simpl. rewrite Hp, Hst.
    apply (out_settle P t s (target r) pr false e); try done.
    apply HE. by destruct v as [| | | | | | | | |[]|]; simplify_eq/=.
Qed.

(** ** Invariance of well-formedness *)

Lemma wf_outcome P t s s' : outcome P t s s' → wf s → wf s'.
Proof.
  intros Ho [[l Hq] Hh]. destruct Ho as [|p Hl|p pr b w Hl Hp Hst _|p pr x f Hl Hp Hst _ _].
  - by split; [exists l|].
  - split; [by exists l|]. simpl. by apply heap_wf_trip.
  - split.
    + eexists. by apply enqueue_all_repr.
    + heap_simpl. by apply heap_wf_settle.
  - split.
    + eexists. by apply enqueueJob_repr.
    + heap_simpl. by apply heap_wf_renew.
Qed.

Lemma wf_prim s s' : prim s s' → wf s → wf s'.
Proof.
  intros Hp Hwf. destruct Hp as [j s|t v s|t v s|s|q pr f r s Hpq Hst|f s|f s|f s].
  - destruct Hwf as [[l Hq] Hh]. split.
    + exists (l ++ [j]). by apply enqueueJob_repr.
    + by heap_simpl.
  - eapply wf_outcome; [by apply (t_resolve_outcome (λ _, True))|done].
  - eapply wf_outcome; [by apply (t_reject_outcome (λ _, True))|done].
  - destruct Hwf as [[l Hq] Hh]. split; [by exists l|].
    simpl. by apply heap_wf_alloc.
  - destruct Hwf as [[l Hq] Hh]. split; [by exists l|].
    simpl. by apply heap_wf_alter_pending.
  - done.
  - done.
  - done.
Qed.

Lemma wf_steps s s' : steps s s' → wf s → wf s'.
Proof. induction 1; eauto using wf_prim. Qed.

Lemma wf_hprim s s' : hprim s s' → wf s → wf s'.
Proof.
  intros [s1 s2 H|s1]; [by apply wf_prim|].
  intros [[l Hq] Hh]. split.
  - destruct l as [|j l].
    + exists []. by rewrite dequeueJob_repr_nil.
    + exists l. destruct (dequeueJob_repr_cons _ _ _ Hq) as (? & ? & H).
      apply H.
  - destruct (dequeueJob_heap s1) as (_ & -> & -> & _). done.
Qed.

Lemma wf_hsteps s s' : hsteps s s' → wf s → wf s'.
Proof. induction 1; eauto using wf_hprim. Qed.

Lemma wf_initial : wf initial.
Proof.
  split; [exists []; apply initial_repr|].
  split_and!; unfold live; simpl; intros; by simplify_list_eq.
Qed.

(** ** Settled promises are frozen *)

(** [evolves s s']: every promise settled in [s] is the same object in [s'],
    and a pair neutralized in [s] is still neutralized in [s']. *)
Definition evolves (s s' : machine) : Prop :=
  (∀ p pr, promises s !! p = Some pr → state pr ≠ None →
     promises s' !! p = Some pr) ∧
  (∀ t r, resolvers s !! t = Some r →
     ∃ r', resolvers s' !! t = Some r' ∧ target r' = target r ∧
       (alreadyResolved r = true → alreadyResolved r' = true)) ∧
  length (promises s) ≤ length (promises s').

#[global] Instance evolves_refl : Reflexive evolves.
Proof. intros s. split_and!; eauto. Qed.

#[global] Instance evolves_trans : Transitive evolves.
Proof.
  intros s1 s2 s3 (Hp1 & Hr1 & Hl1) (Hp2 & Hr2 & Hl2). split_and!.
  - eauto.
  - intros t r H. destruct (Hr1 _ _ H) as (r' & H' & Ht' & Ha').
    destruct (Hr2 _ _ H') as (r'' & H'' & Ht'' & Ha'').
    exists r''. split_and!; [done|congruence|auto].
  - lia.
Qed.

Lemma evolves_heap s s' :
  promises s' = promises s → resolvers s' = resolvers s → evolves s s'.
Proof. intros Hp Hr. unfold evolves. rewrite Hp, Hr. split_and!; eauto. Qed.

Lemma evolves_neutralize t s : evolves s (neutralize t s).
Proof.
  split_and!; simpl; [done| |done].
  intros t' r H. destruct (decide (t' = t)) as [->|Hne].
  - exists (trip r). by rewrite list_lookup_alter_eq, H.
  - exists r. by rewrite list_lookup_alter_ne.
Qed.

Lemma evolves_outcome P t s s' : outcome P t s s' → evolves s s'.
Proof.
  intros Ho. destruct Ho as [|p Hl|p pr b w Hl Hp Hst _|p pr x f Hl Hp Hst _ _].
  - reflexivity.
  - apply evolves_neutralize.
  - etrans; [apply (evolves_neutralize t)|].
    split_and!; heap_simpl; [|by eauto|by rewrite length_insert].
    intros p' pr' H Hs. destruct (decide (p' = p)) as [->|Hne].
    + simpl in Hp. congruence.
    + by rewrite list_lookup_insert_ne.
  - etrans; [apply (evolves_neutralize t)|].
    split_and!; heap_simpl; [done| |done].
    intros t' r H. exists r. by rewrite lookup_app_l by by eapply lookup_lt_Some.
Qed.

Lemma evolves_prim s s' : prim s s' → evolves s s'.
Proof.
  intros Hp. destruct Hp as [j s|t v s|t v s|s|q pr f r s Hq Hst|f s|f s|f s].
  - apply evolves_heap; by heap_simpl.
  - by apply evolves_outcome with (λ _, True) t, t_resolve_outcome.
  - by apply evolves_outcome with (λ _, True) t, t_reject_outcome.
  - split_and!; simpl.
    + intros p pr H _. by rewrite lookup_app_l by by eapply lookup_lt_Some.
    + intros t r H. exists r. by rewrite lookup_app_l by by eapply lookup_lt_Some.
    + rewrite length_app. lia.
  - split_and!; simpl; [|by eauto|by rewrite length_alter].
    intros p pr' H Hs. destruct (decide (p = q)) as [->|Hne].
    + congruence.
    + by rewrite list_lookup_alter_ne.
  - by apply evolves_heap.
  - by apply evolves_heap.
  - by apply evolves_heap.
Qed.

Lemma evolves_hsteps s s' : hsteps s s' → evolves s s'.
Proof.
  induction 1 as [|s1 s2 s3 H _ IH]; [reflexivity|].
  etrans; [|done]. destruct H as [? ? H|s1]; [by apply evolves_prim|].
  destruct (dequeueJob_heap s1) as (_ & Hp & Hr & _). by apply evolves_heap.
Qed.

Lemma evolves_steps s s' : steps s s' → evolves s s'.
Proof. intros H. by apply evolves_hsteps, steps_hsteps. Qed.

(** ** Operations only ever append to the queue *)

Lemma prim_grows s s' l :
  prim s s' → queue_repr s l → ∃ l', queue_repr s' (l ++ l').
Proof.
  assert (∀ t s s', outcome (λ _, True) t s s' → queue_repr s l →
            ∃ l', queue_repr s' (l ++ l')) as Hout.
  { intros t s0 s0' [|p Hl|p pr b w Hl Hp Hst _|p pr x f Hl Hp Hst _ _] Hq.
    - exists []. by rewrite app_nil_r.
    - exists []. by rewrite app_nil_r.
    - eexists. by apply enqueue_all_repr.
    - eexists. by apply enqueueJob_repr. }
  intros Hp Hq. destruct Hp as [j s|t v s|t v s|s|q pr f r s Hpq Hst|f s|f s|f s];
    try (exists []; by rewrite app_nil_r).
  - exists [j]. by apply enqueueJob_repr.
  - eapply Hout; [by apply t_resolve_outcome|done].
  - eapply Hout; [by apply t_reject_outcome|done].
Qed.

Lemma steps_grows s s' l :
  steps s s' → queue_repr s l → ∃ l', queue_repr s' (l ++ l').
Proof.
  intros H. revert l. induction H as [|s1 s2 s3 H _ IH]; intros l Hq.
  - exists []. by rewrite app_nil_r.
  - destruct (prim_grows _ _ _ H Hq) as (l1 & H1).
    destruct (IH _ H1) as (l2 & H2). exists (l1 ++ l2).
    by rewrite (assoc_L (++)).
Qed.

Section Drain.
Variable table : nat → val → list val → prog.

Lemma head_job_repr s j l : queue_repr s (j :: l) → head_job s = Some j.
Proof.
  intros (i & nxt & Hh & Hi & _). unfold head_job. rewrite Hh. simpl.
  by rewrite Hi.
Qed.

Lemma head_job_repr_nil s : queue_repr s [] → head_job s = None.
Proof. unfold queue_repr, head_job. simpl. by intros ->. Qed.

(** One iteration of the drain loop runs the job at the head; what it
    enqueues goes behind the jobs already waiting. *)
Lemma runQueueEntry_cons s j l :
  queue_repr s (j :: l) →
  runQueueEntry table s = (true, run_job table j (snd (dequeueJob s))) ∧
  ∃ l', queue_repr (run_job table j (snd (dequeueJob s))) (l ++ l').
Proof.
  intros Hq. destruct (dequeueJob_repr_cons _ _ _ Hq) as (i & nxt & Hd & Hi & Hj & _ & _ & _ & _ & _ & Hq').
  unfold runQueueEntry. rewrite Hd, Hj, Hi. simpl. split; [done|].
  eapply steps_grows; [apply steps_run_job|done].
Qed.

Lemma runQueueEntry_nil s :
  queue_repr s [] → runQueueEntry table s = (false, s).
Proof. intros Hq. unfold runQueueEntry. by rewrite dequeueJob_repr_nil. Qed.

Lemma runQueueEntry_false s :
  fst (runQueueEntry table s) = false ↔ queueHead s = None.
Proof.
  unfold runQueueEntry, dequeueJob. destruct (queueHead s); simpl; [|done].
  split; [|done]. by repeat case_match.
Qed.

Lemma runQueueEntry_idle s :
  queueHead s = None → runQueueEntry table s = (false, s).
Proof. intros H. unfold runQueueEntry, dequeueJob. by rewrite H. Qed.

(** The jobs waiting in the queue are run first, in queue order. *)
Lemma trace_fifo_app n s l l2 :
  queue_repr s (l ++ l2) → length l ≤ n →
  take (length l) (trace table n s) = l.
Proof.
  revert n s l2. induction l as [|j l IH]; intros n s l2 Hq Hn; [done|].
  destruct n as [|n]; [simpl in Hn; lia|]. simpl in *.
  rewrite (head_job_repr _ _ _ Hq). simpl. f_equal.
  destruct (runQueueEntry_cons _ _ _ Hq) as (-> & l' & Hq'). simpl.
  rewrite <- (assoc_L (++)) in Hq'. apply (IH _ _ _ Hq'). lia.
Qed.

Lemma trace_fifo n s l :
  queue_repr s l → length l ≤ n → take (length l) (trace table n s) = l.
Proof. intros Hq. apply trace_fifo_app with []. by rewrite app_nil_r. Qed.

Lemma trace_length n s : length (trace table n s) ≤ n.
Proof.
  revert s. induction n as [|n IH]; intros s; simpl; [done|].
  destruct (head_job s); simpl; [|lia]. specialize (IH (snd (runQueueEntry table s))). lia.
Qed.

(** The drain loop returns exactly when the queue has become empty, and
    then after as many iterations as it took to empty it. *)
Lemma runQueue_Some fuel s s' :
  runQueue table fuel s = Some s' ↔
  ∃ n, n < fuel ∧ s' = entries table n s ∧ queueHead s' = None ∧
       ∀ m, m < n → queueHead (entries table m s) ≠ None.
Proof.
  revert s. induction fuel as [|fuel IH]; intros s; simpl.
  { split; [done|]. intros (n & ? & _). lia. }
  destruct (runQueueEntry table s) as [b s1] eqn:He.
  assert (fst (runQueueEntry table s) = b) as Hb by by rewrite He.
  destruct b.
  - assert (queueHead s ≠ None) as Hne.
    { intros H%runQueueEntry_false. congruence. }
    rewrite IH. split.
    + intros (n & Hn & -> & Hh & Hm). exists (S n). simpl. rewrite He. simpl.
      split_and!; [lia|done|done|]. intros [|m] ?; simpl; [done|].
      rewrite He. simpl. apply Hm. lia.
    + intros (n & Hn & -> & Hh & Hm). destruct n as [|n]; [done|].
      exists n. simpl in *. rewrite He in *. simpl in *.
      split_and!; [lia|done|done|]. intros m ?. specialize (Hm (S m)).
      simpl in Hm. rewrite He in Hm. apply Hm. lia.
  - apply runQueueEntry_false in Hb.
    rewrite (runQueueEntry_idle _ Hb) in He. injection He as <-. split.
    + intros [= <-]. exists 0. split_and!; [lia|done|done|]. intros; lia.
    + intros (n & Hn & -> & Hh & Hm). destruct n as [|n]; [done|].
      destruct (Hm 0); [lia|done].
Qed.

End Drain.

(** ** Objects allocated last *)

Lemma lookup_snoc {A} (l : list A) x : (l ++ [x]) !! length l = Some x.
Proof. by apply list_lookup_middle. Qed.

Lemma insert_snoc {A} (l : list A) x y : <[length l := y]> (l ++ [x]) = l ++ [y].
Proof. rewrite insert_app_r_alt by lia. by rewrite Nat.sub_diag. Qed.

Lemma alter_snoc {A} (f : A → A) (l : list A) x :
  alter f (length l) (l ++ [x]) = l ++ [f x].
Proof.
  apply list_eq. intros i. destruct (decide (i = length l)) as [->|Hne].
  - by rewrite list_lookup_alter_eq, !lookup_snoc.
  - rewrite list_lookup_alter_ne by done.
    destruct (decide (i < length l)).
    + by rewrite !lookup_app_l.
    + rewrite !lookup_ge_None_2; [done| |]; rewrite length_app; simpl; lia.
Qed.

Lemma alter_snoc_lt {A} (f : A → A) (l : list A) x i :
  i < length l → alter f i (l ++ [x]) = alter f i l ++ [x].
Proof.
  intros Hi. apply list_eq. intros k. destruct (decide (k = i)) as [->|Hne].
  - rewrite list_lookup_alter_eq, !lookup_app_l by by rewrite ?length_alter.
    by rewrite list_lookup_alter_eq.
  - rewrite list_lookup_alter_ne by done.
    destruct (decide (k < length l)).
    + rewrite !lookup_app_l by by rewrite ?length_alter.
      by rewrite list_lookup_alter_ne.
    + rewrite !lookup_app_r by (rewrite ?length_alter; lia).
      by rewrite length_alter.
Qed.

(** ** Calling a live pair of a pending promise *)

Lemma t_reject_live t p pr err s :
  live (resolvers s) t p → promises s !! p = Some pr → state pr = None →
  t_reject t err s =
  enqueue_all (job_of_reaction err <$> rejectReactions pr)
    (set_promises (<[p := settle false err pr]>) (neutralize t s)).
Proof.
  intros Hl Hp Hst. unfold t_reject, live in *. rewrite Hl. simpl.
  unfold settled. simpl. rewrite Hp, Hst. simpl.
  rewrite doReject_unfold. simpl. by rewrite Hp, Hst.
Qed.

Lemma t_resolve_self t p pr s :
  live (resolvers s) t p → promises s !! p = Some pr → state pr = None →
  t_resolve t (VPromise p) s =
  enqueue_all (job_of_reaction (VTypeError "self resolution") <$> rejectReactions pr)
    (set_promises (<[p := settle false (VTypeError "self resolution") pr]>)
       (neutralize t s)).
Proof.
  intros Hl Hp Hst. unfold t_resolve, live in *. rewrite Hl. simpl.
  unfold settled. simpl. rewrite Hp, Hst. simpl.
  rewrite decide_True by done.
  rewrite doReject_unfold. simpl. by rewrite Hp, Hst.
Qed.

Lemma t_resolve_plain t p pr v s :
  live (resolvers s) t p → promises s !! p = Some pr → state pr = None →
  probe v = NotThenable →
  t_resolve t v s =
  enqueue_all (job_of_reaction v <$> fulfillReactions pr)
    (set_promises (<[p := settle true v pr]>) (neutralize t s)).
Proof.
  intros Hl Hp Hst Hv. unfold t_resolve, live in *. rewrite Hl. simpl.
  unfold settled. simpl. rewrite Hp, Hst. simpl.
  rewrite decide_False by (intros ->; done). rewrite Hv.
  rewrite doFulfill_unfold. simpl. by rewrite Hp, Hst.
Qed.

Lemma t_resolve_thenable t p pr v then_fn s :
  live (resolvers s) t p → promises s !! p = Some pr → state pr = None →
  v ≠ VPromise p → probe v = Thenable then_fn →
  t_resolve t v s =
  enqueueJob (ThenableJob v then_fn (BResolve (length (resolvers s)))
                                    (BReject (length (resolvers s))))
    (set_resolvers (λ rs, rs ++ [Resolver p false]) (neutralize t s)).
Proof.
  intros Hl Hp Hst Hne Hv. unfold t_resolve, live in *. rewrite Hl. simpl.
  unfold settled. simpl. rewrite Hp, Hst. simpl.
  rewrite decide_False by done. rewrite Hv.
  unfold createResolutionFunctions. simpl. by rewrite length_alter.
Qed.

Lemma t_resolve_trapped t p pr e s :
  live (resolvers s) t p → promises s !! p = Some pr → state pr = None →
  t_resolve t (VTrapped e) s =
  enqueue_all (job_of_reaction e <$> rejectReactions pr)
    (set_promises (<[p := settle false e pr]>) (neutralize t s)).
Proof.
  intros Hl Hp Hst. unfold t_resolve, live in *. rewrite Hl. simpl.
  unfold settled. simpl. rewrite Hp, Hst. simpl.
  rewrite doReject_unfold. simpl. by rewrite Hp, Hst.
Qed.

Lemma t_resolve_dead t r v s :
  resolvers s !! t = Some r → alreadyResolved r = true → t_resolve t v s = s.
Proof. intros Ht Ha. unfold t_resolve. by rewrite Ht, Ha. Qed.

Lemma t_reject_dead t r v s :
  resolvers s !! t = Some r → alreadyResolved r = true → t_reject t v s = s.
Proof. intros Ht Ha. unfold t_reject. by rewrite Ht, Ha. Qed.

(** The constructor with the capturing executor. *)
Lemma Promise_new_capture s :
  Promise_new capture s =
  (length (promises s), length (resolvers s),
   set_resolvers (λ rs, rs ++ [Resolver (length (promises s)) false])
     (set_promises (λ ps, ps ++ [MkPromise None VUndef [] []]) s)).
Proof. done. Qed.

(** The machine after allocating a pending promise and its first pair. *)
Definition alloc (s : machine) : machine :=
  set_resolvers (λ rs, rs ++ [Resolver (length (promises s)) false])
    (set_promises (λ ps, ps ++ [MkPromise None VUndef [] []]) s).

Lemma then_unfold q pr onF onR s :
  promises s !! q = Some pr →
  then_ (VPromise q) onF onR s =
  (Normal (VPromise (length (promises s))),
   let t := length (resolvers s) in
   match state pr with
   | None =>
       push_reactions q
         (Reaction (handler_or Identity onF) (BResolve t) (BReject t))
         (Reaction (handler_or Thrower onR) (BResolve t) (BReject t)) (alloc s)
   | Some true =>
       enqueueJob (ReactionJob (handler_or Identity onF) (BResolve t) (BReject t)
                               (value pr)) (alloc s)
   | Some false =>
       enqueueJob (ReactionJob (handler_or Thrower onR) (BResolve t) (BReject t)
                               (value pr)) (alloc s)
   end).
Proof.
  intros Hq. unfold then_. rewrite Promise_new_capture. fold (alloc s). f_equal.
  simpl. by rewrite (lookup_app_l_Some _ _ _ _ Hq).
Qed.

(** * Single settlement *)

Lemma settled_call_noop t r v s pr :
  resolvers s !! t = Some r → promises s !! target r = Some pr → state pr ≠ None →
  (t_resolve t v s = if alreadyResolved r then s else neutralize t s) ∧
  (t_reject t v s = if alreadyResolved r then s else neutralize t s).
Proof.
  intros Ht Hp Hst. unfold t_resolve, t_reject. rewrite Ht.
  destruct (alreadyResolved r); [done|].
  by rewrite (settled_true (target r) (neutralize t s) pr).
Qed.

Lemma wf_settled_dead s t r pr :
  wf s → resolvers s !! t = Some r → promises s !! target r = Some pr →
  state pr ≠ None → alreadyResolved r = true.
Proof.
  intros [_ (_ & Hl & _)] Ht Hp Hst.
  destruct (alreadyResolved r) eqn:Ha; [done|].
  destruct (Hl t (target r)) as (pr' & Hp' & Hst'); [by apply live_lookup|].
  congruence.
Qed.

(** C1.  Once a promise has left the pending state, its state and result
    never change again: calling any resolution function leaves the Promise
    object as it is, a call through a pair created for this promise changes
    nothing but (at most) that pair's own latch, and nothing at all in a
    machine reached by the polyfill's own operations; no user program, queue
    entry or drain changes the object either. *)
Theorem single_settlement (table : nat → val → list val → prog)
    (s : machine) (p : nat) (pr : promise) :
  promises s !! p = Some pr → state pr ≠ None →
  (∀ t v, promises (t_resolve t v s) !! p = Some pr ∧
          promises (t_reject t v s) !! p = Some pr) ∧
  (∀ t r v, resolvers s !! t = Some r → target r = p →
     (t_resolve t v s = if alreadyResolved r then s else neutralize t s) ∧
     (t_reject t v s = if alreadyResolved r then s else neutralize t s)) ∧
  (wf s → ∀ t r v, resolvers s !! t = Some r → target r = p →
     t_resolve t v s = s ∧ t_reject t v s = s) ∧
  (∀ c, promises (snd (interp c s)) !! p = Some pr) ∧
  (∀ n, promises (entries table n s) !! p = Some pr) ∧
  (∀ fuel s', runQueue table fuel s = Some s' → promises s' !! p = Some pr).
Proof.
  intros Hp Hst.
  assert (∀ s', hsteps s s' → promises s' !! p = Some pr) as Hfrozen.
  { intros s' H. by apply (proj1 (evolves_hsteps _ _ H)). }
  split_and!.
  - intros t v. split; apply Hfrozen, steps_hsteps; auto with steps.
  - intros t r v Ht <-. by eapply settled_call_noop.
  - intros Hwf t r v Ht <-.
    destruct (settled_call_noop t r v s pr Ht Hp Hst) as [-> ->].
    by rewrite (wf_settled_dead s t r pr).
  - intros c. apply Hfrozen, steps_hsteps, steps_interp.
  - intros n. apply Hfrozen, steps_entries.
  - intros fuel s' H. eapply Hfrozen, steps_runQueue, H.
Qed.

(** * Rejection stores its argument as it is *)

(** C10.  On a live pair of a pending promise, [reject(e)] settles the
    promise to rejected with [e] itself as the stored value, whatever [e]
    is: only the promise's rejection reactions are enqueued and no new pair
    is created.  [Promise.reject(e)] returns a new promise rejected with
    [e], and enqueues nothing. *)
Theorem reject_never_assimilates (s : machine) (t p : nat) (pr : promise)
    (e : val) (l : list job) :
  live (resolvers s) t p → promises s !! p = Some pr → state pr = None →
  queue_repr s l →
  promises (t_reject t e s) !! p = Some (MkPromise (Some false) e [] []) ∧
  resolvers (t_reject t e s) = alter trip t (resolvers s) ∧
  queue_repr (t_reject t e s) (l ++ (job_of_reaction e <$> rejectReactions pr)) ∧
  fst (reject e s) = VPromise (length (promises s)) ∧
  promises (snd (reject e s)) !! length (promises s)
    = Some (MkPromise (Some false) e [] []) ∧
  queue_repr (snd (reject e s)) l.
Proof.
  intros Hl Hp Hst Hq. rewrite (t_reject_live t p pr e s Hl Hp Hst).
  split_and!.
  - heap_simpl. apply list_lookup_insert_eq. by eapply lookup_lt_Some.
  - by heap_simpl.
  - by apply enqueue_all_repr.
  - done.
  - unfold reject, Promise_new. simpl.
    rewrite (t_reject_live (length (resolvers s)) (length (promises s))
               (MkPromise None VUndef [] []) e); simpl.
    + by rewrite insert_snoc, lookup_snoc.
    + apply lookup_snoc.
    + apply lookup_snoc.
    + done.
  - unfold reject, Promise_new. simpl.
    rewrite (t_reject_live (length (resolvers s)) (length (promises s))
               (MkPromise None VUndef [] []) e); simpl;
      [done|apply lookup_snoc|apply lookup_snoc|done].
Qed.

(** * [all] of the empty list *)

(** C7.  [all([])] returns a promise that is fulfilled when the call
    returns, its value being the (empty) [values] array of the call; the
    counter, seeded at 1, is at 0, and the queue has not been touched. *)
Theorem all_empty_fulfills_immediately (s : machine) :
  fst (all [] s) = VPromise (length (promises s)) ∧
  promises (snd (all [] s)) !! length (promises s)
    = Some (MkPromise (Some true) (VArray (length (alls s))) [] []) ∧
  alls (snd (all [] s)) !! length (alls s)
    = Some (AllEnv [] 0 (length (resolvers s))) ∧
  jobs (snd (all [] s)) = jobs s ∧
  queueHead (snd (all [] s)) = queueHead s ∧
  queueTail (snd (all [] s)) = queueTail s.
Proof.
  assert (all [] s =
    (VPromise (length (promises s)),
     t_resolve (length (resolvers s)) (VArray (length (alls s)))
       (set_alls (λ l, l ++ [AllEnv [] 0 (length (resolvers s))]) (alloc s)))) as ->.
  { unfold all. rewrite Promise_new_capture. fold (alloc s). cbn [all_loop].
    f_equal. simpl. rewrite lookup_snoc. simpl.
    f_equal. unfold set_alls. simpl. by rewrite insert_snoc. }
  rewrite (t_resolve_plain (length (resolvers s)) (length (promises s))
             (MkPromise None VUndef [] []) (VArray (length (alls s)))); simpl;
    [|apply lookup_snoc|apply lookup_snoc|done|done].
  by rewrite !insert_snoc, !lookup_snoc.
Qed.

(** ** A pair's latch stays set *)

Lemma doReject_resolvers p v s : resolvers (doReject p v s) = resolvers s.
Proof.
  rewrite doReject_unfold. destruct (promises s !! p) as [pr|]; [|done].
  destruct (state pr); [done|]. by heap_simpl.
Qed.

Lemma doFulfill_resolvers p v s : resolvers (doFulfill p v s) = resolvers s.
Proof.
  rewrite doFulfill_unfold. destruct (promises s !! p) as [pr|]; [|done].
  destruct (state pr); [done|]. by heap_simpl.
Qed.

Lemma trip_tripped r : alreadyResolved r = true → trip r = r.
Proof. destruct r as [p b]. simpl. by intros ->. Qed.

(** Whatever a resolution function does, it leaves its pair's latch set. *)
Lemma t_resolve_latch t v s r :
  resolvers s !! t = Some r → resolvers (t_resolve t v s) !! t = Some (trip r).
Proof.
  intros Hr. unfold t_resolve. rewrite Hr.
  destruct (alreadyResolved r) eqn:Ha; [by rewrite trip_tripped|].
  assert (resolvers (neutralize t s) !! t = Some (trip r)) as Hn.
  { simpl. by rewrite list_lookup_alter_eq, Hr. }
  destruct (settled (target r) (neutralize t s)); [done|].
  case_decide; [by rewrite doReject_resolvers|].
  destruct (probe v).
  - by rewrite doFulfill_resolvers.
  - simpl. heap_simpl. by apply lookup_app_l_Some.
  - by rewrite doReject_resolvers.
Qed.

Lemma t_reject_latch t v s r :
  resolvers s !! t = Some r → resolvers (t_reject t v s) !! t = Some (trip r).
Proof.
  intros Hr. unfold t_reject. rewrite Hr.
  destruct (alreadyResolved r) eqn:Ha; [by rewrite trip_tripped|].
  assert (resolvers (neutralize t s) !! t = Some (trip r)) as Hn.
  { simpl. by rewrite list_lookup_alter_eq, Hr. }
  destruct (settled (target r) (neutralize t s)); [done|].
  by rewrite doReject_resolvers.
Qed.

Lemma t_resolve_unallocated t v s : resolvers s !! t = None → t_resolve t v s = s.
Proof. intros Hr. unfold t_resolve. by rewrite Hr. Qed.

Lemma t_reject_unallocated t v s : resolvers s !! t = None → t_reject t v s = s.
Proof. intros Hr. unfold t_reject. by rewrite Hr. Qed.

Lemma latched_noop t s :
  (∀ r, resolvers s !! t = Some r → alreadyResolved r = true) →
  ∀ w, t_resolve t w s = s ∧ t_reject t w s = s.
Proof.
  intros H w. destruct (resolvers s !! t) as [r|] eqn:Hr.
  - split; [by eapply t_resolve_dead, H|by eapply t_reject_dead, H].
  - split; [by apply t_resolve_unallocated|by apply t_reject_unallocated].
Qed.

(** After a call of either function of a pair, the pair is neutralized. *)
Lemma t_resolve_used t v s r :
  resolvers (t_resolve t v s) !! t = Some r → alreadyResolved r = true.
Proof.
  destruct (resolvers s !! t) as [r0|] eqn:Hr.
  - rewrite (t_resolve_latch t v s r0 Hr). by intros [= <-].
  - rewrite t_resolve_unallocated by done. by rewrite Hr.
Qed.

Lemma t_reject_used t v s r :
  resolvers (t_reject t v s) !! t = Some r → alreadyResolved r = true.
Proof.
  destruct (resolvers s !! t) as [r0|] eqn:Hr.
  - rewrite (t_reject_latch t v s r0 Hr). by intros [= <-].
  - rewrite t_reject_unallocated by done. by rewrite Hr.
Qed.

(** * Self-resolution *)

(** [var r; var p = new Promise(function (resolve) { r = resolve; }); r(p);]
    with [r] kept in the user's variable [x]. *)
Definition self_resolving (x : nat) : prog :=
  New (λ resolve _, SetVar x resolve (Ret VUndef))
      (λ p, GetVar x (λ r,
         match r with
         | VFun (FBuiltin b) => Call b VUndef [p] (λ _, Ret p)
         | _ => Ret p
         end)).

Lemma array_set_lookup {A} i (v : A) a : array_set i v a !! i = Some (Some v).
Proof.
  unfold array_set. case_decide.
  - by apply list_lookup_insert_eq.
  - rewrite lookup_app_r by lia. rewrite lookup_app_r; rewrite length_replicate; [|done].
    by rewrite Nat.sub_diag.
Qed.

(** C3, as the code has it.  In a well-formed machine, calling the resolve
    function of a pair that is still live with the pair's own promise
    rejects that promise with the TypeError.  A pair that has been used
    does nothing: the call is a no-op when the pair's latch is set, and the
    latch is set by any earlier call of either function of the pair.  The
    program that creates a promise and then resolves it with itself through
    the resolve function it was given yields a rejected promise, from every
    machine. *)
Theorem self_resolution_rejects (s : machine) (x : nat) :
  (∀ t p, wf s → live (resolvers s) t p →
     promises (t_resolve t (VPromise p) s) !! p
       = Some (MkPromise (Some false) (VTypeError "self resolution") [] [])) ∧
  (∀ t r, resolvers s !! t = Some r → alreadyResolved r = true →
     t_resolve t (VPromise (target r)) s = s) ∧
  (∀ t p v,
     t_resolve t (VPromise p) (t_resolve t v s) = t_resolve t v s ∧
     t_resolve t (VPromise p) (t_reject t v s) = t_reject t v s) ∧
  fst (interp (self_resolving x) s) = Normal (VPromise (length (promises s))) ∧
  promises (snd (interp (self_resolving x) s)) !! length (promises s)
    = Some (MkPromise (Some false) (VTypeError "self resolution") [] []).
Proof.
  split_and!.
  - intros t p Hwf Hl. destruct Hwf as [_ (_ & Hlive & _)].
    destruct (Hlive _ _ Hl) as (pr & Hp & Hst).
    rewrite (t_resolve_self t p pr s Hl Hp Hst). heap_simpl.
    apply list_lookup_insert_eq. by eapply lookup_lt_Some.
  - intros t r Hr Ha. by apply (t_resolve_dead t r).
  - intros t p v. split.
    + apply (latched_noop t (t_resolve t v s)). intros r. apply t_resolve_used.
    + apply (latched_noop t (t_reject t v s)). intros r. apply t_reject_used.
  - unfold self_resolving. cbn [interp]. unfold Promise_new. cbn [interp].
    simpl. rewrite array_set_lookup. simpl. unfold call_builtin. by simpl.
  - unfold self_resolving. cbn [interp]. unfold Promise_new. cbn [interp].
    simpl. rewrite array_set_lookup. simpl. unfold call_builtin. simpl.
    rewrite (t_resolve_self (length (resolvers s)) (length (promises s))
               (MkPromise None VUndef [] [])); simpl;
      [|apply lookup_snoc|apply lookup_snoc|done].
    by rewrite insert_snoc, lookup_snoc.
Qed.

(** * FIFO order of reactions *)

Lemma then_pending q pr onF onR s :
  promises s !! q = Some pr → state pr = None →
  let t := length (resolvers s) in
  let s' := snd (then_ (VPromise q) onF onR s) in
  fst (then_ (VPromise q) onF onR s) = Normal (VPromise (length (promises s))) ∧
  promises s' !! q = Some (MkPromise None (value pr)
    (fulfillReactions pr ++ [Reaction (handler_or Identity onF) (BResolve t) (BReject t)])
    (rejectReactions pr ++ [Reaction (handler_or Thrower onR) (BResolve t) (BReject t)])) ∧
  length (resolvers s') = S (length (resolvers s)) ∧
  (∀ l, queue_repr s l → queue_repr s' l).
Proof.
  intros Hq Hst. rewrite (then_unfold q pr onF onR s Hq), Hst. simpl.
  split_and!; [done| |by rewrite length_app, Nat.add_1_r|done].
  rewrite list_lookup_alter_eq, (lookup_app_l_Some _ _ _ _ Hq). simpl.
  by rewrite Hst.
Qed.

Section Order.
Variable table : nat → val → list val → prog.

(** C2.  Three reactions registered by [then] on a pending promise are,
    when the promise settles, enqueued behind everything already waiting and
    in registration order, and the drain loop runs them in that order: the
    first jobs it runs are the queue's contents at settlement, in order.  The
    queue itself is FIFO: [enqueueJob] appends at the tail, [dequeueJob]
    removes the head. *)
Theorem fifo_reaction_order (s : machine) (q : nat) (pr : promise)
    (f1 r1 f2 r2 f3 r3 v : val) (l : list job) :
  promises s !! q = Some pr → state pr = None → queue_repr s l →
  let t := length (resolvers s) in
  let s3 := snd (then_ (VPromise q) f3 r3
              (snd (then_ (VPromise q) f2 r2
                 (snd (then_ (VPromise q) f1 r1 s))))) in
  let F i f := ReactionJob (handler_or Identity f) (BResolve (t + i)) (BReject (t + i)) v in
  let R i r := ReactionJob (handler_or Thrower r) (BResolve (t + i)) (BReject (t + i)) v in
  let qf := (l ++ (job_of_reaction v <$> fulfillReactions pr))
              ++ [F 0 f1; F 1 f2; F 2 f3] in
  let qr := (l ++ (job_of_reaction v <$> rejectReactions pr))
              ++ [R 0 r1; R 1 r2; R 2 r3] in
  queue_repr (doFulfill q v s3) qf ∧
  (∀ n, length qf ≤ n → take (length qf) (trace table n (doFulfill q v s3)) = qf) ∧
  queue_repr (doReject q v s3) qr ∧
  (∀ n, length qr ≤ n → take (length qr) (trace table n (doReject q v s3)) = qr) ∧
  (∀ s0 l0 j, queue_repr s0 l0 → queue_repr (enqueueJob j s0) (l0 ++ [j])) ∧
  (∀ s0 l0 j, queue_repr s0 (j :: l0) →
     head_job s0 = Some j ∧ fst (runQueueEntry table s0) = true ∧
     queue_repr (snd (dequeueJob s0)) l0) ∧
  (∀ s0, queue_repr s0 [] → fst (dequeueJob s0) = None).
Proof.
  intros Hq Hst Hl t s3 F R qf qr.
  destruct (then_pending q pr f1 r1 s Hq Hst) as (_ & Hq1 & Hr1 & Hl1).
  set (s1 := snd (then_ (VPromise q) f1 r1 s)) in *.
  destruct (then_pending q _ f2 r2 s1 Hq1 eq_refl) as (_ & Hq2 & Hr2 & Hl2).
  set (s2 := snd (then_ (VPromise q) f2 r2 s1)) in *.
  destruct (then_pending q _ f3 r3 s2 Hq2 eq_refl) as (_ & Hq3 & Hr3 & Hl3).
  fold s3 in Hq3, Hr3, Hl3. simpl in Hq3.
  rewrite Hr2, Hr1 in Hq3. fold t in Hq3.
  assert (queue_repr s3 l) as Hl' by auto.
  assert (queue_repr (doFulfill q v s3) qf) as Hqf.
  { rewrite doFulfill_unfold, Hq3. simpl.
    replace qf with (l ++ (job_of_reaction v <$>
      ((fulfillReactions pr ++ [Reaction (handler_or Identity f1) (BResolve t) (BReject t)])
        ++ [Reaction (handler_or Identity f2) (BResolve (S t)) (BReject (S t))])
        ++ [Reaction (handler_or Identity f3) (BResolve (S (S t))) (BReject (S (S t)))])).
    { by apply enqueue_all_repr. }
    unfold qf, F. rewrite !fmap_app, <- !(assoc_L (++)). simpl.
    unfold job_of_reaction at 2 3 4. simpl.
    by rewrite Nat.add_0_r, Nat.add_1_r, (Nat.add_comm t 2). }
  assert (queue_repr (doReject q v s3) qr) as Hqr.
  { rewrite doReject_unfold, Hq3. simpl.
    replace qr with (l ++ (job_of_reaction v <$>
      ((rejectReactions pr ++ [Reaction (handler_or Thrower r1) (BResolve t) (BReject t)])
        ++ [Reaction (handler_or Thrower r2) (BResolve (S t)) (BReject (S t))])
        ++ [Reaction (handler_or Thrower r3) (BResolve (S (S t))) (BReject (S (S t)))])).
    { by apply enqueue_all_repr. }
    unfold qr, R. rewrite !fmap_app, <- !(assoc_L (++)). simpl.
    unfold job_of_reaction at 2 3 4. simpl.
    by rewrite Nat.add_0_r, Nat.add_1_r, (Nat.add_comm t 2). }
  split_and!; try done.
  - intros n Hn. by apply trace_fifo.
  - intros n Hn. by apply trace_fifo.
  - intros s0 l0 j. apply enqueueJob_repr.
  - intros s0 l0 j H0. split_and!.
    + by eapply head_job_repr.
    + by rewrite (proj1 (runQueueEntry_cons table _ _ _ H0)).
    + by destruct (dequeueJob_repr_cons _ _ _ H0) as (? & ? & _ & _ & _ & _ & _ & _ & _ & _ & ?).
  - intros s0 H0. by rewrite dequeueJob_repr_nil.
Qed.

(** * The drain loop *)

Lemma entries_add n m s :
  entries table (n + m) s = entries table m (entries table n s).
Proof. revert s. induction n as [|n IH]; intros s; simpl; [done|apply IH]. Qed.

Lemma trace_add n m s :
  trace table (n + m) s =
  trace table n s ++
  (if decide (length (trace table n s) = n)
   then trace table m (entries table n s) else []).
Proof.
  revert s. induction n as [|n IH]; intros s; simpl; [done|].
  destruct (head_job s) as [j|]; simpl; [|done].
  rewrite IH. f_equal. f_equal.
  repeat case_decide; try done; lia.
Qed.

(** While the queue holds [l], at least [length l] more entries are needed
    to empty it. *)
Lemma entries_empty_length k s l :
  queue_repr s l → queueHead (entries table k s) = None → length l ≤ k.
Proof.
  revert s l. induction k as [|k IH]; intros s l Hq Hk; simpl in *.
  - apply (queue_repr_nil_iff _ _ Hq) in Hk. by subst.
  - destruct l as [|j l]; [simpl; lia|].
    destruct (runQueueEntry_cons table _ _ _ Hq) as (He & l' & Hq').
    rewrite He in Hk. simpl in Hk. apply (IH _ _ Hq') in Hk.
    rewrite length_app in Hk. simpl. lia.
Qed.

Lemma trace_entries_length k s l :
  queue_repr s l → (∀ m, m < k → queueHead (entries table m s) ≠ None) →
  length (trace table k s) = k.
Proof.
  revert s l. induction k as [|k IH]; intros s l Hq Hk; [done|]. simpl.
  destruct l as [|j l].
  { destruct (Hk 0); [lia|]. simpl. by apply (queue_repr_nil_iff _ _ Hq). }
  rewrite (head_job_repr _ _ _ Hq). simpl. f_equal.
  destruct (runQueueEntry_cons table _ _ _ Hq) as (He & l' & Hq').
  rewrite He. simpl. apply (IH _ _ Hq'). intros m Hm.
  specialize (Hk (S m)). simpl in Hk. rewrite He in Hk. apply Hk. lia.
Qed.

Lemma runQueue_enough n s :
  queueHead (entries table n s) = None →
  ∃ s', runQueue table (S n) s = Some s'.
Proof.
  revert s. induction n as [|n IH]; intros s Hn.
  - simpl in *. rewrite (runQueueEntry_idle _ _ Hn). eauto.
  - cbn [runQueue]. cbn [entries] in Hn.
    destruct (runQueueEntry table s) as [[] s1]; [|eauto].
    by apply IH.
Qed.

(** C6.  The drain loop returns exactly when the queue has become empty,
    and the queue is empty when it returns.  Every job that is in the queue
    at any moment of the drain, whether it was there at the start or was
    enqueued by a job the drain ran, has been run when the drain returns. *)
Theorem drain_exhaustive (s : machine) (l : list job) :
  queue_repr s l →
  ((∃ fuel s', runQueue table fuel s = Some s') ↔
   (∃ n, queueHead (entries table n s) = None)) ∧
  (∀ fuel s', runQueue table fuel s = Some s' →
     queueHead s' = None ∧ queue_repr s' [] ∧
     ∃ n, n < fuel ∧ s' = entries table n s ∧ length (trace table n s) = n ∧
       ∀ m lm, m ≤ n → queue_repr (entries table m s) lm →
         ∃ post, trace table n s = trace table m s ++ lm ++ post).
Proof.
  intros Hq. split.
  - split.
    + intros (fuel & s' & (n & _ & -> & Hn & _)%runQueue_Some). eauto.
    + intros (n & Hn). exists (S n). by apply runQueue_enough.
  - intros fuel s' (n & Hn & -> & Hh & Hm)%runQueue_Some.
    split; [done|]. split; [done|].
    exists n. split_and!; [done|done|by eapply trace_entries_length|].
    intros m lm Hmn Hlm.
    assert (trace table n s = trace table (m + (n - m)) s) as ->
      by (f_equal; lia).
    rewrite trace_add.
    rewrite (trace_entries_length m s l Hq) by (intros; apply Hm; lia).
    rewrite decide_True by done.
    assert (length lm ≤ n - m) as Hlen.
    { apply (entries_empty_length _ _ _ Hlm). rewrite <- entries_add.
      by replace (m + (n - m)) with n by lia. }
    exists (drop (length lm) (trace table (n - m) (entries table m s))).
    f_equal. rewrite <- (trace_fifo table (n - m) _ lm Hlm Hlen) at 1.
    by rewrite take_drop.
Qed.

End Order.

(** * Errors raised by an executor *)

Lemma wf_alloc s : wf s → wf (alloc s).
Proof. apply wf_prim. apply prim_alloc. Qed.

Lemma Promise_new_unfold executor s :
  Promise_new executor s =
  let p := length (promises s) in
  let t := length (resolvers s) in
  match executor t (alloc s) with
  | (Normal _, s1) => (p, t, s1)
  | (Abrupt e, s1) => (p, t, t_reject t e s1)
  end.
Proof. unfold Promise_new. simpl. fold (alloc s). by destruct (executor _ _) as [[] ?]. Qed.

(** C4, as the code has it.  An error raised by the executor does not leave
    the constructor: the constructor passes it to the new promise's [reject]
    and returns the promise.  The promise is then rejected with that error
    if the executor had not used the pair before raising; if it had, the
    call changes nothing. *)
Theorem executor_error_is_caught (s : machine) (executor : val → val → prog)
    (e : val) (s1 : machine) :
  wf s →
  let p := length (promises s) in
  let t := length (resolvers s) in
  interp (executor (resolve_of t) (reject_of t)) (alloc s) = (Abrupt e, s1) →
  Promise_new (λ t s, interp (executor (resolve_of t) (reject_of t)) s) s
    = (p, t, t_reject t e s1) ∧
  (∀ k, interp (New executor k) s = interp (k (VPromise p)) (t_reject t e s1)) ∧
  (live (resolvers s1) t p →
     promises (t_reject t e s1) !! p = Some (MkPromise (Some false) e [] [])) ∧
  (¬ live (resolvers s1) t p → t_reject t e s1 = s1).
Proof.
  intros Hwf p t He.
  assert (Promise_new (λ t s, interp (executor (resolve_of t) (reject_of t)) s) s
          = (p, t, t_reject t e s1)) as Hnew.
  { rewrite Promise_new_unfold. simpl. fold p t. by rewrite He. }
  assert (steps (alloc s) s1) as Hsteps.
  { replace s1 with (snd (interp (executor (resolve_of t) (reject_of t)) (alloc s)))
      by by rewrite He. apply steps_interp. }
  split_and!.
  - done.
  - intros k. cbn [interp]. by rewrite Hnew.
  - intros Hl.
    pose proof (wf_steps _ _ Hsteps (wf_alloc _ Hwf)) as [_ (_ & Hlive & _)].
    destruct (Hlive _ _ Hl) as (pr & Hp & Hst).
    rewrite (t_reject_live t p pr e s1 Hl Hp Hst). heap_simpl.
    apply list_lookup_insert_eq. by eapply lookup_lt_Some.
  - intros Hl.
    destruct (proj1 (proj2 (evolves_steps _ _ Hsteps)) t (Resolver p false))
      as (r' & Hr' & Ht' & _).
    { unfold alloc. simpl. apply lookup_snoc. }
    destruct r' as [p' []]; simpl in Ht'; subst p'.
    + by eapply t_reject_dead.
    + by destruct Hl.
Qed.

(** [new Promise(function (resolve) { resolve(5); throw 'boom'; })] *)
Definition resolve_then_throw : val → val → prog :=
  λ resolve _,
    match resolve with
    | VFun (FBuiltin b) => Call b VUndef [VNum 5] (λ _, Throw (VStr "boom"))
    | _ => Throw (VStr "boom")
    end.

(** The executor above raises, and the promise is fulfilled with 5, not
    rejected. *)
Lemma executor_error_not_always_rejection :
  fst (interp (resolve_then_throw (resolve_of 0) (reject_of 0)) (alloc initial))
    = Abrupt (VStr "boom") ∧
  fst (interp (New resolve_then_throw Ret) initial) = Normal (VPromise 0) ∧
  promises (snd (interp (New resolve_then_throw Ret) initial)) !! 0
    = Some (MkPromise (Some true) (VNum 5) [] []).
Proof. vm_compute. done. Qed.

(** * Concrete instances *)

Definition no_table : nat → val → list val → prog := λ _ _ _, Ret VUndef.

(** [Promise.resolve(1)] in the initial machine: promise 0, fulfilled. *)
Definition ex_fulfilled : machine := snd (resolve (VNum 1) initial).

(** A pending promise 0 with its live pair 0. *)
Definition ex_pending : machine := alloc initial.

(** An object with a callable [then]. *)
Definition ex_thenable : val := VObject (Some (FUser 0)).

Lemma single_settlement_witness :
  promises ex_fulfilled !! 0 = Some (MkPromise (Some true) (VNum 1) [] []) ∧
  ∀ t v,
    promises (t_resolve t v ex_fulfilled) !! 0
      = Some (MkPromise (Some true) (VNum 1) [] []) ∧
    promises (t_reject t v ex_fulfilled) !! 0
      = Some (MkPromise (Some true) (VNum 1) [] []).
Proof.
  split; [reflexivity|].
  apply (single_settlement no_table ex_fulfilled 0
           (MkPromise (Some true) (VNum 1) [] [])); [reflexivity|done].
Defined.

Lemma reject_never_assimilates_witness :
  live (resolvers ex_pending) 0 0 ∧
  promises (t_reject 0 ex_thenable ex_pending) !! 0
    = Some (MkPromise (Some false) ex_thenable [] []).
Proof.
  split; [reflexivity|].
  apply (reject_never_assimilates ex_pending 0 0 (MkPromise None VUndef [] [])
           ex_thenable []); reflexivity.
Defined.

Lemma self_resolution_rejects_witness :
  live (resolvers ex_pending) 0 0 ∧
  promises (t_resolve 0 (VPromise 0) ex_pending) !! 0
    = Some (MkPromise (Some false) (VTypeError "self resolution") [] []) ∧
  promises (snd (interp (self_resolving 0) initial)) !! 0
    = Some (MkPromise (Some false) (VTypeError "self resolution") [] []).
Proof.
  split; [reflexivity|].
  destruct (self_resolution_rejects ex_pending 0) as (H & _).
  split; [apply (H 0 0); [apply wf_alloc, wf_initial|reflexivity]|].
  apply (self_resolution_rejects initial 0).
Defined.

(** [var r; var p = new Promise(function (resolve) { r = resolve; });
    r(1); r(p);]: the second call finds the pair neutralized, and the
    promise stays fulfilled with 1. *)
Lemma self_resolution_after_resolve :
  resolvers (t_resolve 0 (VNum 1) ex_pending) !! 0 = Some (Resolver 0 true) ∧
  promises (t_resolve 0 (VPromise 0) (t_resolve 0 (VNum 1) ex_pending)) !! 0
    = Some (MkPromise (Some true) (VNum 1) [] []).
Proof. split; reflexivity. Qed.

(** [new Promise(function () { throw 'boom'; })] *)
Definition just_throw : val → val → prog := λ _ _, Throw (VStr "boom").

Lemma executor_error_is_caught_witness :
  interp (just_throw (resolve_of 0) (reject_of 0)) (alloc initial)
    = (Abrupt (VStr "boom"), alloc initial) ∧
  Promise_new (λ t s, interp (just_throw (resolve_of t) (reject_of t)) s) initial
    = (0, 0, t_reject 0 (VStr "boom") (alloc initial)) ∧
  promises (t_reject 0 (VStr "boom") (alloc initial)) !! 0
    = Some (MkPromise (Some false) (VStr "boom") [] []).
Proof.
  split; [reflexivity|].
  destruct (executor_error_is_caught initial just_throw (VStr "boom") (alloc initial)
              wf_initial eq_refl) as (H1 & _ & H2 & _).
  split; [exact H1|]. apply H2. reflexivity.
Defined.

(** Promise 0 pending, with nothing else around; three handlers. *)
Lemma fifo_reaction_order_witness :
  queue_repr ex_pending [] ∧
  let s3 := snd (then_ (VPromise 0) (VFun (FUser 3)) VUndef
              (snd (then_ (VPromise 0) (VFun (FUser 2)) VUndef
                 (snd (then_ (VPromise 0) (VFun (FUser 1)) VUndef ex_pending))))) in
  take 3 (trace no_table 5 (doFulfill 0 (VNum 7) s3)) =
    [ReactionJob (Handler (FUser 1)) (BResolve 1) (BReject 1) (VNum 7);
     ReactionJob (Handler (FUser 2)) (BResolve 2) (BReject 2) (VNum 7);
     ReactionJob (Handler (FUser 3)) (BResolve 3) (BReject 3) (VNum 7)].
Proof.
  split; [reflexivity|].
  destruct (fifo_reaction_order no_table ex_pending 0 (MkPromise None VUndef [] [])
              (VFun (FUser 1)) VUndef (VFun (FUser 2)) VUndef (VFun (FUser 3)) VUndef
              (VNum 7) [] eq_refl eq_refl eq_refl) as (_ & H & _).
  apply (H 5). simpl. lia.
Defined.

(** A handler that registers a further reaction and returns a thenable:
    function 0 is the handler, function 1 the reaction it registers on
    promise 0, function 2 the [then] of the thenable it returns. *)
Definition ex_table : nat → val → list val → prog := λ fid this args,
  match fid, args with
  | 0, _ => Call BThen (VPromise 0) [VFun (FUser 1); VUndef]
              (λ _, Ret (VObject (Some (FUser 2))))
  | 1, x :: _ => Ret x
  | 2, VFun (FBuiltin b) :: _ => Call b VUndef [VNum 7] (λ _, Ret VUndef)
  | _, _ => Ret VUndef
  end.

(** [Promise.resolve(1).then(handler)] *)
Definition ex_follow_on : machine :=
  snd (then_ (VPromise 0) (VFun (FUser 0)) VUndef ex_fulfilled).

Lemma drain_exhaustive_witness :
  queue_repr ex_follow_on
    [ReactionJob (Handler (FUser 0)) (BResolve 1) (BReject 1) (VNum 1)] ∧
  ∃ s', runQueue ex_table 4 ex_follow_on = Some s' ∧
    queueHead s' = None ∧
    length (trace ex_table 4 ex_follow_on) = 3 ∧
    promises s' !! 1 = Some (MkPromise (Some true) (VNum 7) [] []).
Proof.
  assert (queue_repr ex_follow_on
    [ReactionJob (Handler (FUser 0)) (BResolve 1) (BReject 1) (VNum 1)]) as Hq.
  { vm_compute. eexists 0, None. split_and!; try reflexivity. intros ?; discriminate. }
  split; [exact Hq|].
  destruct (runQueue ex_table 4 ex_follow_on) as [s'|] eqn:Hr; [|by vm_compute in Hr].
  exists s'. split; [done|].
  destruct (proj2 (drain_exhaustive ex_table ex_follow_on _ Hq) 4 s' Hr)
    as (Hh & _ & _).
  split; [exact Hh|].
  vm_compute in Hr. injection Hr as <-. by vm_compute.
Defined.

(** * Thenable assimilation *)

Section Chain.
Variable table : nat → val → list val → prog.

Lemma entries_S n s :
  entries table (S n) s = snd (runQueueEntry table (entries table n s)).
Proof. rewrite <- Nat.add_1_r. by rewrite entries_add. Qed.

(** A chain of [N] nested plain thenables: thenable number [i] is an object
    whose [then] is user function [base + i], which at once calls the
    [resolve] it is given with thenable [i + 1], the innermost one with the
    plain value [v]. *)
Variables (N base : nat) (v : val).

Definition layer (i : nat) : val := VObject (Some (FUser (base + i))).

Definition next_layer (i : nat) : val :=
  if decide (S i < N) then layer (S i) else v.


Hypothesis v_plain : probe v = NotThenable.
Hypothesis table_chain : ∀ i this r rj, i < N →
  table (base + i) this [VFun (FBuiltin r); rj]
  = Call r VUndef [next_layer i] (λ _, Ret VUndef).


Section Target.
Variables (p : nat) (pr : promise).
Hypothesis pr_pending : state pr = None.






End Target.
End Chain.


(** * A pair that nobody holds *)

Section Private.

(** The pair [t0], and what it means not to mention it. *)
Variable t0 : nat.

Definition builtin_free (b : builtin) : Prop :=
  b ≠ BResolve t0 ∧ b ≠ BReject t0.

Definition fnval_free (f : fnval) : Prop :=
  match f with
  | FBuiltin b => builtin_free b
  | FUser _ => True
  end.

Fixpoint val_free (v : val) : Prop :=
  match v with
  | VFun f => fnval_free f
  | VObject (Some f) => fnval_free f
  | VTrapped e => val_free e
  | _ => True
  end.

Definition completion_free (c : completion) : Prop :=
  match c with
  | Normal v => val_free v
  | Abrupt e => val_free e
  end.

Definition handler_free (h : handler) : Prop :=
  match h with
  | Handler f => fnval_free f
  | _ => True
  end.

Definition reaction_free (r : reaction) : Prop :=
  handler_free (r_handler r) ∧ builtin_free (r_resolve r) ∧ builtin_free (r_reject r).

Definition job_free (j : job) : Prop :=
  match j with
  | ReactionJob h res rej v =>
      handler_free h ∧ builtin_free res ∧ builtin_free rej ∧ val_free v
  | ThenableJob x f res rej =>
      val_free x ∧ fnval_free f ∧ builtin_free res ∧ builtin_free rej
  end.

Definition promise_free (pr : promise) : Prop :=
  val_free (value pr) ∧ Forall reaction_free (fulfillReactions pr) ∧
  Forall reaction_free (rejectReactions pr).

Definition slot_free (o : option val) : Prop :=
  match o with
  | Some v => val_free v
  | None => True
  end.

Definition all_free (env : all_env) : Prop :=
  resolveFn env ≠ t0 ∧ Forall slot_free (values env).

(** No object of the machine mentions the pair. *)
Definition state_free (s : machine) : Prop :=
  Forall (λ c, job_free (c_job c)) (jobs s) ∧
  Forall promise_free (promises s) ∧
  Forall all_free (alls s) ∧
  Forall slot_free (vars s).

(** User code that does not name the pair and passes on only what it is
    given. *)
Fixpoint prog_free (c : prog) : Prop :=
  match c with
  | Ret v => val_free v
  | Throw e => val_free e
  | Call b this args k =>
      builtin_free b ∧ val_free this ∧ Forall val_free args ∧
      ∀ r, completion_free r → prog_free (k r)
  | New executor k =>
      (∀ res rej, val_free res → val_free rej → prog_free (executor res rej)) ∧
      ∀ v, val_free v → prog_free (k v)
  | Resolve v k => val_free v ∧ ∀ r, val_free r → prog_free (k r)
  | Reject v k => val_free v ∧ ∀ r, val_free r → prog_free (k r)
  | All list k => Forall val_free list ∧ ∀ r, val_free r → prog_free (k r)
  | Race list k => Forall val_free list ∧ ∀ r, val_free r → prog_free (k r)
  | Try func k => prog_free func ∧ ∀ r, val_free r → prog_free (k r)
  | GetVar x k => ∀ v, val_free v → prog_free (k v)
  | SetVar x v k => val_free v ∧ prog_free k
  end.

Definition table_free (table : nat → val → list val → prog) : Prop :=
  ∀ fid this args, val_free this → Forall val_free args →
    prog_free (table fid this args).

(** [private p s]: in [s] the pending promise [p] has the live pair [t0] and
    no other pair, and nothing mentions [t0]. *)
Definition private (p : nat) (s : machine) : Prop :=
  state_free s ∧ live (resolvers s) t0 p ∧
  (∀ t r, resolvers s !! t = Some r → target r = p → t = t0) ∧
  ∃ pr, promises s !! p = Some pr ∧ state pr = None.

(** What the host does: run user code, run a queue entry. *)
Inductive host_step (table : nat → val → list val → prog)
    : machine → machine → Prop :=
| host_prog c s : prog_free c → host_step table s (snd (interp c s))
| host_entry s : host_step table s (snd (runQueueEntry table s)).

Variable p : nat.

Lemma val_free_closed : resolve_closed val_free.
Proof. done. Qed.

Lemma private_enqueue j s : job_free j → private p s → private p (enqueueJob j s).
Proof.
  intros Hj ((Hjs & Hps & Has & Hvs) & Hl & Hu & Hp).
  split_and!; heap_simpl; try done.
  split_and!; heap_simpl; try done.
  unfold enqueueJob.
  assert (Forall (λ c, job_free (c_job c)) (jobs s ++ [Cell j None])) as H1.
  { apply Forall_app. split; [done|]. by apply Forall_singleton. }
  destruct s as [cells [h|] [t|] ps rs als es vs]; simpl in *; try done.
  apply Forall_alter; [done|]. by intros [].
Qed.

Lemma private_enqueue_all js s :
  Forall job_free js → private p s → private p (enqueue_all js s).
Proof.
  unfold enqueue_all. revert s. induction js as [|j js IH]; intros s Hjs Hs; [done|].
  apply Forall_cons in Hjs as [Hj Hjs]. simpl. apply IH; [done|].
  by apply private_enqueue.
Qed.

Lemma private_outcome t s s' :
  t ≠ t0 → outcome val_free t s s' → private p s → private p s'.
Proof.
  intros Hne Ho Hs.
  assert (private p (neutralize t s)) as Hn.
  { destruct Hs as (Hf & Hl & Hu & Hp). split_and!; try done.
    - unfold live. simpl. by rewrite list_lookup_alter_ne.
    - simpl. intros t' r'. destruct (decide (t' = t)) as [->|Hne'].
      + rewrite list_lookup_alter_eq. destruct (resolvers s !! t) as [r|] eqn:Hr;
          simpl; [|done]. intros [= <-]. simpl. eauto.
      + rewrite list_lookup_alter_ne by done. apply Hu. }
  destruct Ho as [|q Hl|q pr b w Hl Hq Hst Hw|q pr x f Hl Hq Hst Hx Hprobe]; try done.
  - assert (q ≠ p) as Hqp.
    { intros ->. destruct Hs as (_ & _ & Hu & _). by destruct Hne; eapply (Hu t). }
    assert (promise_free pr) as Hprf.
    { destruct Hs as ((_ & Hps & _) & _). eapply Forall_lookup_1 in Hps; eauto. }
    apply private_enqueue_all.
    { destruct Hprf as (_ & Hfr & Hrr). apply Forall_fmap.
      assert (Forall reaction_free (if b then fulfillReactions pr else rejectReactions pr))
        as Hrs by by destruct b.
      eapply Forall_impl; [exact Hrs|]. intros r (? & ? & ?). done. }
    destruct Hn as ((Hjs & Hps & Has & Hvs) & Hl' & Hu & pr' & Hp & Hst').
    split_and!; try done.
    + split_and!; try done. simpl. apply Forall_insert; [done|]. done.
    + exists pr'. simpl. by rewrite list_lookup_insert_ne.
  - assert (q ≠ p) as Hqp.
    { intros ->. destruct Hs as (_ & _ & Hu & _). by destruct Hne; eapply (Hu t). }
    assert (length (resolvers s) ≠ t0) as Hlen.
    { destruct Hs as (_ & Hl0 & _). apply lookup_lt_Some in Hl0. lia. }
    apply private_enqueue.
    { assert (fnval_free f) as Hf.
      { destruct x as [| | | | | | | | |[g|]|]; simplify_eq/=; done. }
      split_and!; try done; split; intros [=]; done. }
    destruct Hn as (Hf & Hl' & Hu & Hp). split_and!; try done.
    + unfold live in *. simpl in *. by apply lookup_app_l_Some.
    + simpl. intros t' r' [H|[_ H]]%lookup_app_Some; [by apply (Hu t' r')|].
      apply list_lookup_singleton_Some in H as [_ <-]. simpl. done.
Qed.

Lemma private_resolve t v s :
  t ≠ t0 → val_free v → private p s → private p (t_resolve t v s).
Proof.
  intros Hne Hv. apply (private_outcome t); [done|].
  by apply t_resolve_outcome.
Qed.

Lemma private_reject t v s :
  t ≠ t0 → val_free v → private p s → private p (t_reject t v s).
Proof.
  intros Hne Hv. apply (private_outcome t); [done|].
  by apply t_reject_outcome.
Qed.

Lemma private_fresh s : private p s → length (resolvers s) ≠ t0.
Proof. intros (_ & Hl & _). apply lookup_lt_Some in Hl. lia. Qed.

Lemma private_alloc s : private p s → private p (alloc s).
Proof.
  intros ((Hjs & Hps & Has & Hvs) & Hl & Hu & pr & Hp & Hst). split_and!.
  - split_and!; try done. simpl. apply Forall_app. split; [done|].
    apply Forall_singleton. by split_and!.
  - unfold live in *. simpl. by apply lookup_app_l_Some.
  - simpl. intros t r [H|[_ H]]%lookup_app_Some; [by apply (Hu t r)|].
    apply list_lookup_singleton_Some in H as [_ <-]. simpl.
    apply lookup_lt_Some in Hp. lia.
  - exists pr. simpl. by rewrite (lookup_app_l_Some _ _ _ _ Hp).
Qed.

Lemma private_push q f r s :
  reaction_free f → reaction_free r → private p s →
  private p (push_reactions q f r s).
Proof.
  intros Hf Hr ((Hjs & Hps & Has & Hvs) & Hl & Hu & pr & Hp & Hst). split_and!; try done.
  - split_and!; try done. simpl. apply Forall_alter; [done|].
    intros pr' _ (? & ? & ?). split_and!; simpl; [done| |];
      (apply Forall_app; split; [done|]; by apply Forall_singleton).
  - simpl. destruct (decide (q = p)) as [->|Hne].
    + eexists. rewrite list_lookup_alter_eq, Hp. simpl. split; [done|]. done.
    + exists pr. by rewrite list_lookup_alter_ne.
Qed.

Lemma private_alls f s :
  (Forall all_free (alls s) → Forall all_free (f (alls s))) →
  private p s → private p (set_alls f s).
Proof.
  intros Hf ((? & ? & ? & ?) & ? & ? & ?). split_and!; try done.
  split_and!; try done. by apply Hf.
Qed.

Lemma private_elems f s : private p s → private p (set_elems f s).
Proof. by intros ((? & ? & ? & ?) & ? & ? & ?). Qed.

Lemma private_vars f s :
  (Forall slot_free (vars s) → Forall slot_free (f (vars s))) →
  private p s → private p (set_vars f s).
Proof.
  intros Hf ((? & ? & ? & ?) & ? & ? & ?). split_and!; try done.
  split_and!; try done. by apply Hf.
Qed.

Lemma private_dequeue s : private p s → private p (snd (dequeueJob s)).
Proof.
  unfold private, state_free.
  by destruct (dequeueJob_heap s) as (-> & -> & -> & -> & _ & ->).
Qed.

Lemma array_set_free i v a :
  val_free v → Forall slot_free a → Forall slot_free (array_set i v a).
Proof.
  intros Hv Ha. unfold array_set. case_decide.
  - by apply Forall_insert.
  - apply Forall_app. split; [done|]. apply Forall_app. split.
    + by apply Forall_replicate.
    + by apply Forall_singleton.
Qed.

Lemma handler_or_free d v : handler_free d → val_free v → handler_free (handler_or d v).
Proof. by destruct v. Qed.

Lemma builtin_free_fresh s :
  private p s →
  builtin_free (BResolve (length (resolvers s))) ∧
  builtin_free (BReject (length (resolvers s))).
Proof.
  intros Hs%private_fresh. by split; split; intros [=].
Qed.

Lemma builtin_free_ne t :
  t ≠ t0 → builtin_free (BResolve t) ∧ builtin_free (BReject t).
Proof. intros Hs. by split; split; intros [=]. Qed.

Lemma private_Promise_new executor s :
  (∀ t s0, t ≠ t0 → private p s0 →
     private p (snd (executor t s0)) ∧ completion_free (fst (executor t s0))) →
  private p s →
  private p (snd (Promise_new executor s)) ∧
  snd (fst (Promise_new executor s)) = length (resolvers s).
Proof.
  intros He Hs. rewrite Promise_new_unfold. simpl.
  destruct (He (length (resolvers s)) (alloc s)) as [H1 H2];
    [by apply private_fresh|by apply private_alloc|].
  destruct (executor _ _) as [[v|e] s1]; simpl in *; [done|].
  split; [|done]. apply private_reject; [by apply private_fresh|done|done].
Qed.

Lemma private_then this onF onR s :
  val_free onF → val_free onR → private p s →
  private p (snd (then_ this onF onR s)) ∧
  completion_free (fst (then_ this onF onR s)).
Proof.
  intros HF HR Hs. unfold then_. destruct this as [| | | | | |q| | | |]; try done.
  rewrite Promise_new_capture. fold (alloc s).
  pose proof (private_alloc s Hs) as Ha.
  destruct (builtin_free_fresh s Hs) as [Hres Hrej].
  simpl. split; [|done].
  change (_ ++ [MkPromise None VUndef [] []]) with (promises (alloc s)).
  destruct (promises (alloc s) !! q) as [pr|] eqn:Hq; [|done].
  assert (val_free (value pr)) as Hv.
  { destruct Ha as ((_ & Hps & _) & _).
    by destruct (Forall_lookup_1 _ _ _ _ Hps Hq). }
  destruct (state pr) as [[]|].
  - apply private_enqueue; [|done]. split_and!; try done.
    by apply handler_or_free.
  - apply private_enqueue; [|done]. split_and!; try done.
    by apply handler_or_free.
  - apply private_push; [| |done]; split_and!; try done;
      by apply handler_or_free.
Qed.

Lemma private_static_resolve v s :
  val_free v → private p s →
  private p (snd (resolve v s)) ∧ val_free (fst (resolve v s)).
Proof.
  intros Hv Hs. unfold resolve.
  assert (private p (snd (Promise_new (λ t s, (Normal VUndef, t_resolve t v s)) s))) as H.
  { apply private_Promise_new; [|done]. intros t s0 Ht H0. simpl. split; [|done].
    by apply private_resolve. }
  destruct (Promise_new _ s) as [[q t] s1]. simpl in H.
  by destruct v.
Qed.

Lemma private_static_reject v s :
  val_free v → private p s →
  private p (snd (reject v s)) ∧ val_free (fst (reject v s)).
Proof.
  intros Hv Hs. unfold reject.
  assert (private p (snd (Promise_new (λ t s, (Normal VUndef, t_reject t v s)) s))) as H.
  { apply private_Promise_new; [|done]. intros t s0 Ht H0. simpl. split; [|done].
    by apply private_reject. }
  by destruct (Promise_new _ s) as [[q t] s1].
Qed.

Lemma private_promiseAllElement e v s :
  val_free v → private p s → private p (promiseAllElement e v s).
Proof.
  intros Hv Hs. unfold promiseAllElement.
  destruct (elems s !! e) as [F|]; [|done].
  destruct (alreadyCalled F); [done|].
  set (s1 := set_elems _ s).
  assert (private p s1) as H1 by by apply private_elems.
  destruct (alls s1 !! e_all F) as [env|] eqn:Henv; [|done].
  assert (all_free env) as [Hne Hvals].
  { destruct H1 as ((_ & _ & Has & _) & _). by eapply Forall_lookup_1. }
  set (s2 := set_alls _ s1).
  assert (private p s2) as H2.
  { apply private_alls; [|done]. intros Has. apply Forall_insert; [done|].
    split; [done|]. simpl. by apply array_set_free. }
  case_decide; [|done]. by apply private_resolve.
Qed.

Lemma private_all_step a t index x s :
  t ≠ t0 → val_free x → private p s → private p (all_step a t index x s).
Proof.
  intros Ht Hx Hs. unfold all_step.
  destruct (private_static_resolve x s Hx Hs) as [H1 Hv].
  destruct (resolve x s) as [tv s1]. simpl in *.
  apply private_then; [done|by apply builtin_free_ne|].
  apply private_alls.
  { intros Has. apply Forall_alter; [done|]. by intros env _ [? ?]. }
  by apply private_elems.
Qed.

Lemma private_all_loop a t index list s :
  t ≠ t0 → Forall val_free list → private p s →
  private p (all_loop a t index list s).
Proof.
  intros Ht. revert index s. induction list as [|x list IH]; intros index s Hl Hs; [done|].
  apply Forall_cons in Hl as [Hx Hl]. simpl. apply IH; [done|].
  by apply private_all_step.
Qed.

Lemma private_all list s :
  Forall val_free list → private p s →
  private p (snd (all list s)) ∧ val_free (fst (all list s)).
Proof.
  intros Hl Hs. unfold all. rewrite Promise_new_capture. fold (alloc s).
  pose proof (private_fresh s Hs) as Ht.
  set (s2 := set_alls _ (alloc s)).
  assert (private p s2) as H2.
  { apply private_alls; [|by apply private_alloc].
    intros Has. apply Forall_app. split; [done|]. by apply Forall_singleton. }
  set (s3 := all_loop _ _ _ _ s2).
  assert (private p s3) as H3 by by apply private_all_loop.
  simpl. split; [|done].
  destruct (alls s3 !! _) as [env|] eqn:Henv; [|done].
  assert (all_free env) as [Hne Hvals].
  { destruct H3 as ((_ & _ & Has & _) & _). by eapply Forall_lookup_1. }
  set (s4 := set_alls _ s3).
  assert (private p s4) as H4.
  { apply private_alls; [|done]. intros Has. by apply Forall_insert. }
  case_decide; [|done]. by apply private_resolve.
Qed.

Lemma private_race_step t x s :
  t ≠ t0 → val_free x → private p s → private p (race_step t x s).
Proof.
  intros Ht Hx Hs. unfold race_step.
  destruct (private_static_resolve x s Hx Hs) as [H1 Hv].
  destruct (resolve x s) as [tv s1]. simpl in *.
  apply private_then; [by apply builtin_free_ne|by apply builtin_free_ne|done].
Qed.

Lemma private_race list s :
  Forall val_free list → private p s →
  private p (snd (race list s)) ∧ val_free (fst (race list s)).
Proof.
  intros Hl Hs. unfold race. rewrite Promise_new_capture. fold (alloc s).
  pose proof (private_fresh s Hs) as Ht. simpl. split; [|done].
  pose proof (private_alloc s Hs) as Ha. revert Ha.
  generalize (alloc s). induction list as [|x list IH]; intros s1 H1; [done|].
  apply Forall_cons in Hl as [Hx Hl]. simpl. apply IH; [done|].
  by apply private_race_step.
Qed.

Lemma arg_free i args : Forall val_free args → val_free (arg i args).
Proof.
  intros Ha. unfold arg. destruct (args !! i) as [v|] eqn:Hi; [|done].
  by eapply Forall_lookup_1.
Qed.

Lemma private_call_builtin b this args s :
  builtin_free b → val_free this → Forall val_free args → private p s →
  private p (snd (call_builtin b this args s)) ∧
  completion_free (fst (call_builtin b this args s)).
Proof.
  intros Hb Hthis Hargs Hs. unfold call_builtin. destruct b as [t|t|e|]; simpl.
  - split; [|done]. apply private_resolve; [|by apply arg_free|done].
    intros ->. by destruct Hb.
  - split; [|done]. apply private_reject; [|by apply arg_free|done].
    intros ->. by destruct Hb.
  - split; [|done]. apply private_promiseAllElement; [by apply arg_free|done].
  - apply private_then; [by apply arg_free|by apply arg_free|done].
Qed.

Lemma private_interp c s :
  prog_free c → private p s →
  private p (snd (interp c s)) ∧ completion_free (fst (interp c s)).
Proof.
  revert s. induction c as [v|e|b this args k IH|executor IHe k IHk|v k IH|v k IH
    |list k IH|list k IH|func IHf k IHk|x k IH|x v k IH]; intros s Hc Hs;
    cbn [interp]; cbn [prog_free] in Hc.
  - done.
  - done.
  - destruct Hc as (Hb & Hthis & Hargs & Hk).
    destruct (private_call_builtin b this args s Hb Hthis Hargs Hs) as [H1 H2].
    destruct (call_builtin b this args s) as [r s1]. by apply IH; [apply Hk|].
  - destruct Hc as (Hex & Hk).
    match goal with |- context [Promise_new ?ex s] =>
      destruct (private_Promise_new ex s) as [H1 H2] end; [|done|].
    { intros t s0 Ht H0. destruct (builtin_free_ne t Ht).
      by apply IHe; [apply Hex|]. }
    destruct (Promise_new _ s) as [[q t] s1]. by apply IHk; [apply Hk|].
  - destruct Hc as (Hv & Hk).
    destruct (private_static_resolve v s Hv Hs) as [H1 H2].
    destruct (resolve v s) as [r s1]. by apply IH; [apply Hk|].
  - destruct Hc as (Hv & Hk).
    destruct (private_static_reject v s Hv Hs) as [H1 H2].
    destruct (reject v s) as [r s1]. by apply IH; [apply Hk|].
  - destruct Hc as (Hl & Hk).
    destruct (private_all list s Hl Hs) as [H1 H2].
    destruct (all list s) as [r s1]. by apply IH; [apply Hk|].
  - destruct Hc as (Hl & Hk).
    destruct (private_race list s Hl Hs) as [H1 H2].
    destruct (race list s) as [r s1]. by apply IH; [apply Hk|].
  - destruct Hc as (Hf & Hk).
    match goal with |- context [Promise_new ?ex s] =>
      destruct (private_Promise_new ex s) as [H1 H2] end; [|done|].
    { intros t s0 Ht H0. destruct (IHf s0 Hf H0) as [H1 H2].
      destruct (interp func s0) as [[v|e] s1]; simpl in *; [|done].
      split; [|done]. by apply private_resolve. }
    destruct (Promise_new _ s) as [[q t] s1]. by apply IHk; [apply Hk|].
  - apply IH; [|done]. apply Hc.
    destruct Hs as ((_ & _ & _ & Hvs) & _).
    destruct (vars s !! x) as [[v|]|] eqn:Hx; simpl; try done.
    by apply (Forall_lookup_1 _ _ _ _ Hvs Hx).
  - destruct Hc as (Hv & Hk). apply IH; [done|].
    apply private_vars; [|done]. by apply array_set_free.
Qed.

Section PrivateRun.
Variable table : nat → val → list val → prog.
Hypothesis table_is_free : table_free table.

Lemma private_call f this args s :
  fnval_free f → val_free this → Forall val_free args → private p s →
  private p (snd (call table f this args s)) ∧
  completion_free (fst (call table f this args s)).
Proof.
  intros Hf Hthis Hargs Hs. destruct f as [fid|b]; simpl.
  - apply private_interp; [|done]. by apply table_is_free.
  - by apply private_call_builtin.
Qed.

Lemma private_run_job j s :
  job_free j → private p s → private p (run_job table j s).
Proof.
  intros Hj Hs. destruct j as [h res rej v|x f res rej]; simpl in *.
  - destruct Hj as (Hh & Hres & Hrej & Hv).
    assert (∀ r s1, completion_free r → private p s1 →
      private p match r with
                | Normal res0 => snd (call_builtin res VUndef [res0] s1)
                | Abrupt e => snd (call_builtin rej VUndef [e] s1)
                end) as Hfin.
    { intros [r|e] s1 Hr H1; apply private_call_builtin; try done;
        by apply Forall_singleton. }
    destruct h as [| |f]; simpl.
    + by apply (Hfin (Normal v)).
    + by apply (Hfin (Abrupt v)).
    + destruct (private_call f VUndef [v] s) as [H1 H2]; try done.
      { by apply Forall_singleton. }
      destruct (call table f VUndef [v] s) as [r s1]. by apply Hfin.
  - destruct Hj as (Hx & Hf & Hres & Hrej).
    destruct (private_call f x [VFun (FBuiltin res); VFun (FBuiltin rej)] s)
      as [H1 H2]; try done.
    { apply Forall_cons. split; [done|]. by apply Forall_singleton. }
    destruct (call table f x _ s) as [[r|e] s1]; simpl in *; [done|].
    apply private_call_builtin; try done. by apply Forall_singleton.
Qed.

Lemma private_runQueueEntry s :
  private p s → private p (snd (runQueueEntry table s)).
Proof.
  intros Hs. unfold runQueueEntry.
  pose proof (private_dequeue s Hs) as Hd.
  destruct (dequeueJob s) as [[i|] s1]; simpl in *; [|done].
  destruct (jobs s1 !! i) as [c|] eqn:Hi; simpl; [|done].
  apply private_run_job; [|done].
  destruct Hd as ((Hjs & _) & _). by apply (Forall_lookup_1 _ _ _ _ Hjs Hi).
Qed.

Lemma private_host_step s s' :
  host_step table s s' → private p s → private p s'.
Proof.
  intros [c s0 Hc|s0] Hs.
  - by apply private_interp.
  - by apply private_runQueueEntry.
Qed.

Lemma private_host_run s s' :
  rtc (host_step table) s s' → private p s → private p s'.
Proof. induction 1; eauto using private_host_step. Qed.

End PrivateRun.
End Private.

(** Nobody holds the pair of the promise returned by [race([])]. *)
Lemma private_race_nil s :
  wf s → state_free (length (resolvers s)) s →
  race [] s = (VPromise (length (promises s)), alloc s) ∧
  private (length (resolvers s)) (length (promises s)) (alloc s).
Proof.
  intros [_ (Hr & _)] (Hjs & Hps & Has & Hvs). split; [done|]. split_and!.
  - split_and!; try done. simpl. apply Forall_app. split; [done|].
    apply Forall_singleton. by split_and!.
  - apply lookup_snoc.
  - simpl. intros t r [H|[Hge H]]%lookup_app_Some.
    + intros Ht. apply Hr in H. lia.
    + apply list_lookup_singleton_Some in H as [H0 _]. intros _. lia.
  - eexists. split; [apply lookup_snoc|done].
Qed.

Lemma host_run_entries t0 table n s :
  rtc (host_step t0 table) s (entries table n s).
Proof.
  revert s. induction n as [|n IH]; intros s; simpl; [done|].
  eapply rtc_l; [apply host_entry|apply IH].
Qed.

(** C9.  The promise returned by [race([])] is pending and stays pending:
    whatever user code the host runs and however often it runs queue
    entries or drains the queue, as long as that code does not come by the
    promise's pair other than by being given it, which is to nobody. *)
Theorem race_empty_stays_pending (table : nat → val → list val → prog)
    (s : machine) :
  wf s → state_free (length (resolvers s)) s →
  table_free (length (resolvers s)) table →
  fst (race [] s) = VPromise (length (promises s)) ∧
  promises (snd (race [] s)) !! length (promises s)
    = Some (MkPromise None VUndef [] []) ∧
  (∀ s', rtc (host_step (length (resolvers s)) table) (snd (race [] s)) s' →
     ∃ pr, promises s' !! length (promises s) = Some pr ∧ state pr = None) ∧
  (∀ fuel s', runQueue table fuel (snd (race [] s)) = Some s' →
     ∃ pr, promises s' !! length (promises s) = Some pr ∧ state pr = None).
Proof.
  intros Hwf Hfree Htable.
  destruct (private_race_nil s Hwf Hfree) as [-> Hpriv]. simpl.
  assert (∀ s', rtc (host_step (length (resolvers s)) table) (alloc s) s' →
     ∃ pr, promises s' !! length (promises s) = Some pr ∧ state pr = None) as Hrun.
  { intros s' Hs'.
    by destruct (private_host_run _ _ table Htable _ _ Hs' Hpriv) as (_ & _ & _ & ?). }
  split_and!; [done|apply lookup_snoc|done|].
  intros fuel s' (n & _ & -> & _)%runQueue_Some.
  apply Hrun, host_run_entries.
Qed.

(** * Thenable assimilation, put together *)


(** The table of a chain of [N] plain thenables around [v]. *)
Definition chain_table (N base : nat) (v : val) : nat → val → list val → prog :=
  λ fid this args,
    match args with
    | [VFun (FBuiltin r); _] =>
        if decide (base ≤ fid < base + N)
        then Call r VUndef [next_layer N base v (fid - base)] (λ _, Ret VUndef)
        else Ret VUndef
    | _ => Ret VUndef
    end.




(** * Instances for the private pair *)

Lemma ex_table_free t0 : table_free t0 ex_table.
Proof.
  intros fid this args Hthis Hargs. unfold ex_table.
  destruct fid as [|[|[|fid]]]; simpl.
  - split_and!; try done; by repeat constructor.
  - destruct args as [|x args]; [done|]. by apply Forall_cons in Hargs as [? _].
  - destruct args as [|[| | | | | | | |[fid|b]| |] args]; try done.
    apply Forall_cons in Hargs as [Hb _]. simpl in Hb.
    split_and!; try done; by repeat constructor.
  - done.
Qed.

(** [p.then(f0); Promise.resolve(1).then(f0)] for the promise [p]. *)
Definition ex_observe (p : val) : prog :=
  Call BThen p [VFun (FUser 0); VUndef] (λ _,
    Resolve (VNum 1) (λ r,
      Call BThen r [VFun (FUser 0); VUndef] (λ _, Ret VUndef))).

Lemma race_empty_stays_pending_witness :
  state_free 0 initial ∧
  ∃ pr, promises (entries ex_table 3
          (snd (interp (ex_observe (VPromise 0)) (snd (race [] initial))))) !! 0
        = Some pr ∧ state pr = None.
Proof.
  assert (state_free 0 initial) as Hfree by (by split_and!; constructor).
  split; [exact Hfree|].
  destruct (race_empty_stays_pending ex_table initial wf_initial Hfree (ex_table_free 0))
    as (_ & _ & H & _).
  apply H. eapply rtc_l; [|apply host_run_entries].
  apply host_prog. unfold ex_observe. simpl.
  split_and!; try done; by repeat constructor.
Defined.

(** * [all] of promises that are fulfilled in any order *)

(** An input of [all]: a promise that is still pending, with its live pair
    [r] and the value [v] it is going to be fulfilled with, or a promise
    already fulfilled with [v]. *)
Inductive input : Type :=
| Pending (q r : nat) (v : val)
| Fulfilled (q : nat) (v : val).

Definition promise_of (x : input) : val :=
  match x with
  | Pending q _ _ => VPromise q
  | Fulfilled q _ => VPromise q
  end.

Definition value_of (x : input) : val :=
  match x with
  | Pending _ _ v => v
  | Fulfilled _ v => v
  end.

(** What happens between the call of [all] and the final drain: an input
    is fulfilled through its pair, or the host runs one queue entry. *)
Inductive action : Type :=
| Fulfil (i : nat)
| Entry.

Definition fulfils (sched : list action) : list nat :=
  omap (λ act, match act with Fulfil i => Some i | Entry => None end) sched.

Section AllOrder.
Variable table : nat → val → list val → prog.
Variable inputs : list input.

Definition perform (act : action) (s : machine) : machine :=
  match act with
  | Fulfil i =>
      match inputs !! i with
      | Some (Pending q r v) => t_resolve r v s
      | _ => s
      end
  | Entry => snd (runQueueEntry table s)
  end.

(** The call of [all] under study: its environment [a], the pair [t] and
    promise [p] of the aggregate, and the index [e0] of its first
    [promiseAllElement] function. *)
Variables (a t p e0 : nat).

(** [tds] lists, by input index, the pair of the promise derived by the
    [then] call of that input. *)
Definition td (tds : list nat) (i : nat) : nat := default 0 (tds !! i).
Definition vl (i : nat) : val := default VUndef (value_of <$> inputs !! i).

Definition elem_reaction (tds : list nat) (i : nat) : reaction :=
  Reaction (Handler (FBuiltin (BAllElement (e0 + i))))
           (BResolve (td tds i)) (BReject (td tds i)).

Definition reject_reaction (tds : list nat) (i : nat) : reaction :=
  Reaction (Handler (FBuiltin (BReject t)))
           (BResolve (td tds i)) (BReject (td tds i)).

Definition slot_job (tds : list nat) (i : nat) : job :=
  job_of_reaction (vl i) (elem_reaction tds i).

Definition fresh_promise : promise := MkPromise None VUndef [] [].

(** The state of the call: inputs [waiting] are registered and pending,
    inputs [todo] have their element job in the queue, in this order, and
    the other inputs below [length tds] have delivered their value. *)
Record all_inv (extra : nat) (tds waiting todo : list nat) (s : machine) : Prop := {
  inv_wf : wf s;
  inv_queue : queue_repr s (slot_job tds <$> todo);
  inv_nodup : NoDup (waiting ++ todo);
  inv_range : ∀ i, i ∈ waiting ++ todo → i < length tds;
  inv_tds : NoDup tds ∧ ∀ x, x ∈ tds → t < x < length (resolvers s);
  inv_alls : ∃ vals,
    alls s !! a = Some (AllEnv vals (Z.of_nat (extra + length (waiting ++ todo))) t) ∧
    length vals ≤ length tds ∧
    ∀ i, i < length tds → i ∉ waiting ++ todo → vals !! i = Some (Some (vl i));
  inv_elems :
    length (elems s) = e0 + length tds ∧
    ∀ i, i < length tds →
      elems s !! (e0 + i) = Some (ElemEnv a i (bool_decide (i ∉ waiting ++ todo)));
  inv_active : ∀ i, i ∈ waiting ++ todo →
    ∃ d, live (resolvers s) (td tds i) d ∧ promises s !! d = Some fresh_promise;
  inv_agg :
    if decide (0 < extra + length (waiting ++ todo))
    then live (resolvers s) t p ∧ promises s !! p = Some fresh_promise
    else promises s !! p = Some (MkPromise (Some true) (VArray a) [] []);
  inv_waiting : ∀ i, i ∈ waiting →
    ∃ q r v, inputs !! i = Some (Pending q r v) ∧ r < t ∧
      live (resolvers s) r q ∧
      promises s !! q = Some (MkPromise None VUndef [elem_reaction tds i]
                                                    [reject_reaction tds i]);
  inv_future : ∀ i x, length tds ≤ i → inputs !! i = Some x →
    match x with
    | Pending q r v =>
        r < t ∧ live (resolvers s) r q ∧ promises s !! q = Some fresh_promise
    | Fulfilled q v =>
        ∃ qr, promises s !! q = Some qr ∧ state qr = Some true ∧ value qr = v
    end
}.

(** What is asked of the inputs: a pending promise occurs once, and is
    going to be fulfilled with a value that is not a thenable. *)
Definition inputs_ok : Prop :=
  (∀ i j q r r' v v', inputs !! i = Some (Pending q r v) →
     inputs !! j = Some (Pending q r' v') → i = j) ∧
  (∀ i q r v, inputs !! i = Some (Pending q r v) → probe v = NotThenable).

Lemma array_set_length {A} i (v : A) l :
  length (array_set i v l) = length l `max` S i.
Proof.
  unfold array_set. case_decide.
  - rewrite length_insert. lia.
  - rewrite !length_app, length_replicate. simpl. lia.
Qed.

Lemma array_set_lookup_ne {A} i j (v : A) l x :
  i ≠ j → l !! j = Some x → array_set i v l !! j = Some x.
Proof.
  intros Hne Hj. unfold array_set. case_decide.
  - by rewrite list_lookup_insert_ne.
  - by apply lookup_app_l_Some.
Qed.

(** A call through pair [t'] leaves every other live pair, and the promise
    it belongs to, alone. *)
Lemma outcome_frame P t' s s' tj dj :
  wf s → outcome P t' s s' → live (resolvers s) tj dj → tj ≠ t' →
  live (resolvers s') tj dj ∧ promises s' !! dj = promises s !! dj.
Proof.
  intros [_ (_ & _ & Hu)] Ho Hl Hne.
  destruct Ho as [|q Hq|q pr b w Hq Hp Hst _|q pr x f Hq Hp Hst _ _].
  - done.
  - split; [|done]. unfold live. simpl. by rewrite list_lookup_alter_ne.
  - heap_simpl. split.
    + unfold live. by rewrite list_lookup_alter_ne.
    + rewrite list_lookup_insert_ne; [done|]. intros ->. destruct Hne. eauto.
  - heap_simpl. split; [|done]. unfold live in *. apply lookup_app_l_Some.
    by rewrite list_lookup_alter_ne.
Qed.

Lemma outcome_heap P t' s s' :
  outcome P t' s s' →
  alls s' = alls s ∧ elems s' = elems s ∧ vars s' = vars s ∧
  length (resolvers s) ≤ length (resolvers s').
Proof.
  intros [|q Hq|q pr b w Hq Hp Hst _|q pr x f Hq Hp Hst _ _]; heap_simpl;
    rewrite ?length_app, ?length_alter; split_and!; try done; lia.
Qed.

Lemma t_resolve_fresh t' d v s :
  live (resolvers s) t' d → promises s !! d = Some fresh_promise →
  probe v = NotThenable →
  t_resolve t' v s =
  set_promises (<[d := MkPromise (Some true) v [] []]>) (neutralize t' s).
Proof.
  intros Hl Hp Hv. by rewrite (t_resolve_plain t' d fresh_promise v s Hl Hp eq_refl Hv).
Qed.

Lemma NoDup_app_cons_inv {A} (w l : list A) i :
  NoDup (w ++ i :: l) → NoDup (w ++ l) ∧ i ∉ w ++ l.
Proof.
  intros H. assert (NoDup (i :: w ++ l)) as H'.
  { by rewrite Permutation_middle. }
  apply NoDup_cons in H' as [? ?]. done.
Qed.

Lemma td_lookup tds i : i < length tds → tds !! i = Some (td tds i).
Proof.
  intros Hi. unfold td. destruct (tds !! i) eqn:H; [done|].
  apply lookup_ge_None in H. lia.
Qed.

Lemma td_elem tds i : i < length tds → td tds i ∈ tds.
Proof. intros Hi. eapply list_elem_of_lookup_2. by apply td_lookup. Qed.

Lemma td_inj tds i j :
  NoDup tds → i < length tds → j < length tds → td tds i = td tds j → i = j.
Proof.
  intros Hnd Hi Hj Heq. eapply NoDup_lookup; [done|by apply td_lookup|].
  rewrite Heq. by apply td_lookup.
Qed.

Lemma td_app tds x i : i < length tds → td (tds ++ [x]) i = td tds i.
Proof. intros Hi. unfold td. by rewrite lookup_app_l. Qed.

Lemma td_snoc tds x : td (tds ++ [x]) (length tds) = x.
Proof. unfold td. by rewrite lookup_snoc. Qed.

(** Running the element job at the head of the queue. *)
Lemma all_inv_entry extra tds waiting i todo s :
  all_inv extra tds waiting (i :: todo) s →
  fst (runQueueEntry table s) = true ∧
  all_inv extra tds waiting todo (snd (runQueueEntry table s)).
Proof.
  intros [Hwf Hq Hnd Hrange [Htds Hbound] (vals & Halls & Hlen & Hvals)
            [Hel Hels] Hact Hagg Hwait Hfut].
  assert (i ∈ waiting ++ i :: todo) as Hi by (apply elem_of_app; right; left).
  pose proof (Hrange i Hi) as Hilt.
  destruct (NoDup_app_cons_inv _ _ _ Hnd) as [Hnd' Hni].
  assert (∀ j, j ∈ waiting ++ todo → j ∈ waiting ++ i :: todo ∧ j ≠ i) as Hsub.
  { intros j Hj. split; [|by intros ->].
    apply elem_of_app in Hj as [?|?]; apply elem_of_app; [by left|right; by right]. }
  assert (∀ j, j ≠ i → j ∉ waiting ++ todo → j ∉ waiting ++ i :: todo) as Hsup.
  { intros j Hj Hn [?|[->|?]%elem_of_cons]%elem_of_app; [|done|];
      apply Hn, elem_of_app; auto. }
  destruct (Hact i Hi) as (d & Hld & Hpd).
  assert (td tds i ≠ t) as Htdi by (pose proof (Hbound _ (td_elem tds i Hilt)); lia).
  rewrite decide_True in Hagg by (rewrite length_app; simpl; lia).
  destruct Hagg as [Hlt Hpt].
  (* the entry *)
  simpl in Hq.
  destruct (runQueueEntry_cons table _ _ _ Hq) as (He & _).
  destruct (dequeueJob_repr_cons _ _ _ Hq)
    as (_ & _ & _ & _ & Hjs1 & Hps1 & Hrs1 & Has1 & Hes1 & _ & Hq1).
  pose proof (wf_hsteps _ _ (steps_runQueueEntry table s) Hwf) as Hwf'.
  rewrite He in *. cbn [fst snd] in *. split; [done|].
  set (s1 := snd (dequeueJob s)) in *.
  assert (wf s1) as Hwf1.
  { apply (wf_hprim s); [apply hprim_dequeue|done]. }
  (* the element function *)
  set (s2 := set_alls (<[a := AllEnv (array_set i (vl i) vals)
                                     (Z.of_nat (extra + length (waiting ++ todo))) t]>)
               (set_elems (<[e0 + i := ElemEnv a i true]>) s1)).
  assert (wf s2) as Hwf2.
  { apply (wf_prim _ _ (prim_alls _ _)), (wf_prim _ _ (prim_elems _ _)), Hwf1. }
  assert (resolvers s2 = resolvers s) as Hrs2 by exact Hrs1.
  assert (promises s2 = promises s) as Hps2 by exact Hps1.
  set (s3 := if decide (extra + length (waiting ++ todo) = 0)
             then t_resolve t (VArray a) s2 else s2).
  assert (promiseAllElement (e0 + i) (vl i) s1 = s3) as Hs3.
  { unfold promiseAllElement. rewrite Hes1, (Hels i Hilt).
    rewrite bool_decide_eq_false_2 by (intros Hn; by apply Hn). simpl.
    rewrite Has1, Halls. simpl.
    replace (Z.of_nat (extra + length (waiting ++ i :: todo)) - 1)%Z
      with (Z.of_nat (extra + length (waiting ++ todo)))
      by (rewrite !length_app; simpl; lia).
    fold s2. unfold s3. by repeat case_decide; try lia. }
  assert (outcome (λ _, True) t s2 s3) as Ho3.
  { unfold s3. case_decide; [by apply t_resolve_outcome|constructor]. }
  assert (wf s3) as Hwf3 by by eapply wf_outcome.
  set (s4 := t_resolve (td tds i) VUndef s3).
  assert (run_job table (slot_job tds i) s1 = s4) as ->.
  { unfold slot_job, job_of_reaction, elem_reaction, run_job, call, call_builtin, arg.
    simpl. by rewrite Hs3. }
  assert (outcome (λ _, True) (td tds i) s3 s4) as Ho4 by by apply t_resolve_outcome.
  (* what the two calls leave alone *)
  assert (∀ tj dj, live (resolvers s) tj dj → tj ≠ t → tj ≠ td tds i →
            live (resolvers s4) tj dj ∧ promises s4 !! dj = promises s !! dj) as Hframe.
  { intros tj dj Hl H1 H2.
    assert (live (resolvers s2) tj dj) as Hl2 by by rewrite Hrs2.
    destruct (outcome_frame _ _ _ _ _ _ Hwf2 Ho3 Hl2 H1) as [Hl3 Hp3].
    destruct (outcome_frame _ _ _ _ _ _ Hwf3 Ho4 Hl3 H2) as [Hl4 Hp4].
    split; [done|]. by rewrite Hp4, Hp3, Hps2. }
  destruct (outcome_heap _ _ _ _ Ho3) as (Ha3 & He3 & _ & Hr3).
  destruct (outcome_heap _ _ _ _ Ho4) as (Ha4 & He4 & _ & Hr4).
  assert (evolves s s4) as Hev.
  { etrans; [|by eapply evolves_outcome].
    etrans; [|by eapply evolves_outcome].
    apply evolves_heap; simpl; done. }
  split.
  - by eapply wf_outcome.
  - (* the queue *)
    assert (queue_repr s3 (slot_job tds <$> todo)) as Hq3.
    { unfold s3. case_decide as Hz; [|exact Hq1].
      rewrite (t_resolve_fresh t p (VArray a) s2); [exact Hq1| | |done];
        by rewrite ?Hrs2, ?Hps2. }
    assert (live (resolvers s3) (td tds i) d ∧ promises s3 !! d = promises s2 !! d)
      as [Hld3 Hpd3].
    { apply (outcome_frame _ _ _ _ _ _ Hwf2 Ho3); [|done]. by rewrite Hrs2. }
    unfold s4. rewrite (t_resolve_fresh (td tds i) d VUndef s3); [exact Hq3|done| |done].
    by rewrite Hpd3, Hps2.
  - done.
  - intros j Hj. by apply Hrange, Hsub.
  - split; [done|]. intros x Hx. specialize (Hbound x Hx).
    rewrite Hrs2 in Hr3. lia.
  - exists (array_set i (vl i) vals). split_and!.
    + rewrite Ha4, Ha3. simpl. rewrite Has1.
      apply list_lookup_insert_eq. by eapply lookup_lt_Some.
    + rewrite array_set_length. lia.
    + intros j Hj Hnj. destruct (decide (j = i)) as [->|Hne].
      * apply array_set_lookup.
      * apply array_set_lookup_ne; [done|]. apply Hvals; [done|]. by apply Hsup.
  - split.
    + rewrite He4, He3. simpl. by rewrite length_insert, Hes1.
    + intros j Hj. rewrite He4, He3. simpl. rewrite Hes1.
      destruct (decide (j = i)) as [->|Hne].
      * rewrite list_lookup_insert_eq by (rewrite Hel; lia).
        by rewrite bool_decide_eq_true_2.
      * rewrite list_lookup_insert_ne by lia. rewrite (Hels j Hj).
        do 2 f_equal. apply bool_decide_ext. split.
        -- intros Hn Hin. by apply Hn, Hsub.
        -- intros Hn. by apply Hsup.
  - intros j Hj. destruct (Hsub j Hj) as [Hj' Hne].
    destruct (Hact j Hj') as (dj & Hlj & Hpj). exists dj.
    destruct (Hframe (td tds j) dj Hlj) as [? Hpj'].
    + pose proof (Hbound _ (td_elem tds j (Hrange j Hj'))). lia.
    + intros Heq. apply Hne. apply (td_inj tds j i Htds); [by apply Hrange|done|done].
    + split; [done|]. by rewrite Hpj'.
  - case_decide as Hc.
    + assert (s3 = s2) as Hs32 by (unfold s3; case_decide; [lia|done]).
      assert (live (resolvers s3) t p) as Hlt3 by by rewrite Hs32, Hrs2.
      destruct (outcome_frame _ _ _ _ _ _ Hwf3 Ho4 Hlt3) as [? Hp4]; [done|].
      split; [done|]. by rewrite Hp4, Hs32, Hps2.
    + assert (promises s3 !! p = Some (MkPromise (Some true) (VArray a) [] [])) as Hp3.
      { unfold s3. rewrite decide_True by lia.
        rewrite (t_resolve_fresh t p (VArray a) s2); rewrite ?Hrs2, ?Hps2; try done.
        simpl. rewrite Hps1.
        apply list_lookup_insert_eq. by eapply lookup_lt_Some. }
      by apply (proj1 (evolves_outcome _ _ _ _ Ho4) _ _ Hp3).
  - intros j Hj.
    destruct (Hwait j Hj) as (q & r & v & Hin & Hrt & Hlr & Hpq).
    exists q, r, v. split_and!; try done.
    + apply (Hframe r q Hlr); [lia|].
      pose proof (Hbound _ (td_elem tds i Hilt)). lia.
    + destruct (Hframe r q Hlr) as [_ ->]; [lia| |done].
      pose proof (Hbound _ (td_elem tds i Hilt)). lia.
  - intros j x Hj Hx. specialize (Hfut j x Hj Hx). destruct x as [q r v|q v].
    + destruct Hfut as (Hrt & Hlr & Hpq). split; [done|].
      destruct (Hframe r q Hlr) as [? ->]; [lia| |done].
      pose proof (Hbound _ (td_elem tds i Hilt)). lia.
    + destruct Hfut as (qr & Hpq & Hst & Hv). exists qr. split; [|done].
      apply (proj1 Hev _ _ Hpq). by rewrite Hst.
Qed.

Lemma move_to_queue_perm (w1 w2 todo : list nat) i :
  (w1 ++ w2) ++ todo ++ [i] ≡ₚ (w1 ++ i :: w2) ++ todo.
Proof.
  rewrite <- (Permutation_middle w1 w2 i). simpl.
  rewrite (Permutation_app_comm todo [i]). simpl.
  by rewrite <- Permutation_middle.
Qed.

Lemma vl_lookup i x : inputs !! i = Some x → vl i = value_of x.
Proof. intros H. unfold vl. by rewrite H. Qed.

(** Fulfilling a waiting input through its pair. *)
Lemma all_inv_fulfil extra tds w1 i w2 todo s :
  inputs_ok →
  all_inv extra tds (w1 ++ i :: w2) todo s →
  all_inv extra tds (w1 ++ w2) (todo ++ [i]) (perform (Fulfil i) s).
Proof.
  intros [Hdist Hplain]
    [Hwf Hq Hnd Hrange [Htds Hbound] (vals & Halls & Hlen & Hvals)
       [Hel Hels] Hact Hagg Hwait Hfut].
  pose proof (move_to_queue_perm w1 w2 todo i) as Hperm.
  assert (∀ j, j ∈ (w1 ++ w2) ++ todo ++ [i] ↔ j ∈ (w1 ++ i :: w2) ++ todo) as Hmem
    by (intros j; by rewrite Hperm).
  assert (length ((w1 ++ w2) ++ todo ++ [i]) = length ((w1 ++ i :: w2) ++ todo)) as Hcount
    by by rewrite Hperm.
  assert (i ∈ w1 ++ i :: w2) as Hi by (apply elem_of_app; right; left).
  assert (i < length tds) as Hilt by (apply Hrange, elem_of_app; by left).
  destruct (Hwait i Hi) as (q & r & v & Hin & Hrt & Hlr & Hpq).
  pose proof (Hplain _ _ _ _ Hin) as Hv.
  simpl. rewrite Hin.
  assert (outcome (λ _, True) r s (t_resolve r v s)) as Ho by by apply t_resolve_outcome.
  assert (t_resolve r v s =
          enqueueJob (slot_job tds i)
            (set_promises (<[q := MkPromise (Some true) v [] []]>) (neutralize r s)))
    as Heq.
  { rewrite (t_resolve_plain r q _ v s Hlr Hpq eq_refl Hv).
    unfold slot_job. by rewrite (vl_lookup _ _ Hin). }
  set (s' := t_resolve r v s) in *.
  destruct (outcome_heap _ _ _ _ Ho) as (Ha' & He' & _ & Hr').
  assert (length (resolvers s') = length (resolvers s)) as Hrlen.
  { rewrite Heq. heap_simpl. by rewrite length_alter. }
  assert (∀ tj dj, live (resolvers s) tj dj → tj ≠ r →
            live (resolvers s') tj dj ∧ promises s' !! dj = promises s !! dj) as Hframe.
  { intros tj dj Hl Hne. by apply (outcome_frame _ _ _ _ _ _ Hwf Ho). }
  assert (∀ j qj rj vj, j ≠ i → inputs !! j = Some (Pending qj rj vj) →
            live (resolvers s) rj qj → rj ≠ r) as Hother.
  { intros j qj rj vj Hne Hj Hlj ->. apply Hne.
    assert (qj = q) as -> by (unfold live in *; congruence).
    by eapply Hdist. }
  split.
  - by eapply wf_outcome.
  - rewrite Heq, fmap_app. apply enqueueJob_repr. exact Hq.
  - by rewrite Hperm.
  - intros j Hj. by apply Hrange, Hmem.
  - split; [done|]. intros x Hx. rewrite Hrlen. by apply Hbound.
  - exists vals. rewrite Hcount, Ha'. split_and!; [done|done|].
    intros j Hj Hn. apply Hvals; [done|]. intros Hin'. by apply Hn, Hmem.
  - rewrite He'. split; [done|]. intros j Hj. rewrite (Hels j Hj).
    do 2 f_equal. apply bool_decide_ext. by rewrite Hmem.
  - intros j Hj%Hmem. destruct (Hact j Hj) as (dj & Hlj & Hpj). exists dj.
    destruct (Hframe _ _ Hlj) as [? ->]; [|done].
    pose proof (Hbound _ (td_elem tds j (Hrange j Hj))). lia.
  - rewrite Hcount.
    assert (0 < extra + length ((w1 ++ i :: w2) ++ todo)) as Hpos.
    { rewrite !length_app. simpl. lia. }
    rewrite decide_True in Hagg |- * by done. destruct Hagg as [Hlt Hpt].
    destruct (Hframe _ _ Hlt) as [? ->]; [lia|done].
  - intros j Hj.
    assert (j ∈ w1 ++ i :: w2 ∧ j ≠ i) as [Hj' Hne].
    { destruct (NoDup_app_cons_inv _ _ _ (proj1 (proj1 (NoDup_app _ _) Hnd))) as [_ Hni].
      split; [|by intros ->].
      apply elem_of_app in Hj as [?|?]; apply elem_of_app; [by left|right; by right]. }
    destruct (Hwait j Hj') as (qj & rj & vj & Hinj & Hrtj & Hlrj & Hpqj).
    exists qj, rj, vj. split_and!; try done.
    + apply (Hframe _ _ Hlrj). by eapply Hother.
    + destruct (Hframe _ _ Hlrj) as [_ ->]; [by eapply Hother|done].
  - intros j x Hj Hx. specialize (Hfut j x Hj Hx). destruct x as [qj rj vj|qj vj].
    + destruct Hfut as (Hrtj & Hlrj & Hpqj). split; [done|].
      destruct (Hframe _ _ Hlrj) as [? ->]; [|done].
      eapply (Hother j); [lia|done|done].
    + destruct Hfut as (qr & Hpqj & Hst & Hvj). exists qr. split; [|done].
      apply (proj1 (evolves_outcome _ _ _ _ Ho) _ _ Hpqj). by rewrite Hst.
Qed.

(** ** Registering the inputs *)

Definition incr (env : all_env) : all_env :=
  AllEnv (values env) (remaining env + 1)%Z (resolveFn env).

Lemma all_step_unfold k q qr s :
  promises s !! q = Some qr →
  all_step a t k (VPromise q) s =
  let s_a := set_alls (alter incr a) (set_elems (λ es, es ++ [ElemEnv a k false]) s) in
  let td := length (resolvers s) in
  let e := length (elems s) in
  match state qr with
  | None =>
      push_reactions q
        (Reaction (Handler (FBuiltin (BAllElement e))) (BResolve td) (BReject td))
        (Reaction (Handler (FBuiltin (BReject t))) (BResolve td) (BReject td))
        (alloc s_a)
  | Some true =>
      enqueueJob (ReactionJob (Handler (FBuiltin (BAllElement e)))
                              (BResolve td) (BReject td) (value qr)) (alloc s_a)
  | Some false =>
      enqueueJob (ReactionJob (Handler (FBuiltin (BReject t)))
                              (BResolve td) (BReject td) (value qr)) (alloc s_a)
  end.
Proof.
  intros Hq. unfold all_step, resolve. cbn -[then_].
  by rewrite (then_unfold q qr _ _
    (set_alls (alter incr a) (set_elems (λ es, es ++ [ElemEnv a k false]) s)) Hq).
Qed.

Lemma slot_job_app tds x (l : list nat) :
  (∀ j, j ∈ l → j < length tds) →
  slot_job (tds ++ [x]) <$> l = slot_job tds <$> l.
Proof.
  intros Hl. apply list_fmap_ext. intros i j Hj.
  unfold slot_job, elem_reaction. rewrite td_app; [done|].
  apply Hl. by eapply list_elem_of_lookup_2.
Qed.

Lemma all_inv_grow tds waiting todo waiting' todo' s s' q :
  all_inv 1 tds waiting todo s →
  wf s' →
  resolvers s' = resolvers s ++ [Resolver (length (promises s)) false] →
  alls s' = alter incr a (alls s) →
  elems s' = elems s ++ [ElemEnv a (length tds) false] →
  (∀ j, j ≠ q → promises s' !! j = (promises s ++ [fresh_promise]) !! j) →
  q < length (promises s) →
  (∀ tj dj, live (resolvers s) tj dj → t ≤ tj → dj ≠ q) →
  waiting' ++ todo' ≡ₚ length tds :: (waiting ++ todo) →
  queue_repr s' (slot_job (tds ++ [length (resolvers s)]) <$> todo') →
  (∀ i, i ∈ waiting' →
     ∃ q r v, inputs !! i = Some (Pending q r v) ∧ r < t ∧
       live (resolvers s') r q ∧
       promises s' !! q = Some (MkPromise None VUndef
         [elem_reaction (tds ++ [length (resolvers s)]) i]
         [reject_reaction (tds ++ [length (resolvers s)]) i])) →
  (∀ i x, length (tds ++ [length (resolvers s)]) ≤ i → inputs !! i = Some x →
     match x with
     | Pending q r v =>
         r < t ∧ live (resolvers s') r q ∧ promises s' !! q = Some fresh_promise
     | Fulfilled q v =>
         ∃ qr, promises s' !! q = Some qr ∧ state qr = Some true ∧ value qr = v
     end) →
  all_inv 1 (tds ++ [length (resolvers s)]) waiting' todo' s'.
Proof.
  intros [Hwf Hq Hnd Hrange [Htds Hbound] (vals & Halls & Hlen & Hvals)
            [Hel Hels] Hact Hagg Hwait Hfut]
    Hwf' Hrs Has Hes Hps Hqlt Hqne Hperm Hq' Hwait' Hfut'.
  rewrite decide_True in Hagg by lia. destruct Hagg as [Hlt Hpt].
  set (k := length tds) in *.
  assert (∀ j, j ∈ waiting' ++ todo' ↔ j = k ∨ j ∈ waiting ++ todo) as Hmem.
  { intros j. rewrite Hperm. apply elem_of_cons. }
  assert (length (waiting' ++ todo') = S (length (waiting ++ todo))) as Hcount
    by by rewrite Hperm.
  assert (k ∉ waiting ++ todo) as Hk by (intros H%Hrange; lia).
  assert (∀ tj dj, live (resolvers s) tj dj → live (resolvers s') tj dj) as Hlive.
  { intros tj dj H. unfold live. rewrite Hrs. by apply lookup_app_l_Some. }
  assert (t < length (resolvers s)) as Htlt by by eapply lookup_lt_Some.
  split.
  - done.
  - done.
  - rewrite Hperm. by apply NoDup_cons.
  - intros j [->|Hj]%Hmem; rewrite length_app; simpl; [lia|].
    specialize (Hrange j Hj). lia.
  - split.
    + apply NoDup_app. split_and!; [done| |apply NoDup_singleton].
      intros x Hx Hx'%list_elem_of_singleton. specialize (Hbound _ Hx). lia.
    + intros x [Hx|Hx%list_elem_of_singleton]%elem_of_app;
        rewrite Hrs, length_app; simpl; [|lia].
      specialize (Hbound x Hx). lia.
  - exists vals. split_and!.
    + rewrite Has, list_lookup_alter_eq, Halls. simpl. unfold incr. simpl.
      do 3 f_equal. rewrite Hcount. lia.
    + rewrite length_app. simpl. lia.
    + intros j Hj Hn. rewrite length_app in Hj. simpl in Hj.
      assert (j ≠ k) by (intros ->; apply Hn, Hmem; by left).
      apply Hvals; [fold k; lia|]. intros H'. apply Hn, Hmem. by right.
  - split.
    + rewrite Hes, !length_app. simpl. fold k. lia.
    + intros j Hj. rewrite length_app in Hj. simpl in Hj. rewrite Hes.
      destruct (decide (j = k)) as [->|Hne].
      * rewrite <- Hel, lookup_snoc.
        rewrite bool_decide_eq_false_2; [done|]. intros Hn. apply Hn, Hmem. by left.
      * rewrite lookup_app_l by (rewrite Hel; fold k; lia).
        rewrite Hels by (fold k; lia). do 2 f_equal. apply bool_decide_ext.
        rewrite Hmem. split; [|tauto]. intros Hn [?|?]; done.
  - intros j [->|Hj]%Hmem.
    + exists (length (promises s)). unfold k. rewrite td_snoc. split.
      * unfold live. rewrite Hrs. apply lookup_snoc.
      * rewrite Hps by lia. apply lookup_snoc.
    + destruct (Hact j Hj) as (dj & Hlj & Hpj). exists dj.
      rewrite td_app by by apply Hrange. split; [by apply Hlive|].
      rewrite Hps.
      * by apply lookup_app_l_Some.
      * apply (Hqne _ _ Hlj). pose proof (Hbound _ (td_elem tds j (Hrange j Hj))). lia.
  - rewrite decide_True by lia. split; [by apply Hlive|].
    rewrite Hps; [by apply lookup_app_l_Some|]. by apply (Hqne _ _ Hlt).
  - done.
  - done.
Qed.

Definition is_pending (i : nat) : bool :=
  match inputs !! i with
  | Some (Pending _ _ _) => true
  | _ => false
  end.

(** The inputs below [k] that are pending, and those that are fulfilled. *)
Definition waiting_at (k : nat) : list nat :=
  filter (λ i, is_pending i = true) (seq 0 k).
Definition queued_at (k : nat) : list nat :=
  filter (λ i, is_pending i = false) (seq 0 k).

Lemma waiting_at_S k :
  waiting_at (S k) = waiting_at k ++ (if is_pending k then [k] else []).
Proof.
  unfold waiting_at. rewrite seq_S, filter_app. simpl. f_equal.
  rewrite filter_cons, filter_nil. by destruct (is_pending k).
Qed.

Lemma queued_at_S k :
  queued_at (S k) = queued_at k ++ (if is_pending k then [] else [k]).
Proof.
  unfold queued_at. rewrite seq_S, filter_app. simpl. f_equal.
  rewrite filter_cons, filter_nil. by destruct (is_pending k).
Qed.

Lemma all_inv_step tds s x :
  inputs_ok →
  all_inv 1 tds (waiting_at (length tds)) (queued_at (length tds)) s →
  inputs !! length tds = Some x →
  all_inv 1 (tds ++ [length (resolvers s)])
    (waiting_at (S (length tds))) (queued_at (S (length tds)))
    (all_step a t (length tds) (promise_of x) s).
Proof.
  intros [Hdist Hplain] Hinv Hx.
  pose proof Hinv as
    [Hwf Hq Hnd Hrange [Htds Hbound] (vals & Halls & Hlen & Hvals)
       [Hel Hels] Hact Hagg Hwait Hfut].
  set (k := length tds) in *.
  set (W := waiting_at k) in *. set (T := queued_at k) in *.
  rewrite decide_True in Hagg by lia. destruct Hagg as [Hlt Hpt].
  pose proof (wf_steps _ _ (steps_all_step a t k (promise_of x) s) Hwf) as Hwf'.
  pose proof (Hfut k x ltac:(done) Hx) as Hfx.
  rewrite waiting_at_S, queued_at_S. fold W T.
  assert (is_pending k = match x with Pending _ _ _ => true | _ => false end) as Hpk.
  { unfold is_pending. rewrite Hx. by destruct x. }
  rewrite Hpk.
  set (tds' := tds ++ [length (resolvers s)]).
  assert (∀ j, j < k → td tds' j = td tds j) as Htd by (intros; by apply td_app).
  assert (td tds' k = length (resolvers s)) as Htdk by apply td_snoc.
  destruct x as [q r v|q v].
  - (* a pending input: its reactions are registered *)
    destruct Hfx as (Hrt & Hlr & Hpq).
    rewrite app_nil_r. simpl in Hwf' |- *.
    rewrite (all_step_unfold k q _ s Hpq) in Hwf' |- *. simpl in Hwf' |- *.
    match goal with |- all_inv _ _ _ _ ?s0 => set (s' := s0) in * end.
    assert (∀ j, j ≠ q → promises s' !! j = (promises s ++ [fresh_promise]) !! j) as Hps.
    { intros j Hj. unfold s'. simpl. by rewrite list_lookup_alter_ne. }
    assert (promises s' !! q = Some (MkPromise None VUndef
              [elem_reaction tds' k] [reject_reaction tds' k])) as Hq'.
    { unfold s'. simpl. rewrite list_lookup_alter_eq, (lookup_app_l_Some _ _ _ _ Hpq).
      unfold elem_reaction, reject_reaction. by rewrite Htdk, Hel. }
    assert (∀ j qj rj vj, j ≠ k → inputs !! j = Some (Pending qj rj vj) → qj ≠ q) as Hother.
    { intros j qj rj vj Hne Hj ->. apply Hne. by eapply Hdist. }
    apply (all_inv_grow tds W T (W ++ [k]) T s s' q Hinv); try done.
    + by eapply lookup_lt_Some.
    + intros tj dj Hl Ht ->.
      destruct Hwf as [_ (_ & _ & Hu)]. specialize (Hu _ _ _ Hl Hlr). lia.
    + rewrite <- (assoc_L (++)). simpl. by rewrite <- Permutation_middle.
    + fold tds'. unfold tds'. rewrite slot_job_app.
      * exact Hq.
      * intros j Hj. apply Hrange, elem_of_app. by right.
    + intros j [Hj|Hj%list_elem_of_singleton]%elem_of_app.
      * destruct (Hwait j Hj) as (qj & rj & vj & Hinj & Hrtj & Hlrj & Hpqj).
        assert (j < k) as Hjk by (apply Hrange, elem_of_app; by left).
        exists qj, rj, vj. split_and!; try done.
        -- unfold live. simpl. by apply lookup_app_l_Some.
        -- rewrite Hps by (eapply Hother; [|done]; lia).
           rewrite (lookup_app_l_Some _ _ _ _ Hpqj).
           unfold elem_reaction, reject_reaction. fold tds'. by rewrite Htd.
      * subst j. exists q, r, v. split_and!; try done.
        unfold live. simpl. by apply lookup_app_l_Some.
    + intros j y Hj Hy. rewrite length_app in Hj. simpl in Hj. fold k in Hj.
      specialize (Hfut j y ltac:(fold k; lia) Hy). destruct y as [qj rj vj|qj vj].
      * destruct Hfut as (Hrtj & Hlrj & Hpqj). split_and!; try done.
        -- unfold live. simpl. by apply lookup_app_l_Some.
        -- rewrite Hps by (eapply Hother; [|done]; lia).
           by apply lookup_app_l_Some.
      * destruct Hfut as (qr & Hpqj & Hst & Hvj). exists qr. split; [|done].
        rewrite Hps; [by apply lookup_app_l_Some|].
        intros ->. rewrite Hpq in Hpqj. injection Hpqj as <-. done.
  - (* a fulfilled input: its element job is enqueued *)
    destruct Hfx as (qr & Hpq & Hst & Hv).
    rewrite app_nil_r. simpl in Hwf' |- *.
    rewrite (all_step_unfold k q _ s Hpq) in Hwf' |- *. rewrite Hst in Hwf' |- *.
    simpl in Hwf' |- *.
    match goal with |- all_inv _ _ _ _ ?s0 => set (s' := s0) in * end.
    assert (promises s' = promises s ++ [fresh_promise]) as Hps
      by (unfold s'; by heap_simpl).
    apply (all_inv_grow tds W T W (T ++ [k]) s s' q Hinv); try done.
    + unfold s'. by heap_simpl.
    + unfold s'. by heap_simpl.
    + unfold s'. by heap_simpl.
    + intros j _. by rewrite Hps.
    + by eapply lookup_lt_Some.
    + intros tj dj Hl Ht ->.
      destruct Hwf as [_ (_ & Hlp & _)]. destruct (Hlp _ _ Hl) as (pr' & Hp' & Hst').
      congruence.
    + by rewrite (assoc_L (++)), <- Permutation_cons_append.
    + fold tds'. rewrite fmap_app. unfold tds' at 1. rewrite slot_job_app.
      * unfold s'. simpl.
        replace (slot_job tds' k) with
          (ReactionJob (Handler (FBuiltin (BAllElement (length (elems s)))))
             (BResolve (length (resolvers s))) (BReject (length (resolvers s)))
             (value qr)).
        { by apply enqueueJob_repr. }
        unfold slot_job, job_of_reaction, elem_reaction. simpl.
        by rewrite Htdk, Hel, (vl_lookup _ _ Hx), Hv.
      * intros j Hj. apply Hrange, elem_of_app. by right.
    + intros j Hj.
      destruct (Hwait j Hj) as (qj & rj & vj & Hinj & Hrtj & Hlrj & Hpqj).
      assert (j < k) as Hjk by (apply Hrange, elem_of_app; by left).
      exists qj, rj, vj. split_and!; try done.
      * unfold live, s'. heap_simpl. by apply lookup_app_l_Some.
      * rewrite Hps, (lookup_app_l_Some _ _ _ _ Hpqj).
        unfold elem_reaction, reject_reaction. fold tds'. by rewrite Htd.
    + intros j y Hj Hy. rewrite length_app in Hj. simpl in Hj. fold k in Hj.
      specialize (Hfut j y ltac:(fold k; lia) Hy). destruct y as [qj rj vj|qj vj].
      * destruct Hfut as (Hrtj & Hlrj & Hpqj). split_and!; try done.
        -- unfold live, s'. heap_simpl. by apply lookup_app_l_Some.
        -- rewrite Hps. by apply lookup_app_l_Some.
      * destruct Hfut as (qr' & Hpqj & Hst' & Hvj). exists qr'. split; [|done].
        rewrite Hps. by apply lookup_app_l_Some.
Qed.

Lemma all_loop_inv rest :
  ∀ tds s, inputs_ok →
    all_inv 1 tds (waiting_at (length tds)) (queued_at (length tds)) s →
    length tds ≤ length inputs →
    drop (length tds) inputs = rest →
    ∃ tds', length tds' = length inputs ∧
      all_inv 1 tds' (waiting_at (length inputs)) (queued_at (length inputs))
        (all_loop a t (length tds) (promise_of <$> rest) s).
Proof.
  induction rest as [|x rest IH]; intros tds s Hok Hinv Hle Hdrop.
  - exists tds. simpl.
    assert (length tds = length inputs) as Heq.
    { apply drop_nil_inv in Hdrop. lia. }
    by rewrite <- Heq.
  - assert (inputs !! length tds = Some x) as Hx.
    { rewrite <- (Nat.add_0_r (length tds)), <- lookup_drop, Hdrop. done. }
    assert (drop (length (tds ++ [length (resolvers s)])) inputs = rest) as Hdrop'.
    { rewrite length_app. simpl.
      rewrite <- (drop_drop inputs 1 (length tds)), Hdrop. done. }
    pose proof (all_inv_step tds s x Hok Hinv Hx) as Hstep.
    apply lookup_lt_Some in Hx.
    destruct (IH (tds ++ [length (resolvers s)])
                (all_step a t (length tds) (promise_of x) s) Hok)
      as (tds' & Hlen & Hinv').
    + rewrite length_app, Nat.add_1_r. exact Hstep.
    + rewrite length_app. simpl. lia.
    + exact Hdrop'.
    + exists tds'. split; [done|]. simpl.
      rewrite length_app, Nat.add_1_r in Hinv'. exact Hinv'.
Qed.

(** ** Before and after the loop *)

(** What is asked of the machine in which [all] is called. *)
Definition inputs_valid (s : machine) : Prop :=
  ∀ i x, inputs !! i = Some x →
    match x with
    | Pending q r v => live (resolvers s) r q ∧ promises s !! q = Some fresh_promise
    | Fulfilled q v =>
        ∃ qr, promises s !! q = Some qr ∧ state qr = Some true ∧ value qr = v
    end.

Definition all_started (s : machine) : machine :=
  set_alls (λ l, l ++ [AllEnv [] 1 t]) (alloc s).

(** The end of [all]: the counter is decremented once more. *)
Definition all_finish (s : machine) : machine :=
  match alls s !! a with
  | Some env =>
      let rem := (remaining env - 1)%Z in
      let s := set_alls (<[a := AllEnv (values env) rem (resolveFn env)]>) s in
      if decide (rem = 0%Z) then t_resolve t (VArray a) s else s
  | None => s
  end.

Lemma all_inv_init s :
  wf s → queue_repr s [] → inputs_valid s →
  p = length (promises s) → t = length (resolvers s) →
  a = length (alls s) → e0 = length (elems s) →
  all_inv 1 [] [] [] (all_started s).
Proof.
  intros Hwf Hq Hval Hp Ht Ha He. unfold all_started.
  split; simpl; rewrite ?Hp, ?Ht, ?Ha, ?He.
  - apply (wf_prim _ _ (prim_alls _ _)), wf_alloc, Hwf.
  - exact Hq.
  - constructor.
  - by intros i ?%elem_of_nil.
  - split; [constructor|]. by intros x ?%elem_of_nil.
  - exists []. rewrite lookup_snoc. split_and!; [done|done|]. intros; lia.
  - split; [lia|]. intros; lia.
  - by intros i ?%elem_of_nil.
  - split; apply lookup_snoc.
  - by intros i ?%elem_of_nil.
  - intros i x _ Hx. specialize (Hval i x Hx). destruct x as [q r v|q v].
    + destruct Hval as [Hl Hpq]. split_and!.
      * by eapply lookup_lt_Some.
      * by apply lookup_app_l_Some.
      * by apply lookup_app_l_Some.
    + destruct Hval as (qr & Hpq & ?). exists qr. split; [|done].
      by apply lookup_app_l_Some.
Qed.

Lemma all_inv_finish tds W T s :
  length tds = length inputs →
  all_inv 1 tds W T s → all_inv 0 tds W T (all_finish s).
Proof.
  intros Hn [Hwf Hq Hnd Hrange [Htds Hbound] (vals & Halls & Hlen & Hvals)
               [Hel Hels] Hact Hagg Hwait Hfut].
  rewrite decide_True in Hagg by lia. destruct Hagg as [Hlt Hpt].
  unfold all_finish. rewrite Halls. simpl.
  replace (Z.of_nat (S (length (W ++ T))) - 1)%Z with (Z.of_nat (length (W ++ T)))
    by lia.
  set (s1 := set_alls _ s).
  assert (all_inv 0 tds W T s1 ∨ W ++ T = []) as Hs1.
  { destruct (decide (W ++ T = [])) as [|Hne]; [by right|left].
    split; try done.
    - exists vals. split_and!; [|done|done]. simpl.
      apply list_lookup_insert_eq. by eapply lookup_lt_Some.
    - simpl. rewrite decide_True; [done|]. destruct (W ++ T); simpl; [done|lia]. }
  case_decide as Hz.
  - assert (W ++ T = []) as Hnil by (destruct (W ++ T); simpl in *; [done|lia]).
    apply app_eq_nil in Hnil as [-> ->].
    rewrite (t_resolve_fresh t p (VArray a) s1); [|done|done|done].
    split; simpl; try done.
    + assert (wf s1) as Hwf1 by apply (wf_prim _ _ (prim_alls _ _)), Hwf.
      apply (wf_prim _ _ (prim_resolve t (VArray a) s1)) in Hwf1.
      by rewrite (t_resolve_fresh t p (VArray a) s1) in Hwf1.
    + split; [done|]. intros x Hx. rewrite length_alter. by apply Hbound.
    + exists vals. split_and!; [|done|done].
      apply list_lookup_insert_eq. by eapply lookup_lt_Some.
    + by intros i ?%elem_of_nil.
    + apply list_lookup_insert_eq. by eapply lookup_lt_Some.
    + by intros i ?%elem_of_nil.
    + intros i x Hi Hx. apply lookup_lt_Some in Hx. lia.
  - destruct Hs1 as [H1|Hnil]; [done|]. rewrite Hnil in Hz. done.
Qed.

Lemma all_unfold s :
  p = length (promises s) → t = length (resolvers s) → a = length (alls s) →
  all (promise_of <$> inputs) s =
  (VPromise p,
   all_finish (all_loop a t 0 (promise_of <$> inputs) (all_started s))).
Proof.
  intros Hp Ht Ha. unfold all. rewrite Promise_new_capture. fold (alloc s).
  unfold all_finish, all_started. simpl. by rewrite <- Hp, <- Ht, <- Ha.
Qed.

(** ** After the call *)

Lemma all_inv_schedule tds sched :
  inputs_ok → ∀ W T s, all_inv 0 tds W T s → fulfils sched ≡ₚ W →
  ∃ T', all_inv 0 tds [] T' (foldl (λ s act, perform act s) s sched).
Proof.
  intros Hok. induction sched as [|[i|] sched IH]; intros W T s Hinv Hperm.
  - apply Permutation_nil in Hperm as ->. by exists T.
  - simpl in Hperm.
    assert (i ∈ W) as Hi by (rewrite <- Hperm; left).
    apply list_elem_of_split in Hi as (w1 & w2 & ->).
    apply Permutation_cons_app_inv in Hperm.
    cbn [foldl]. eapply IH; [|exact Hperm].
    by apply all_inv_fulfil.
  - cbn [foldl]. simpl in Hperm. destruct T as [|j T].
    + simpl. rewrite (runQueueEntry_nil table s (inv_queue _ _ _ _ _ Hinv)). simpl.
      by eapply IH.
    + eapply IH; [|exact Hperm]. apply (all_inv_entry _ _ _ _ _ _ Hinv).
Qed.

Lemma all_inv_drain tds T :
  ∀ s, all_inv 0 tds [] T s →
  ∃ s', runQueue table (S (length T)) s = Some s' ∧ all_inv 0 tds [] [] s'.
Proof.
  induction T as [|i T IH]; intros s Hinv.
  - exists s. simpl. by rewrite (runQueueEntry_nil table s (inv_queue _ _ _ _ _ Hinv)).
  - destruct (all_inv_entry _ _ _ _ _ _ Hinv) as [Ht Hinv'].
    destruct (IH _ Hinv') as (s' & Hrun & Hfin).
    exists s'. split; [|done]. cbn [runQueue length].
    destruct (runQueueEntry table s) as [b s1]. simpl in *. by subst b.
Qed.

Lemma runQueue_mono fuel fuel' s s' :
  runQueue table fuel s = Some s' → fuel ≤ fuel' → runQueue table fuel' s = Some s'.
Proof.
  revert fuel' s. induction fuel as [|fuel IH]; intros fuel' s; [done|].
  intros H Hle. destruct fuel' as [|fuel']; [lia|]. simpl in *.
  destruct (runQueueEntry table s) as [[] s1]; [|done].
  apply IH; [done|lia].
Qed.

Lemma all_inv_result tds s :
  length tds = length inputs → all_inv 0 tds [] [] s →
  promises s !! p = Some (MkPromise (Some true) (VArray a) [] []) ∧
  values <$> alls s !! a = Some (Some <$> (value_of <$> inputs)).
Proof.
  intros Hn [_ _ _ _ _ (vals & Halls & Hlen & Hvals) _ _ Hagg _ _].
  split; [exact Hagg|]. rewrite Halls. simpl. f_equal.
  apply list_eq. intros i. rewrite !list_lookup_fmap.
  destruct (inputs !! i) as [x|] eqn:Hx; simpl.
  - rewrite Hvals.
    + by rewrite (vl_lookup _ _ Hx).
    + apply lookup_lt_Some in Hx. lia.
    + by intros ?%elem_of_nil.
  - apply lookup_ge_None in Hx. apply lookup_ge_None. lia.
Qed.

End AllOrder.

Lemma NoDup_bounded_length (l : list nat) n :
  NoDup l → (∀ i, i ∈ l → i < n) → length l ≤ n.
Proof.
  intros Hnd Hl.
  assert (l ⊆+ seq 0 n) as H%submseteq_length.
  { apply NoDup_submseteq; [done|]. intros i Hi. apply elem_of_seq.
    specialize (Hl i Hi). lia. }
  by rewrite length_seq in H.
Qed.

(** X23.  [all] is called, with an empty queue, on distinct promises each of
    which is either already fulfilled or still pending without reactions;
    afterwards the pending ones are fulfilled through their pairs with
    values that are not thenables, in any order and with the host running
    queue entries in between as it likes; then the queue is drained.  The
    drain returns after at most one entry for each input, and the aggregate
    promise is then fulfilled with the [values] array of the call, which
    holds the inputs' values in input order. *)
Theorem all_fulfills_after_schedule (table : nat → val → list val → prog)
    (inputs : list input) (sched : list action) (s : machine) :
  wf s → queue_repr s [] → inputs_ok inputs → inputs_valid inputs s →
  fulfils sched ≡ₚ waiting_at inputs (length inputs) →
  let p := length (promises s) in
  let a := length (alls s) in
  let s1 := snd (all (promise_of <$> inputs) s) in
  let s2 := foldl (λ s act, perform table inputs act s) s1 sched in
  fst (all (promise_of <$> inputs) s) = VPromise p ∧
  ∃ s3, runQueue table (S (length inputs)) s2 = Some s3 ∧
    promises s3 !! p = Some (MkPromise (Some true) (VArray a) [] []) ∧
    values <$> alls s3 !! a = Some (Some <$> (value_of <$> inputs)).
Proof.
  intros Hwf Hq Hok Hval Hsched p a.
  set (t := length (resolvers s)). set (e0 := length (elems s)).
  rewrite (all_unfold inputs a t p s eq_refl eq_refl eq_refl). cbn [fst snd].
  split; [done|].
  pose proof (all_inv_init inputs a t p e0 s Hwf Hq Hval eq_refl eq_refl eq_refl eq_refl)
    as Hinit.
  destruct (all_loop_inv table inputs a t p e0 inputs [] (all_started t s) Hok Hinit)
    as (tds & Hlen & Hloop); [simpl; lia|done|].
  apply (all_inv_finish inputs a t p e0 tds _ _ _ Hlen) in Hloop.
  destruct (all_inv_schedule table inputs a t p e0 tds sched Hok _ _ _ Hloop Hsched)
    as (T' & Hsch).
  destruct (all_inv_drain table inputs a t p e0 tds T' _ Hsch) as (s3 & Hrun & Hfin).
  exists s3. split.
  - apply (runQueue_mono table (S (length T')) _ _ _ Hrun).
    assert (length T' ≤ length tds); [|lia].
    apply NoDup_bounded_length.
    + apply (inv_nodup _ _ _ _ _ _ _ _ _ _ Hsch).
    + intros i Hi. by apply (inv_range _ _ _ _ _ _ _ _ _ _ Hsch).
  - by apply (all_inv_result inputs a t p e0 tds s3 Hlen).
Qed.

(** * Instances for [all] *)

(** Promise 0 is [Promise.resolve(1)]; promises 1 and 2 are pending, with
    pairs 1 and 2. *)
Definition ex_three : machine := alloc (alloc ex_fulfilled).

(** [all([p2, p0, p1])], where [p2] and [p1] are fulfilled afterwards,
    [p1] first. *)
Definition ex_inputs : list input :=
  [Pending 2 2 (VStr "c"); Fulfilled 0 (VNum 1); Pending 1 1 (VStr "b")].

Definition ex_sched : list action := [Fulfil 2; Entry; Fulfil 0].

Lemma ex_inputs_ok : inputs_ok ex_inputs.
Proof.
  split.
  - intros [|[|[|i]]] [|[|[|j]]] q r r' v v' Hi Hj; simplify_eq/=; done.
  - intros [|[|[|i]]] q r v Hi; simplify_eq/=; done.
Qed.

Lemma ex_inputs_valid : inputs_valid ex_inputs ex_three.
Proof.
  intros [|[|[|i]]] x Hx; simplify_eq/=; try done.
  by eexists.
Qed.

Lemma ex_three_wf : wf ex_three.
Proof.
  apply wf_alloc, wf_alloc. apply (wf_steps initial); [|apply wf_initial].
  apply steps_resolve.
Qed.

Lemma all_fulfills_after_schedule_witness :
  fulfils ex_sched ≡ₚ waiting_at ex_inputs (length ex_inputs) ∧
  ∃ s3,
    runQueue no_table 4
      (foldl (λ s act, perform no_table ex_inputs act s)
         (snd (all (promise_of <$> ex_inputs) ex_three)) ex_sched) = Some s3 ∧
    promises s3 !! 3 = Some (MkPromise (Some true) (VArray 0) [] []) ∧
    values <$> alls s3 !! 0 = Some [Some (VStr "c"); Some (VNum 1); Some (VStr "b")].
Proof.
  assert (fulfils ex_sched ≡ₚ waiting_at ex_inputs (length ex_inputs)) as Hperm
    by apply perm_swap.
  split; [exact Hperm|].
  apply (all_fulfills_after_schedule no_table ex_inputs ex_sched ex_three
           ex_three_wf eq_refl ex_inputs_ok ex_inputs_valid Hperm).
Defined.

(** [all([Promise.resolve(1), Promise.resolve(2), Promise.resolve(3)])],
    computed. *)
Example all_of_resolved_1_2_3 :
  let s0 := snd (resolve (VNum 3) (snd (resolve (VNum 2) (snd (resolve (VNum 1) initial))))) in
  let s1 := snd (all [VPromise 0; VPromise 1; VPromise 2] s0) in
  promises s1 !! 3 = Some (MkPromise None VUndef [] []) ∧
  ∃ s2, runQueue no_table 4 s1 = Some s2 ∧
    promises s2 !! 3 = Some (MkPromise (Some true) (VArray 0) [] []) ∧
    values <$> alls s2 !! 0 = Some [Some (VNum 1); Some (VNum 2); Some (VNum 3)].
Proof.
  split; [reflexivity|]. eexists. split; [vm_compute; reflexivity|]. split; reflexivity.
Qed.

(** * Further properties of the polyfill *)

(** ** Machines the polyfill can be in *)

(** The machines that arise from the polyfill's initial state when the
    host runs user programs and queue entries, with the functions of
    [table] as the user's functions. *)
Inductive reachable (table : nat → val → list val → prog) : machine → Prop :=
| reach_initial : reachable table initial
| reach_prog c s : reachable table s → reachable table (snd (interp c s))
| reach_entry s : reachable table s → reachable table (snd (runQueueEntry table s)).

Lemma reachable_hsteps table s : reachable table s → hsteps initial s.
Proof.
  induction 1 as [|c s _ IH|s _ IH]; [done| |].
  - etrans; [exact IH|]. apply steps_hsteps, steps_interp.
  - etrans; [exact IH|]. apply steps_runQueueEntry.
Qed.

Lemma reachable_wf table s : reachable table s → wf s.
Proof. intros H%reachable_hsteps. by apply (wf_hsteps initial), wf_initial. Qed.

(** ** The tail pointer *)

(** [queueTail] is reset to [null] whenever the queue runs empty. *)
Definition tail_ok (s : machine) : Prop :=
  queueHead s = None → queueTail s = None.

Lemma enqueueJob_head j s : queueHead (enqueueJob j s) ≠ None.
Proof.
  unfold enqueueJob. cbn.
  destruct (queueHead s) eqn:Hh; [destruct (queueTail s)|]; simpl; by rewrite ?Hh.
Qed.

Lemma tail_ok_enqueue j s : tail_ok (enqueueJob j s).
Proof. intros H. by apply enqueueJob_head in H. Qed.

Lemma tail_ok_enqueue_all js s : tail_ok s → tail_ok (enqueue_all js s).
Proof.
  revert s. induction js as [|j js IH]; intros s Hs; [done|].
  apply IH, tail_ok_enqueue.
Qed.

Lemma tail_ok_outcome P t s s' : outcome P t s s' → tail_ok s → tail_ok s'.
Proof.
  intros [|p Hl|p pr b w Hl Hp Hst _|p pr x f Hl Hp Hst _ _] Hs; try done.
  - by apply tail_ok_enqueue_all.
  - apply tail_ok_enqueue.
Qed.

Lemma tail_ok_hprim s s' : hprim s s' → tail_ok s → tail_ok s'.
Proof.
  intros [s1 s2 Hp|s1] Hs.
  - destruct Hp as [j s0|t v s0|t v s0|s0|q pr f r s0 Hpq Hst|f s0|f s0|f s0]; try done.
    + apply tail_ok_enqueue.
    + by eapply tail_ok_outcome; [apply (t_resolve_outcome (λ _, True))|].
    + by eapply tail_ok_outcome; [apply (t_reject_outcome (λ _, True))|].
  - unfold dequeueJob. destruct (queueHead s1) as [ret|] eqn:Hh; [|done].
    simpl. by destruct (match jobs s1 !! ret with Some c => next c | None => None end).
Qed.

Lemma tail_ok_hsteps s s' : hsteps s s' → tail_ok s → tail_ok s'.
Proof. induction 1; eauto using tail_ok_hprim. Qed.

(** X1.  In every machine the polyfill can be in, the job queue is a
    well-formed linked list: following [next] from [queueHead] visits the
    waiting jobs and ends at [queueTail], and [queueHead] and [queueTail]
    are [null] together, exactly when no job is waiting. *)
Theorem queue_well_formed (table : nat → val → list val → prog) (s : machine) :
  reachable table s →
  ∃ l, queue_repr s l ∧
    (queueHead s = None ↔ l = []) ∧ (queueTail s = None ↔ l = []).
Proof.
  intros Hr. pose proof (reachable_hsteps _ _ Hr) as Hs.
  destruct (reachable_wf _ _ Hr) as [[l Hq] _]. exists l. split; [done|].
  pose proof (queue_repr_nil_iff _ _ Hq) as Hnil. split; [done|]. split.
  - intros Ht. destruct l as [|j l]; [done|].
    assert (j :: l ≠ []) as Hne by done.
    destruct (lseg_tail_is_Some _ _ _ _ Hne Hq) as (i & Hi & _).
    congruence.
  - intros Hl. apply (tail_ok_hsteps _ _ Hs); [done|]. by apply Hnil.
Qed.

(** X2.  In every machine the polyfill can be in, every resolution pair
    belongs to an allocated promise, a live pair belongs to a promise that
    is still pending, and a promise has at most one live pair: all but the
    most recent pair created for it are neutralized. *)
Theorem pairs_well_formed (table : nat → val → list val → prog) (s : machine) :
  reachable table s →
  (∀ t r, resolvers s !! t = Some r → target r < length (promises s)) ∧
  (∀ t p, live (resolvers s) t p →
     ∃ pr, promises s !! p = Some pr ∧ state pr = None) ∧
  (∀ t t' p, live (resolvers s) t p → live (resolvers s) t' p → t = t').
Proof.
  intros Hr. pose proof (reachable_hsteps _ _ Hr) as Hsteps.
  pose proof (wf_hsteps _ _ Hsteps wf_initial) as [_ Hheap].
  exact Hheap.
Qed.

(** ** A pair acts once *)

(** X3.  A resolution pair acts at most once: after one call of either of
    its functions, with whatever argument and whatever that call did (also
    when it only queued the job for a thenable and left the promise
    pending), every further call of either function changes nothing. *)
Theorem pair_acts_once (t : nat) (v w : val) (s : machine) :
  t_resolve t w (t_resolve t v s) = t_resolve t v s ∧
  t_reject t w (t_resolve t v s) = t_resolve t v s ∧
  t_resolve t w (t_reject t v s) = t_reject t v s ∧
  t_reject t w (t_reject t v s) = t_reject t v s.
Proof.
  assert (∀ r, resolvers (t_resolve t v s) !! t = Some r → alreadyResolved r = true) as H1.
  { intros r. destruct (resolvers s !! t) as [r0|] eqn:Hr.
    - rewrite (t_resolve_latch t v s r0 Hr). by intros [= <-].
    - rewrite t_resolve_unallocated by done. by rewrite Hr. }
  assert (∀ r, resolvers (t_reject t v s) !! t = Some r → alreadyResolved r = true) as H2.
  { intros r. destruct (resolvers s !! t) as [r0|] eqn:Hr.
    - rewrite (t_reject_latch t v s r0 Hr). by intros [= <-].
    - rewrite t_reject_unallocated by done. by rewrite Hr. }
  destruct (latched_noop t _ H1 w), (latched_noop t _ H2 w). done.
Qed.

(** ** An element function of [all] counts once *)

Lemma t_resolve_elems t v s : elems (t_resolve t v s) = elems s.
Proof.
  by destruct (outcome_heap (λ _, True) t s (t_resolve t v s)
                 (t_resolve_outcome _ t v s resolve_closed_True I)) as (_ & -> & _).
Qed.

Lemma promiseAllElement_called e v s F :
  elems s !! e = Some F →
  elems (promiseAllElement e v s) !! e = Some (ElemEnv (e_all F) (e_index F) true).
Proof.
  intros He. unfold promiseAllElement. rewrite He.
  destruct (alreadyCalled F) eqn:Ha.
  { rewrite He. destruct F. simpl in *. by subst. }
  assert (<[e := ElemEnv (e_all F) (e_index F) true]> (elems s) !! e
          = Some (ElemEnv (e_all F) (e_index F) true)) as Hi.
  { apply list_lookup_insert_eq. by eapply lookup_lt_Some. }
  simpl. destruct (alls s !! e_all F) as [env|]; [|done].
  case_decide; [|done]. by rewrite t_resolve_elems.
Qed.

(** X4.  A [promiseAllElement] function counts once: a second call of the
    same element function, with whatever value, changes nothing; it neither
    overwrites the stored value nor decrements [remaining] again. *)
Theorem all_element_counts_once (e : nat) (v w : val) (s : machine) :
  promiseAllElement e w (promiseAllElement e v s) = promiseAllElement e v s.
Proof.
  destruct (elems s !! e) as [F|] eqn:He.
  - pose proof (promiseAllElement_called e v s F He) as H.
    unfold promiseAllElement at 1. by rewrite H.
  - assert (promiseAllElement e v s = s) as -> by (unfold promiseAllElement; by rewrite He).
    unfold promiseAllElement. by rewrite He.
Qed.

(** ** Draining a drained queue *)

(** X5.  When a drain has returned, the queue is idle: [runQueueEntry]
    answers [false] and a further drain returns at once, both leaving the
    machine as it is. *)
Theorem drain_twice (table : nat → val → list val → prog) (fuel : nat)
    (s s' : machine) :
  runQueue table fuel s = Some s' →
  runQueueEntry table s' = (false, s') ∧
  ∀ fuel', runQueue table (S fuel') s' = Some s'.
Proof.
  intros (n & _ & _ & Hh & _)%runQueue_Some.
  pose proof (runQueueEntry_idle table s' Hh) as Hidle.
  split; [done|]. intros fuel'. simpl. by rewrite Hidle.
Qed.

(** ** [Promise.resolve] *)

Lemma resolve_is_promise v s : ∃ q, fst (resolve v s) = VPromise q.
Proof.
  unfold resolve. destruct v; try (by eexists);
    by destruct (Promise_new _ _) as [[p t] s']; eexists.
Qed.

Lemma resolve_plain v s :
  probe v = NotThenable →
  resolve v s =
  (VPromise (length (promises s)),
   set_promises (λ ps, ps ++ [MkPromise (Some true) v [] []])
     (set_resolvers (λ rs, rs ++ [Resolver (length (promises s)) true]) s)).
Proof.
  intros Hv.
  assert (resolve v s =
          let '(p, _, s) := Promise_new (λ t s, (Normal VUndef, t_resolve t v s)) s in
          (VPromise p, s)) as ->.
  { unfold resolve. by destruct v. }
  rewrite Promise_new_unfold. cbn.
  rewrite (t_resolve_plain (length (resolvers s)) (length (promises s))
             (MkPromise None VUndef [] []) v (alloc s));
    [|apply lookup_snoc|apply lookup_snoc|done|done].
  cbn. unfold neutralize, alloc, set_promises, set_resolvers. cbn.
  by rewrite insert_snoc, alter_snoc.
Qed.

(** X6.  [Promise.resolve] of a value that is not a promise allocates one
    promise and returns it.  When the value is not a thenable, the promise
    is fulfilled with it when the call returns, its pair is used up, and
    the queue is left alone.  When the value is an object whose [then] is a
    function, the promise is pending when the call returns: one job for the
    thenable is put at the tail of the queue, holding a second pair of the
    promise, which is the only live one. *)
Theorem static_resolve_wraps (v : val) (s : machine) (l : list job) :
  queue_repr s l → (∀ q, v ≠ VPromise q) →
  let p := length (promises s) in
  let t := length (resolvers s) in
  fst (resolve v s) = VPromise p ∧
  (probe v = NotThenable →
     promises (snd (resolve v s)) = promises s ++ [MkPromise (Some true) v [] []] ∧
     resolvers (snd (resolve v s)) = resolvers s ++ [Resolver p true] ∧
     jobs (snd (resolve v s)) = jobs s ∧
     queueHead (snd (resolve v s)) = queueHead s ∧
     queueTail (snd (resolve v s)) = queueTail s) ∧
  (∀ f, probe v = Thenable f →
     promises (snd (resolve v s)) = promises s ++ [MkPromise None VUndef [] []] ∧
     resolvers (snd (resolve v s)) = resolvers s ++ [Resolver p true; Resolver p false] ∧
     queue_repr (snd (resolve v s))
       (l ++ [ThenableJob v f (BResolve (S t)) (BReject (S t))])).
Proof.
  intros Hq Hv p t.
  assert (resolve v s =
          let '(p, _, s) := Promise_new (λ t s, (Normal VUndef, t_resolve t v s)) s in
          (VPromise p, s)) as Hres.
  { unfold resolve. destruct v; try done. by destruct (Hv p0). }
  split_and!.
  - rewrite Hres, Promise_new_unfold. done.
  - intros Hplain. by rewrite (resolve_plain v s Hplain).
  - intros f Hf. rewrite Hres, Promise_new_unfold. cbn.
    rewrite (t_resolve_thenable (length (resolvers s)) (length (promises s))
               (MkPromise None VUndef [] []) v f (alloc s));
      [|apply lookup_snoc|apply lookup_snoc|done|apply Hv|done].
    split_and!.
    + by heap_simpl.
    + heap_simpl. rewrite alter_snoc. by rewrite <-(assoc_L (++)).
    + cbn. rewrite length_app. cbn. rewrite Nat.add_1_r.
      by apply enqueueJob_repr.
Qed.

(** ** A [then] member that cannot be read *)

(** X7.  When reading the [then] member of the value raises an error,
    [resolve] rejects the promise with that error: the promise is neither
    fulfilled with the value nor left pending, and its rejection reactions
    are queued.  [Promise.resolve] of such a value returns a promise
    rejected with the error. *)
Theorem then_getter_error_rejects (s : machine) (t p : nat) (pr : promise)
    (e : val) (l : list job) :
  live (resolvers s) t p → promises s !! p = Some pr → state pr = None →
  queue_repr s l →
  promises (t_resolve t (VTrapped e) s) !! p
    = Some (MkPromise (Some false) e [] []) ∧
  queue_repr (t_resolve t (VTrapped e) s)
    (l ++ (job_of_reaction e <$> rejectReactions pr)) ∧
  fst (resolve (VTrapped e) s) = VPromise (length (promises s)) ∧
  promises (snd (resolve (VTrapped e) s)) !! length (promises s)
    = Some (MkPromise (Some false) e [] []).
Proof.
  intros Hl Hp Hst Hq. split_and!.
  - rewrite (t_resolve_trapped t p pr e s Hl Hp Hst). heap_simpl.
    apply list_lookup_insert_eq. by eapply lookup_lt_Some.
  - rewrite (t_resolve_trapped t p pr e s Hl Hp Hst).
    by apply enqueue_all_repr.
  - unfold resolve. by rewrite Promise_new_unfold.
  - unfold resolve. rewrite Promise_new_unfold. cbn.
    rewrite (t_resolve_trapped (length (resolvers s)) (length (promises s))
               (MkPromise None VUndef [] []) e (alloc s));
      [|apply lookup_snoc|apply lookup_snoc|done].
    heap_simpl. by rewrite insert_snoc, lookup_snoc.
Qed.

(** ** Reactions of a settled promise *)

Section Reactions.
Variable table : nat → val → list val → prog.

(** A drain that finds one job, which enqueues nothing. *)
Lemma drain_one s j :
  queue_repr s [j] → queueHead (snd (runQueueEntry table s)) = None →
  runQueue table 2 s = Some (entries table 1 s).
Proof.
  intros Hq Hnone. destruct (runQueueEntry_cons table s j [] Hq) as [He _].
  simpl. rewrite He in *. simpl in *. by rewrite (runQueueEntry_idle table _ Hnone).
Qed.

(** [then] on a settled promise: the derived promise and its pair come
    last, and the one job is queued. *)
Lemma then_settled q qr b onF onR s l :
  queue_repr s l → promises s !! q = Some qr → state qr = Some b →
  let t := length (resolvers s) in
  let h := if b then handler_or Identity onF else handler_or Thrower onR in
  let s1 := snd (then_ (VPromise q) onF onR s) in
  fst (then_ (VPromise q) onF onR s) = Normal (VPromise (length (promises s))) ∧
  promises s1 = promises s ++ [MkPromise None VUndef [] []] ∧
  resolvers s1 = resolvers s ++ [Resolver (length (promises s)) false] ∧
  queue_repr s1 (l ++ [ReactionJob h (BResolve t) (BReject t) (value qr)]).
Proof.
  intros Hq Hp Hst. rewrite (then_unfold q qr onF onR s Hp), Hst. cbn [fst snd].
  destruct b; (split_and!; [done|by heap_simpl|by heap_simpl|]);
    by apply enqueueJob_repr.
Qed.

(** Running the job at the head of the queue. *)
Lemma entry_head s j l :
  queue_repr s (j :: l) →
  ∃ s', snd (runQueueEntry table s) = run_job table j s' ∧
    queue_repr s' l ∧ promises s' = promises s ∧ resolvers s' = resolvers s ∧
    alls s' = alls s ∧ elems s' = elems s ∧ vars s' = vars s.
Proof.
  intros Hq. destruct (runQueueEntry_cons table s j l Hq) as [He _].
  destruct (dequeueJob_repr_cons s j l Hq)
    as (i & nxt & _ & _ & _ & Hps & Hrs & Has & Hes & Hvs & Hq').
  exists (snd (dequeueJob s)). by rewrite He.
Qed.

(** The last promise is pending without reactions, its pair is the last
    pair, and the queue holds [l]. *)
Definition ends_fresh (s : machine) (ps : list promise) (rs : list resolver)
    (l : list job) : Prop :=
  promises s = ps ++ [MkPromise None VUndef [] []] ∧
  resolvers s = rs ++ [Resolver (length ps) false] ∧
  queue_repr s l.

Lemma ends_fresh_resolve s ps rs l w :
  ends_fresh s ps rs l → probe w = NotThenable →
  promises (t_resolve (length rs) w s) = ps ++ [MkPromise (Some true) w [] []] ∧
  resolvers (t_resolve (length rs) w s) = rs ++ [Resolver (length ps) true] ∧
  queue_repr (t_resolve (length rs) w s) l.
Proof.
  intros (Hps & Hrs & Hq) Hw.
  rewrite (t_resolve_plain (length rs) (length ps) (MkPromise None VUndef [] []) w s);
    [|unfold live; rewrite Hrs; apply lookup_snoc|rewrite Hps; apply lookup_snoc|done|done].
  heap_simpl. by rewrite Hps, Hrs, insert_snoc, alter_snoc.
Qed.

Lemma ends_fresh_reject s ps rs l e :
  ends_fresh s ps rs l →
  promises (t_reject (length rs) e s) = ps ++ [MkPromise (Some false) e [] []] ∧
  resolvers (t_reject (length rs) e s) = rs ++ [Resolver (length ps) true] ∧
  queue_repr (t_reject (length rs) e s) l.
Proof.
  intros (Hps & Hrs & Hq).
  rewrite (t_reject_live (length rs) (length ps) (MkPromise None VUndef [] []) e s);
    [|unfold live; rewrite Hrs; apply lookup_snoc|rewrite Hps; apply lookup_snoc|done].
  heap_simpl. by rewrite Hps, Hrs, insert_snoc, alter_snoc.
Qed.

Lemma ends_fresh_self s ps rs l :
  ends_fresh s ps rs l →
  promises (t_resolve (length rs) (VPromise (length ps)) s)
    = ps ++ [MkPromise (Some false) (VTypeError "self resolution") [] []] ∧
  queue_repr (t_resolve (length rs) (VPromise (length ps)) s) l.
Proof.
  intros (Hps & Hrs & Hq).
  rewrite (t_resolve_self (length rs) (length ps) (MkPromise None VUndef [] []) s);
    [|unfold live; rewrite Hrs; apply lookup_snoc|rewrite Hps; apply lookup_snoc|done].
  heap_simpl. by rewrite Hps, insert_snoc.
Qed.

(** [then] on a settled promise in an idle machine, and the one queue entry
    that follows: the reaction job runs on a machine that ends with the
    derived promise, still pending, and its pair. *)
Lemma then_settled_entry q qr b onF onR s :
  queueHead s = None → promises s !! q = Some qr → state qr = Some b →
  let t := length (resolvers s) in
  let h := if b then handler_or Identity onF else handler_or Thrower onR in
  let s1 := snd (then_ (VPromise q) onF onR s) in
  queue_repr s1 [ReactionJob h (BResolve t) (BReject t) (value qr)] ∧
  ∃ s', snd (runQueueEntry table s1)
        = run_job table (ReactionJob h (BResolve t) (BReject t) (value qr)) s' ∧
    ends_fresh s' (promises s) (resolvers s) [].
Proof.
  intros Hh Hp Hst t h s1.
  destruct (then_settled q qr b onF onR s [] Hh Hp Hst) as (_ & Hps & Hrs & Hq).
  split; [exact Hq|].
  destruct (entry_head _ _ _ Hq) as (s' & He & Hq' & Hps' & Hrs' & _).
  exists s'. split; [exact He|]. split_and!; [by rewrite Hps'|by rewrite Hrs'|done].
Qed.

(** What running the handler [h] on the value [v] gives: [Identity] returns
    the value, [Thrower] raises it, and a user function is taken to compute
    its completion [c] without using the polyfill. *)
Definition handler_gives (h : handler) (v : val) (c : completion) : Prop :=
  match h with
  | Identity => c = Normal v
  | Thrower => c = Abrupt v
  | Handler (FUser fid) => ∀ s0, interp (table fid VUndef [v]) s0 = (c, s0)
  | Handler (FBuiltin _) => False
  end.

Lemma run_reaction h t v c s :
  handler_gives h v c →
  run_job table (ReactionJob h (BResolve t) (BReject t) v) s =
  match c with
  | Normal w => t_resolve t w s
  | Abrupt e => t_reject t e s
  end.
Proof.
  intros Hc. destruct h as [| |[fid|b]]; simpl in Hc; subst; try done.
  cbn [run_job call]. rewrite Hc. by destruct c.
Qed.

(** The state of the derived promise after the reaction job of [then] on a
    settled promise has run. *)
Lemma then_settled_result q qr b onF onR s c :
  queueHead s = None → promises s !! q = Some qr → state qr = Some b →
  let d := length (promises s) in
  let h := if b then handler_or Identity onF else handler_or Thrower onR in
  let s1 := snd (then_ (VPromise q) onF onR s) in
  let s2 := entries table 1 s1 in
  handler_gives h (value qr) c →
  match c with
  | Normal w =>
      (probe w = NotThenable →
         promises s2 = promises s ++ [MkPromise (Some true) w [] []] ∧
         runQueue table 2 s1 = Some s2) ∧
      (w = VPromise d →
         promises s2
           = promises s ++ [MkPromise (Some false) (VTypeError "self resolution") [] []] ∧
         runQueue table 2 s1 = Some s2)
  | Abrupt e =>
      promises s2 = promises s ++ [MkPromise (Some false) e [] []] ∧
      runQueue table 2 s1 = Some s2
  end.
Proof.
  intros Hh Hp Hst d h s1 s2 Hc.
  destruct (then_settled_entry q qr b onF onR s Hh Hp Hst) as (Hq & s' & He & Hs').
  fold h s1 in Hq, He.
  assert (s2 = snd (runQueueEntry table s1)) as Hs2 by done.
  rewrite He, (run_reaction _ _ _ c s' Hc) in Hs2.
  destruct c as [w|e].
  - split.
    + intros Hw. destruct (ends_fresh_resolve s' _ _ [] w Hs' Hw) as (H1 & _ & H3).
      rewrite <-Hs2 in H1, H3. split; [done|].
      apply (drain_one s1 _ Hq). exact H3.
    + intros ->. unfold d in Hs2. destruct (ends_fresh_self s' _ _ [] Hs') as (H1 & H3).
      rewrite <-Hs2 in H1, H3. split; [done|].
      apply (drain_one s1 _ Hq). exact H3.
  - destruct (ends_fresh_reject s' _ _ [] e Hs') as (H1 & _ & H3).
    rewrite <-Hs2 in H1, H3. split; [done|].
    apply (drain_one s1 _ Hq). exact H3.
Qed.

End Reactions.

(** [typeof v === 'function'] *)
Definition callable (v : val) : bool :=
  match v with
  | VFun _ => true
  | _ => false
  end.

Lemma handler_or_not_callable h v : callable v = false → handler_or h v = h.
Proof. by destruct v. Qed.

(** X9.  [then] on a settled promise returns a new pending promise and
    settles nothing at once.  When the handler for the promise's state is
    missing (not a function) and, for a fulfilled promise, the value it
    holds is not a thenable, the one queue entry that follows settles the
    new promise like the old one, same state and same value, and a drain
    then returns; the old promise is as it was.  (The job hands the value
    to [resolve], which takes a thenable for assimilation instead.) *)
Theorem then_without_handler (table : nat → val → list val → prog)
    (s : machine) (q : nat) (qr : promise) (b : bool) (onF onR : val) :
  queueHead s = None → promises s !! q = Some qr → state qr = Some b →
  callable (if b then onF else onR) = false →
  (b = true → probe (value qr) = NotThenable) →
  let d := length (promises s) in
  let s1 := snd (then_ (VPromise q) onF onR s) in
  fst (then_ (VPromise q) onF onR s) = Normal (VPromise d) ∧
  promises s1 !! d = Some (MkPromise None VUndef [] []) ∧
  promises (entries table 1 s1) !! d = Some (MkPromise (Some b) (value qr) [] []) ∧
  promises (entries table 1 s1) !! q = Some qr ∧
  runQueue table 2 s1 = Some (entries table 1 s1).
Proof.
  intros Hh Hp Hst Hcall Hplain d s1.
  destruct (then_settled q qr b onF onR s [] Hh Hp Hst) as (Hr & Hps & _ & _).
  split; [done|]. split; [fold s1 in Hps; rewrite Hps; apply lookup_snoc|].
  destruct b.
  - pose proof (then_settled_result table q qr true onF onR s (Normal (value qr))
                  Hh Hp Hst) as H.
    cbn zeta in H. rewrite (handler_or_not_callable _ _ Hcall) in H.
    destruct (H eq_refl) as [H1 _]. destruct (H1 (Hplain eq_refl)) as [H2 H3].
    fold s1 in H2, H3. rewrite H2. split_and!; [apply lookup_snoc| |done].
    by apply lookup_app_l_Some.
  - pose proof (then_settled_result table q qr false onF onR s (Abrupt (value qr))
                  Hh Hp Hst) as H.
    cbn zeta in H. rewrite (handler_or_not_callable _ _ Hcall) in H.
    destruct (H eq_refl) as [H2 H3].
    fold s1 in H2, H3. rewrite H2. split_and!; [apply lookup_snoc| |done].
    by apply lookup_app_l_Some.
Qed.


(** X11.  [catch] on a fulfilled promise never calls its handler: the one
    job it queues carries the [Identity] marker, whatever the handler and
    the user's functions are, and running it fulfills the new promise with
    the old promise's value when that value is not a thenable.  [catch] on a
    rejected promise calls the handler with the reason: when the handler
    returns a value that is not a thenable the new promise is fulfilled with
    it, and when it raises, the new promise is rejected with the new
    error. *)
Theorem catch_contract (table : nat → val → list val → prog)
    (s : machine) (q : nat) (qr : promise) (b : bool) (onR : val) :
  queueHead s = None → promises s !! q = Some qr → state qr = Some b →
  let d := length (promises s) in
  let t := length (resolvers s) in
  let s1 := snd (_catch (VPromise q) onR s) in
  fst (_catch (VPromise q) onR s) = Normal (VPromise d) ∧
  (b = true →
     trace table 1 s1 = [ReactionJob Identity (BResolve t) (BReject t) (value qr)] ∧
     (probe (value qr) = NotThenable →
        promises (entries table 1 s1) !! d
          = Some (MkPromise (Some true) (value qr) [] []))) ∧
  (b = false → ∀ fid c, onR = VFun (FUser fid) →
     (∀ s0, interp (table fid VUndef [value qr]) s0 = (c, s0)) →
     (∀ w, c = Normal w → probe w = NotThenable →
        promises (entries table 1 s1) !! d = Some (MkPromise (Some true) w [] [])) ∧
     (∀ e, c = Abrupt e →
        promises (entries table 1 s1) !! d = Some (MkPromise (Some false) e [] []))).
Proof.
  intros Hh Hp Hst d t s1. unfold _catch in s1.
  destruct (then_settled q qr b VUndef onR s [] Hh Hp Hst) as (Hr & _ & _ & Hq).
  split; [done|]. split.
  - intros ->. split.
    + cbn [trace]. fold s1 in Hq. by rewrite (head_job_repr _ _ _ Hq).
    + intros Hplain.
      pose proof (then_settled_result table q qr true VUndef onR s (Normal (value qr))
                    Hh Hp Hst eq_refl) as [H _].
      destruct (H Hplain) as [H2 _]. fold s1 in H2. rewrite H2. apply lookup_snoc.
  - intros -> fid c -> Hc.
    pose proof (then_settled_result table q qr false VUndef (VFun (FUser fid)) s c
                  Hh Hp Hst Hc) as H.
    cbn zeta in H. split.
    + intros w -> Hw. destruct H as [H _]. destruct (H Hw) as [H2 _].
      fold s1 in H2. rewrite H2. apply lookup_snoc.
    + intros e ->. destruct H as [H2 _]. fold s1 in H2. rewrite H2. apply lookup_snoc.
Qed.

(** ** A thenable whose [then] raises *)

Lemma call_resolve t this v s :
  call_builtin (BResolve t) this [v] s = (Normal VUndef, t_resolve t v s).
Proof. done. Qed.

Lemma call_reject t this v s :
  call_builtin (BReject t) this [v] s = (Normal VUndef, t_reject t v s).
Proof. done. Qed.

(** X12.  The job queued for a thenable calls its [then] method on it with
    a fresh pair.  If the method raises without having called either
    function, the promise is rejected with the error.  If it raises after
    calling [resolve] with a value that is not a thenable, the promise is
    fulfilled with that value and the error is dropped.  If it calls
    [reject], the promise is rejected with the reason given. *)
Theorem thenable_then_raises (table : nat → val → list val → prog)
    (s : machine) (t p : nat) (pr : promise) (fid : nat) (e : val) :
  queueHead s = None → live (resolvers s) t p → promises s !! p = Some pr →
  state pr = None →
  let x := VObject (Some (FUser fid)) in
  let s1 := t_resolve t x s in
  promises s1 !! p = Some pr ∧
  ((∀ rs rj s0, interp (table fid x [rs; rj]) s0 = (Abrupt e, s0)) →
     promises (entries table 1 s1) !! p = Some (MkPromise (Some false) e [] [])) ∧
  (∀ w, probe w = NotThenable →
     (∀ r rj, table fid x [VFun (FBuiltin r); rj]
              = Call r VUndef [w] (λ _, Throw e)) →
     promises (entries table 1 s1) !! p = Some (MkPromise (Some true) w [] [])) ∧
  ((∀ rs rj, table fid x [rs; VFun (FBuiltin rj)]
             = Call rj VUndef [e] (λ _, Ret VUndef)) →
     promises (entries table 1 s1) !! p = Some (MkPromise (Some false) e [] [])).
Proof.
  intros Hh Hl Hp Hst x s1.
  assert (s1 = enqueueJob (ThenableJob x (FUser fid) (BResolve (length (resolvers s)))
                                         (BReject (length (resolvers s))))
                 (set_resolvers (λ rs, rs ++ [Resolver p false]) (neutralize t s))) as Hs1.
  { by apply (t_resolve_thenable t p pr x (FUser fid) s Hl Hp Hst). }
  assert (queue_repr s1 [ThenableJob x (FUser fid) (BResolve (length (resolvers s)))
                                      (BReject (length (resolvers s)))]) as Hq.
  { rewrite Hs1. by apply (enqueueJob_repr _ _ []). }
  assert (promises s1 = promises s) as Hps by (rewrite Hs1; by heap_simpl).
  assert (resolvers s1 = alter trip t (resolvers s) ++ [Resolver p false]) as Hrs
    by (rewrite Hs1; by heap_simpl).
  destruct (entry_head table _ _ _ Hq) as (s' & He & _ & Hps' & Hrs' & _).
  assert (live (resolvers s') (length (resolvers s)) p) as Hl'.
  { unfold live. rewrite Hrs', Hrs, <-(length_alter trip (resolvers s) t).
    apply lookup_snoc. }
  assert (promises s' !! p = Some pr) as Hp' by by rewrite Hps', Hps.
  assert (entries table 1 s1 = snd (runQueueEntry table s1)) as -> by done.
  rewrite He. split; [by rewrite Hps|]. split_and!.
  - intros Hthrow. cbn [run_job call]. rewrite Hthrow, call_reject. cbn [snd].
    rewrite (t_reject_live _ p pr e s' Hl' Hp' Hst). heap_simpl.
    apply list_lookup_insert_eq. by eapply lookup_lt_Some.
  - intros w Hw Hcall. cbn [run_job call]. rewrite Hcall. cbn [interp].
    rewrite call_resolve, call_reject. cbn [snd].
    rewrite (t_resolve_plain _ p pr w s' Hl' Hp' Hst Hw).
    set (s2 := enqueue_all _ _).
    assert (promises s2 !! p = Some (MkPromise (Some true) w [] [])) as Hp2.
    { unfold s2. heap_simpl. apply list_lookup_insert_eq. by eapply lookup_lt_Some. }
    destruct (settled_call_noop (length (resolvers s)) (Resolver p true) e s2
                (MkPromise (Some true) w [] [])) as [_ Hrej]; [|done|done|].
    { unfold s2. heap_simpl. rewrite list_lookup_alter_eq.
      unfold live in Hl'. by rewrite Hl'. }
    simpl in Hrej. by rewrite Hrej.
  - intros Hcall. cbn [run_job call]. rewrite Hcall. cbn [interp].
    rewrite call_reject. cbn [snd].
    rewrite (t_reject_live _ p pr e s' Hl' Hp' Hst). heap_simpl.
    apply list_lookup_insert_eq. by eapply lookup_lt_Some.
Qed.

(** ** [Promise.try] *)

(** X13.  [Promise.try(func)] calls [func] at once and always returns a new
    promise; an error raised by [func] does not leave the call.  When [func]
    returns a value that is not a thenable the promise is fulfilled with it
    on return, and when [func] raises, the promise is rejected with the
    error.  [func] may use the polyfill as it likes; it is not given the new
    promise's pair, which is what the two hypotheses on the pair's index
    say. *)
Theorem try_contract (func : prog) (s : machine) :
  wf s → state_free (length (resolvers s)) s →
  prog_free (length (resolvers s)) func →
  let d := length (promises s) in
  fst (interp (Try func Ret) s) = Normal (VPromise d) ∧
  (∀ w, fst (interp func (alloc s)) = Normal w → probe w = NotThenable →
     promises (snd (interp (Try func Ret) s)) !! d
       = Some (MkPromise (Some true) w [] [])) ∧
  (∀ e, fst (interp func (alloc s)) = Abrupt e →
     promises (snd (interp (Try func Ret) s)) !! d
       = Some (MkPromise (Some false) e [] [])).
Proof.
  intros Hwf Hfree Hfunc d.
  destruct (private_race_nil s Hwf Hfree) as [_ Hpriv].
  destruct (private_interp _ _ func (alloc s) Hfunc Hpriv) as [(_ & Hl & _ & pr & Hp & Hst) _].
  cbn [interp]. rewrite Promise_new_unfold. cbn zeta. fold (alloc s).
  destruct (interp func (alloc s)) as [[w|e] s1] eqn:Hc; cbn [fst snd] in *.
  - split; [done|]. split; [|done]. intros ? [= <-] Hw.
    rewrite (t_resolve_plain _ _ pr w s1 Hl Hp Hst Hw). heap_simpl.
    apply list_lookup_insert_eq. by eapply lookup_lt_Some.
  - split; [done|]. split; [done|]. intros ? [= <-].
    rewrite (t_reject_live _ _ pr e s1 Hl Hp Hst). heap_simpl.
    apply list_lookup_insert_eq. by eapply lookup_lt_Some.
Qed.

(** ** What [then] and [Promise.resolve] leave alone *)









Lemma then_alls this f r s :
  alls (snd (then_ this f r s)) = alls s ∧ elems (snd (then_ this f r s)) = elems s.
Proof.
  destruct this as [| | | | | |q| | | |]; try done.
  unfold then_. rewrite Promise_new_capture. cbn zeta.
  match goal with |- context [promises ?s0 !! q] => destruct (promises s0 !! q) as [pr|] end;
    [|done].
  cbn [snd]. destruct (state pr) as [[]|]; by heap_simpl.
Qed.




Lemma t_resolve_alls t v s :
  alls (t_resolve t v s) = alls s ∧ elems (t_resolve t v s) = elems s.
Proof.
  by destruct (outcome_heap (λ _, True) t s (t_resolve t v s)
                 (t_resolve_outcome _ t v s resolve_closed_True I)) as (-> & -> & _).
Qed.

Lemma resolve_alls x s :
  alls (snd (resolve x s)) = alls s ∧ elems (snd (resolve x s)) = elems s.
Proof.
  assert (∀ v, let s' := snd (let '(p, _, s) :=
            Promise_new (λ t s, (Normal VUndef, t_resolve t v s)) s in
            (VPromise p, s)) in alls s' = alls s ∧ elems s' = elems s) as H.
  { intros v. rewrite Promise_new_unfold. cbn.
    destruct (t_resolve_alls (length (resolvers s)) v (alloc s)) as [-> ->]. done. }
  destruct x; try apply H. done.
Qed.

(** ** The first settled input of [race] wins *)

Section FirstJob.
Variable table : nat → val → list val → prog.


End FirstJob.







(** ** The first input of [race] to settle wins *)






(** ** Resolving with a promise that is still pending *)



(** ** [all] is rejected by the first rejection it meets *)







Lemma all_unfold_list list s :
  all list s =
  (VPromise (length (promises s)),
   all_finish (length (alls s)) (length (resolvers s))
     (all_loop (length (alls s)) (length (resolvers s)) 0 list
        (all_started (length (resolvers s)) s))).
Proof. unfold all. by rewrite Promise_new_capture. Qed.


(** ** [all] is rejected when an input is rejected *)






(** ** Chains of [then] *)


Section ThenChain.
Variable table : nat → val → list val → prog.

(** [N] handlers, the user's functions [base], ..., [base + N - 1]; function
    [base + i] returns [F i x] for the argument [x], a value that is not a
    thenable, and does nothing else. *)
Variables (N base : nat) (F : nat → val → val) (v : val).
Hypothesis table_maps : ∀ i x s0, i < N →
  interp (table (base + i) VUndef [x]) s0 = (Normal (F i x), s0).
Hypothesis F_plain : ∀ i x, i < N → probe (F i x) = NotThenable.
Hypothesis v_plain : probe v = NotThenable.



(** The chain starts at the pending promise [p] with the live pair [r];
    [d0] and [t0] are the indices of the first promise and pair that the
    chain allocates.  Node 0 is [p], node [i + 1] the promise returned by
    the [i]-th call. *)
Variables (p r d0 t0 : nat).




Hypothesis p_old : p < d0.
Hypothesis r_old : r < t0.


















End ThenChain.



(** ** A handler that returns a promise *)


(** ** [all] of values that are not promises *)

Lemma call_element e this v s :
  call_builtin (BAllElement e) this [v] s = (Normal VUndef, promiseAllElement e v s).
Proof. done. Qed.

(** The first call of an element function. *)
Lemma promiseAllElement_first e a i v vals rem t s :
  elems s !! e = Some (ElemEnv a i false) →
  alls s !! a = Some (AllEnv vals rem t) →
  promiseAllElement e v s =
  let s' := set_alls (<[a := AllEnv (array_set i v vals) (rem - 1)%Z t]>)
              (set_elems (<[e := ElemEnv a i true]>) s) in
  if decide ((rem - 1)%Z = 0%Z) then t_resolve t (VArray a) s' else s'.
Proof. intros He Ha. unfold promiseAllElement. rewrite He. cbn. by rewrite Ha. Qed.

(** [all] on a value that is not a thenable: [Promise.resolve] wraps it in
    a promise that is fulfilled already, so that [then] queues the job of
    the element function at once. *)
Lemma all_step_plain a t k x s :
  probe x = NotThenable →
  all_step a t k x s =
  enqueueJob
    (ReactionJob (Handler (FBuiltin (BAllElement (length (elems s)))))
       (BResolve (S (length (resolvers s)))) (BReject (S (length (resolvers s)))) x)
    (alloc (set_alls (alter incr a)
              (set_elems (λ es, es ++ [ElemEnv a k false]) (snd (resolve x s))))).
Proof.
  intros Hx. unfold all_step. rewrite (resolve_plain x s Hx). cbn -[then_].
  rewrite (then_unfold (length (promises s)) (MkPromise (Some true) x [] []));
    [|cbn; apply lookup_snoc].
  cbn. by rewrite length_app, Nat.add_1_r.
Qed.

Section AllPlain.
Variable table : nat → val → list val → prog.

(** The inputs, and the sizes of the machine at the call: [P0] promises,
    [T0] pairs, [a] environments of [all] and [e0] element functions.  The
    call allocates the promise [P0] with the pair [T0] for its result, and
    for input [i] a wrapper promise, the promise [wd i] returned by [then]
    with its pair [wt i], and the element function [e0 + i]. *)
Variables (xs : list val) (P0 T0 a e0 : nat).
Hypothesis xs_plain : ∀ i x, xs !! i = Some x → probe x = NotThenable.

Definition xval (i : nat) : val := default VUndef (xs !! i).
Definition wd (i : nat) : nat := P0 + 2 + 2 * i.
Definition wt (i : nat) : nat := T0 + 2 + 2 * i.

Definition elem_job (i : nat) : job :=
  ReactionJob (Handler (FBuiltin (BAllElement (e0 + i))))
              (BResolve (wt i)) (BReject (wt i)) (xval i).

Definition unsettled : promise := MkPromise None VUndef [] [].

(** Input [i] is registered and its element function has not run. *)
Definition pending_slot (s : machine) (i : nat) : Prop :=
  live (resolvers s) (wt i) (wd i) ∧ promises s !! wd i = Some unsettled ∧
  elems s !! (e0 + i) = Some (ElemEnv a i false).

(** The machine in the loop of [all], after [k] inputs. *)
Definition looping (k : nat) (s : machine) : Prop :=
  length (promises s) = P0 + 1 + 2 * k ∧
  length (resolvers s) = T0 + 1 + 2 * k ∧
  length (elems s) = e0 + k ∧
  alls s !! a = Some (AllEnv [] (Z.of_nat (S k)) T0) ∧
  queue_repr s (elem_job <$> seq 0 k) ∧
  live (resolvers s) T0 P0 ∧ promises s !! P0 = Some unsettled ∧
  ∀ i, i < k → pending_slot s i.

Lemma looping_step k x s :
  xs !! k = Some x → looping k s → looping (S k) (all_step a T0 k x s).
Proof.
  intros Hx (Hlp & Hlr & Hle & Ha & Hq & Hl & Hp & Hslots).
  rewrite (all_step_plain a T0 k x s (xs_plain k x Hx)).
  rewrite (resolve_plain x s (xs_plain k x Hx)). cbn [snd].
  assert (elem_job k = ReactionJob (Handler (FBuiltin (BAllElement (length (elems s)))))
            (BResolve (S (length (resolvers s)))) (BReject (S (length (resolvers s)))) x)
    as <-.
  { unfold elem_job, xval, wt. rewrite Hx, Hle, Hlr. simpl. do 2 f_equal; f_equal; lia. }
  split_and!.
  - heap_simpl. rewrite !length_app. simpl. lia.
  - heap_simpl. rewrite !length_app. simpl. lia.
  - heap_simpl. rewrite length_app. simpl. lia.
  - heap_simpl. rewrite list_lookup_alter_eq, Ha. unfold incr.
    cbn [fmap option_fmap option_map values remaining resolveFn].
    do 2 f_equal. lia.
  - rewrite seq_S, fmap_app. by apply enqueueJob_repr.
  - heap_simpl. unfold live. by do 2 apply lookup_app_l_Some.
  - heap_simpl. by do 2 apply lookup_app_l_Some.
  - intros i Hi. unfold pending_slot. heap_simpl.
    destruct (decide (i = k)) as [->|Hne].
    + split_and!.
      * unfold live.
        replace (wt k)
          with (length (resolvers s ++ [Resolver (length (promises s)) true]))
          by (rewrite length_app; unfold wt; simpl; lia).
        replace (wd k) with (length (promises s ++ [MkPromise (Some true) x [] []]))
          by (rewrite length_app; unfold wd; simpl; lia).
        apply lookup_snoc.
      * replace (wd k) with (length (promises s ++ [MkPromise (Some true) x [] []]))
          by (rewrite length_app; unfold wd; simpl; lia).
        apply lookup_snoc.
      * rewrite <-Hle. apply lookup_snoc.
    + destruct (Hslots i ltac:(lia)) as (Hli & Hpi & Hei). split_and!.
      * unfold live. by do 2 apply lookup_app_l_Some.
      * by do 2 apply lookup_app_l_Some.
      * by apply lookup_app_l_Some.
Qed.

Lemma looping_loop l : ∀ k s,
  drop k xs = l → looping k s → looping (k + length l) (all_loop a T0 k l s).
Proof.
  induction l as [|x l IH]; intros k s Hd Hs; simpl.
  - by rewrite Nat.add_0_r.
  - assert (xs !! k = Some x) as Hx.
    { rewrite <-(Nat.add_0_r k), <-lookup_drop, Hd. done. }
    replace (k + S (length l)) with (S k + length l) by lia.
    apply IH; [|by apply looping_step].
    replace (S k) with (k + 1) by lia. by rewrite <-drop_drop, Hd.
Qed.

(** The machine after [all] has returned and [k] queue entries were run. *)
Definition draining (k : nat) (s : machine) : Prop :=
  alls s !! a = Some (AllEnv (Some <$> take k xs) (Z.of_nat (length xs - k)) T0) ∧
  queue_repr s (elem_job <$> seq k (length xs - k)) ∧
  (k < length xs → live (resolvers s) T0 P0 ∧ promises s !! P0 = Some unsettled) ∧
  (length xs ≤ k →
     promises s !! P0 = Some (MkPromise (Some true) (VArray a) [] [])) ∧
  ∀ i, k ≤ i < length xs → pending_slot s i.

Lemma draining_start s :
  looping (length xs) s → draining 0 (all_finish a T0 s).
Proof.
  intros (Hlp & Hlr & Hle & Ha & Hq & Hl & Hp & Hslots).
  unfold all_finish. rewrite Ha. cbn zeta. cbn [values remaining resolveFn].
  replace (Z.of_nat (S (length xs)) - 1)%Z with (Z.of_nat (length xs)) by lia.
  assert (a < length (alls s)) as Halt by by eapply lookup_lt_Some.
  unfold draining. rewrite Nat.sub_0_r. cbn [take fmap list_fmap].
  destruct (decide (Z.of_nat (length xs) = 0%Z)) as [Hz|Hnz].
  - assert (length xs = 0) as Hn by lia.
    rewrite (t_resolve_plain T0 P0 unsettled (VArray a)); [|done|done|done|done].
    rewrite Hn in *. split_and!.
    + heap_simpl. by apply list_lookup_insert_eq.
    + exact Hq.
    + lia.
    + intros _. heap_simpl. apply list_lookup_insert_eq. by eapply lookup_lt_Some.
    + intros i Hi. lia.
  - split_and!.
    + simpl. by apply list_lookup_insert_eq.
    + done.
    + done.
    + intros ?. lia.
    + intros i Hi. apply Hslots. lia.
Qed.

Lemma array_set_next k x :
  xs !! k = Some x →
  array_set k x (Some <$> take k xs) = Some <$> take (S k) xs.
Proof.
  intros Hx. pose proof (lookup_lt_Some _ _ _ Hx) as Hk.
  unfold array_set. rewrite length_fmap, length_take, Nat.min_l by lia.
  rewrite decide_False by lia. rewrite Nat.sub_diag. simpl.
  by rewrite (take_S_r _ _ _ Hx), fmap_app.
Qed.

Lemma wd_ne i j : i ≠ j → wd i ≠ wd j.
Proof. unfold wd. lia. Qed.
Lemma wt_ne i j : i ≠ j → wt i ≠ wt j.
Proof. unfold wt. lia. Qed.
Lemma wd_P0 i : wd i ≠ P0.
Proof. unfold wd. lia. Qed.
Lemma wt_T0 i : wt i ≠ T0.
Proof. unfold wt. lia. Qed.

Lemma draining_step k s :
  k < length xs → draining k s → draining (S k) (snd (runQueueEntry table s)).
Proof.
  intros Hk (Ha & Hq & Hagg & _ & Hslots).
  destruct (lookup_lt_is_Some_2 xs k Hk) as [x Hx].
  replace (length xs - k) with (S (length xs - S k)) in Hq by lia. cbn [seq fmap list_fmap] in Hq.
  destruct (entry_head table _ _ _ Hq) as (s' & -> & Hq' & Hps & Hrs & Has & Hes & _).
  destruct (Hagg Hk) as [Hl Hp].
  destruct (Hslots k ltac:(lia)) as (Hlk & Hpk & Hek).
  assert (∀ i, S k ≤ i < length xs → pending_slot s' i) as Hslots'.
  { intros i Hi. destruct (Hslots i ltac:(lia)) as (? & ? & ?).
    unfold pending_slot. by rewrite Hps, Hrs, Hes. }
  unfold live in Hl, Hlk. rewrite <-Hrs in Hl, Hlk. rewrite <-Hps in Hp, Hpk.
  rewrite <-Hes in Hek. rewrite <-Has in Ha.
  clear Hps Hrs Has Hes Hslots Hagg Hq.
  assert (a < length (alls s')) as Halt by by eapply lookup_lt_Some.
  assert (run_job table (elem_job k) s'
          = t_resolve (wt k) VUndef (promiseAllElement (e0 + k) (xval k) s')) as ->.
  { unfold elem_job. cbn [run_job call]. by rewrite call_element, call_resolve. }
  rewrite (promiseAllElement_first _ _ _ _ _ _ _ _ Hek Ha). cbn zeta.
  assert (xval k = x) as -> by (unfold xval; by rewrite Hx).
  rewrite (array_set_next k x Hx).
  replace (Z.of_nat (length xs - k) - 1)%Z with (Z.of_nat (length xs - S k)) by lia.
  set (s2 := set_alls _ (set_elems _ s')).
  assert (alls s2 !! a = Some (AllEnv (Some <$> take (S k) xs)
                                 (Z.of_nat (length xs - S k)) T0)) as Ha2.
  { unfold s2. simpl. by apply list_lookup_insert_eq. }
  assert (∀ i, S k ≤ i < length xs → pending_slot s2 i) as Hslots2.
  { intros i Hi. destruct (Hslots' i Hi) as (? & ? & ?). split_and!; [done|done|].
    unfold s2. simpl. rewrite list_lookup_insert_ne by lia. done. }
  destruct (decide (Z.of_nat (length xs - S k) = 0%Z)) as [Hz|Hnz].
  - rewrite (t_resolve_plain T0 P0 unsettled (VArray a) s2 Hl Hp eq_refl eq_refl).
    set (s3 := enqueue_all _ _).
    assert (live (resolvers s3) (wt k) (wd k)) as Hl3.
    { unfold s3. heap_simpl. unfold live. rewrite list_lookup_alter_ne; [done|].
      apply not_eq_sym, wt_T0. }
    assert (promises s3 !! wd k = Some unsettled) as Hp3.
    { unfold s3. heap_simpl. rewrite list_lookup_insert_ne; [done|].
      apply not_eq_sym, wd_P0. }
    rewrite (t_resolve_plain (wt k) (wd k) unsettled VUndef s3 Hl3 Hp3 eq_refl eq_refl).
    split_and!.
    + by heap_simpl.
    + exact Hq'.
    + lia.
    + intros _. heap_simpl. rewrite list_lookup_insert_ne by apply wd_P0.
      apply list_lookup_insert_eq. by eapply lookup_lt_Some.
    + intros i Hi. lia.
  - assert (live (resolvers s2) (wt k) (wd k)) as Hl2 by done.
    assert (promises s2 !! wd k = Some unsettled) as Hp2 by done.
    rewrite (t_resolve_plain (wt k) (wd k) unsettled VUndef s2 Hl2 Hp2 eq_refl eq_refl).
    split_and!.
    + by heap_simpl.
    + exact Hq'.
    + intros _. heap_simpl. split.
      * unfold live. rewrite list_lookup_alter_ne; [done|]. apply wt_T0.
      * rewrite list_lookup_insert_ne; [done|]. apply wd_P0.
    + lia.
    + intros i Hi. destruct (Hslots2 i Hi) as (Hli & Hpi & Hei).
      unfold pending_slot. heap_simpl. split_and!.
      * unfold live. rewrite list_lookup_alter_ne; [done|]. apply wt_ne. lia.
      * rewrite list_lookup_insert_ne; [done|]. apply wd_ne. lia.
      * done.
Qed.

Lemma draining_entries k s :
  k ≤ length xs → draining 0 s → draining k (entries table k s).
Proof.
  intros Hk Hs. induction k as [|k IH]; [done|].
  rewrite entries_S. apply draining_step; [lia|]. apply IH. lia.
Qed.

End AllPlain.

(** X22.  [all] of values none of which is a thenable (nor a promise),
    called with an idle queue: each value is wrapped by [Promise.resolve],
    so the call queues one job per input and returns a pending promise
    (fulfilled at once when the list is empty).  Each queue entry delivers
    one value; the promise is pending until the last entry has run and is
    then fulfilled with the [values] array, which holds the inputs in input
    order; a drain runs exactly as many entries as there are inputs and
    returns. *)
Theorem all_of_plain_values (table : nat → val → list val → prog)
    (xs : list val) (s : machine) :
  (∀ x, x ∈ xs → probe x = NotThenable) → queueHead s = None →
  let p := length (promises s) in
  let a := length (alls s) in
  let s1 := snd (all xs s) in
  fst (all xs s) = VPromise p ∧
  (∀ k, k < length xs →
     ∃ pr, promises (entries table k s1) !! p = Some pr ∧ state pr = None) ∧
  promises (entries table (length xs) s1) !! p
    = Some (MkPromise (Some true) (VArray a) [] []) ∧
  values <$> alls (entries table (length xs) s1) !! a = Some (Some <$> xs) ∧
  runQueue table (S (length xs)) s1 = Some (entries table (length xs) s1).
Proof.
  intros Hplain Hh p a s1.
  set (t := length (resolvers s)). set (e0 := length (elems s)).
  assert (∀ i x, xs !! i = Some x → probe x = NotThenable) as Hxs.
  { intros i x Hx. apply Hplain. by eapply list_elem_of_lookup_2. }
  assert (s1 = all_finish a t (all_loop a t 0 xs (all_started t s))) as Hs1
    by (unfold s1; by rewrite all_unfold_list).
  rewrite all_unfold_list. cbn [fst]. split; [done|].
  assert (looping xs p t a e0 0 (all_started t s)) as H0.
  { unfold all_started.
    split_and!; simpl; rewrite ?length_app; simpl;
      first [unfold p, t, e0; lia | apply lookup_snoc | done | intros i Hi; lia]. }
  pose proof (looping_loop xs p t a e0 Hxs xs 0 _ eq_refl H0) as Hloop.
  cbn [Nat.add] in Hloop.
  pose proof (draining_start xs p t a e0 _ Hloop) as Hd0. rewrite <-Hs1 in Hd0.
  assert (∀ k, k ≤ length xs → draining xs p t a e0 k (entries table k s1)) as Hrun.
  { intros k Hk. by apply draining_entries. }
  split_and!.
  - intros k Hk. destruct (Hrun k ltac:(lia)) as (_ & _ & Hagg & _).
    destruct (Hagg Hk) as [_ Hp]. by eexists.
  - destruct (Hrun _ (le_n _)) as (_ & _ & _ & Hp & _). by apply Hp.
  - destruct (Hrun _ (le_n _)) as (-> & _). simpl. by rewrite firstn_all.
  - apply runQueue_Some. exists (length xs). split_and!; [lia|done| |].
    + destruct (Hrun _ (le_n _)) as (_ & Hq & _).
      by rewrite Nat.sub_diag in Hq.
    + intros m Hm. destruct (Hrun m ltac:(lia)) as (_ & Hq & _).
      replace (length xs - m) with (S (length xs - S m)) in Hq by lia.
      destruct Hq as (i & ? & -> & _). done.
Qed.

(** * [all] keeps the input order *)

(** The promises of the inputs: the values that the variable [t] of the
    loop body of [all] takes, one [Promise.resolve(x)] for each element [x]
    of the list. *)
Fixpoint all_inputs (a t index : nat) (xs : list val) (s : machine) : list val :=
  match xs with
  | [] => []
  | x :: xs =>
      fst (resolve x s) :: all_inputs a t (S index) xs (all_step a t index x s)
  end.

(** Promise [d] is fulfilled with [v]; promise [d] is rejected. *)
Definition fulfilled_with (s : machine) (d : nat) (v : val) : Prop :=
  ∃ pr, promises s !! d = Some pr ∧ state pr = Some true ∧ value pr = v.

Definition rejected (s : machine) (d : nat) : Prop :=
  ∃ pr, promises s !! d = Some pr ∧ state pr = Some false.

Lemma fulfilled_with_evolves s s' d v :
  evolves s s' → fulfilled_with s d v → fulfilled_with s' d v.
Proof.
  intros (He & _) (pr & Hd & Hst & Hv). exists pr. split_and!; [|done|done].
  apply He; [done|]. by rewrite Hst.
Qed.

Lemma rejected_evolves s s' d : evolves s s' → rejected s d → rejected s' d.
Proof.
  intros (He & _) (pr & Hd & Hst). exists pr. split; [|done].
  apply He; [done|]. by rewrite Hst.
Qed.

Lemma fulfilled_with_inj s d v w :
  fulfilled_with s d v → fulfilled_with s d w → v = w.
Proof. intros (pr & Hd & _ & <-) (pr' & Hd' & _ & <-). congruence. Qed.

Lemma fulfilled_not_rejected s d v : fulfilled_with s d v → rejected s d → False.
Proof. intros (pr & Hd & Hst & _) (pr' & Hd' & Hst'). congruence. Qed.

Section AllInputs.

(** One call of [all]: its environment [a], the pair [t] and the promise [p]
    of the aggregate, the index [e0] of its first [promiseAllElement]
    function and the number [n] of its inputs; [inp i] is the promise of
    input [i]. *)
Variables (a t p e0 n : nat).
Variable inp : nat → nat.

(** ** What user code can hold

    The functions of the call that no user code is ever given: the pair of
    the aggregate and the element functions.  They are handed to [then]
    only, as the handlers of the reactions of the inputs ([t.then] is the
    prototype's [then], [t] being a promise made by the constructor). *)
Definition pub_builtin (b : builtin) : Prop :=
  match b with
  | BResolve t' => t' ≠ t
  | BReject t' => t' ≠ t
  | BAllElement e => e < e0 ∨ e0 + n ≤ e
  | BThen => True
  end.

Definition pub_fnval (f : fnval) : Prop :=
  match f with
  | FBuiltin b => pub_builtin b
  | FUser _ => True
  end.

Fixpoint pub_val (v : val) : Prop :=
  match v with
  | VFun f => pub_fnval f
  | VObject (Some f) => pub_fnval f
  | VTrapped e => pub_val e
  | _ => True
  end.

Definition pub_completion (c : completion) : Prop :=
  match c with
  | Normal v => pub_val v
  | Abrupt e => pub_val e
  end.

Definition pub_handler (h : handler) : Prop :=
  match h with
  | Handler f => pub_fnval f
  | _ => True
  end.

Definition pub_slot (o : option val) : Prop :=
  match o with
  | Some v => pub_val v
  | None => True
  end.

(** User code that names none of these functions and passes on only what it
    is given. *)
Fixpoint pub_prog (c : prog) : Prop :=
  match c with
  | Ret v => pub_val v
  | Throw e => pub_val e
  | Call b this args k =>
      pub_builtin b ∧ pub_val this ∧ Forall pub_val args ∧
      ∀ r, pub_completion r → pub_prog (k r)
  | New executor k =>
      (∀ res rej, pub_val res → pub_val rej → pub_prog (executor res rej)) ∧
      ∀ v, pub_val v → pub_prog (k v)
  | Resolve v k => pub_val v ∧ ∀ r, pub_val r → pub_prog (k r)
  | Reject v k => pub_val v ∧ ∀ r, pub_val r → pub_prog (k r)
  | All list k => Forall pub_val list ∧ ∀ r, pub_val r → pub_prog (k r)
  | Race list k => Forall pub_val list ∧ ∀ r, pub_val r → pub_prog (k r)
  | Try func k => pub_prog func ∧ ∀ r, pub_val r → pub_prog (k r)
  | GetVar x k => ∀ v, pub_val v → pub_prog (k v)
  | SetVar x v k => pub_val v ∧ pub_prog k
  end.

Definition pub_table (table : nat → val → list val → prog) : Prop :=
  ∀ fid this args, pub_val this → Forall pub_val args →
    pub_prog (table fid this args).

(** What the host does after the call: it runs user code, or a queue
    entry. *)
Inductive host_action (table : nat → val → list val → prog)
    : machine → machine → Prop :=
| host_runs c s : pub_prog c → host_action table s (snd (interp c s))
| host_enters s : host_action table s (snd (runQueueEntry table s)).

(** ** Where the functions of the call are *)

Definition elem_handler (i : nat) : handler :=
  Handler (FBuiltin (BAllElement (e0 + i))).

Definition reject_handler : handler := Handler (FBuiltin (BReject t)).

(** The reactions of promise [q], when [k] inputs are registered: the
    element function of input [i] reacts to the fulfilment of [inp i], the
    aggregate's [reject] to the rejection of an input. *)
Definition freaction_ok (k q : nat) (r : reaction) : Prop :=
  pub_builtin (r_resolve r) ∧ pub_builtin (r_reject r) ∧
  (pub_handler (r_handler r) ∨
   ∃ i, i < k ∧ inp i = q ∧ r_handler r = elem_handler i).

Definition rreaction_ok (k q : nat) (r : reaction) : Prop :=
  pub_builtin (r_resolve r) ∧ pub_builtin (r_reject r) ∧
  (pub_handler (r_handler r) ∨
   (r_handler r = reject_handler ∧ ∃ i, i < k ∧ inp i = q)).

Definition promise_ok (k q : nat) (pr : promise) : Prop :=
  pub_val (value pr) ∧
  Forall (freaction_ok k q) (fulfillReactions pr) ∧
  Forall (rreaction_ok k q) (rejectReactions pr).

(** A job in the queue: an element function is called with the value its
    input was fulfilled with, the aggregate's [reject] when some input is
    rejected. *)
Definition job_ok (k : nat) (s : machine) (j : job) : Prop :=
  match j with
  | ReactionJob h res rej v =>
      pub_builtin res ∧ pub_builtin rej ∧ pub_val v ∧
      (pub_handler h ∨
       (∃ i, i < k ∧ h = elem_handler i ∧ fulfilled_with s (inp i) v) ∨
       (h = reject_handler ∧ ∃ i, i < k ∧ rejected s (inp i)))
  | ThenableJob x f res rej =>
      pub_val x ∧ pub_fnval f ∧ pub_builtin res ∧ pub_builtin rej
  end.

(** Element function [i] has not been called. *)
Definition is_open (es : list elem_env) (i : nat) : bool :=
  match es !! (e0 + i) with
  | Some F => negb (alreadyCalled F)
  | None => false
  end.

Fixpoint open_count (es : list elem_env) (k : nat) : nat :=
  match k with
  | 0 => 0
  | S k => open_count es k + (if is_open es k then 1 else 0)
  end.

(** An element function that has not been called is on its way: it is a
    reaction of its input while that is pending, and in a job of the queue
    once the input is fulfilled.  The function [skip], if any, is the one
    that is being registered or called. *)
Definition on_its_way (skip : option nat) (k : nat) (s : machine) (l : list job)
    : Prop :=
  ∀ i pr, i < k → skip ≠ Some i → is_open (elems s) i = true →
    promises s !! inp i = Some pr →
    match state pr with
    | None => ∃ r, r ∈ fulfillReactions pr ∧ r_handler r = elem_handler i
    | Some true => ∃ res rej, ReactionJob (elem_handler i) res rej (value pr) ∈ l
    | Some false => True
    end.

(** The aggregate: pending with its pair live while the counter is above
    zero; fulfilled with the [values] array once the counter is at zero;
    or rejected, some input being rejected. *)
Definition aggregate_ok (count k : nat) (s : machine) : Prop :=
  (live (resolvers s) t p ∧ 0 < count) ∨
  (resolvers s !! t = Some (Resolver p true) ∧
   fulfilled_with s p (VArray a) ∧ count = 0) ∨
  (resolvers s !! t = Some (Resolver p true) ∧
   rejected s p ∧ ∃ i, i < k ∧ rejected s (inp i)).

(** The invariant of the call, when [k] inputs are registered.  [extra] is
    the 1 that the counter starts with, taken off at the end of [all];
    [gap] is 1 between a decrement of the counter and the test that
    follows it, and 0 otherwise. *)
Record all_ok (skip : option nat) (extra gap k : nat) (s : machine) : Prop := {
  ok_k : k ≤ n;
  ok_wf : wf s;
  ok_queue : ∃ l, queue_repr s l ∧ Forall (job_ok k s) l ∧ on_its_way skip k s l;
  ok_vars : Forall pub_slot (vars s);
  ok_promises : ∀ q pr, promises s !! q = Some pr → promise_ok k q pr;
  ok_inputs : ∀ i, i < k → inp i < length (promises s) ∧ inp i ≠ p;
  ok_alls : ∀ a' env, alls s !! a' = Some env → a' ≠ a → resolveFn env ≠ t;
  ok_others : ∀ e F, elems s !! e = Some F → e < e0 ∨ e0 + n ≤ e → e_all F ≠ a;
  ok_elems : e0 + k ≤ length (elems s) ∧
    ∀ i, i < k → ∃ c, elems s !! (e0 + i) = Some (ElemEnv a i c);
  ok_env : ∃ vals,
    alls s !! a = Some (AllEnv vals (Z.of_nat (extra + open_count (elems s) k)) t) ∧
    length vals ≤ k ∧
    ∀ i, i < k → is_open (elems s) i = false →
      ∃ v, vals !! i = Some (Some v) ∧ fulfilled_with s (inp i) v;
  ok_agg : aggregate_ok (gap + extra + open_count (elems s) k) k s
}.

(** ** Small facts *)

Lemma pub_val_closed : resolve_closed pub_val.
Proof. done. Qed.

Lemma pub_probe x f : pub_val x → probe x = Thenable f → pub_fnval f.
Proof. destruct x as [| | | | | | | | |[g|]|]; simpl; intros; simplify_eq/=; done. Qed.

Lemma pub_arg i args : Forall pub_val args → pub_val (arg i args).
Proof.
  intros Ha. unfold arg. destruct (args !! i) as [v|] eqn:Hi; [|done].
  by eapply Forall_lookup_1.
Qed.

Lemma pub_handler_or d v : pub_handler d → pub_val v → pub_handler (handler_or d v).
Proof. by destruct v. Qed.

Lemma pub_array_set i v l :
  pub_val v → Forall pub_slot l → Forall pub_slot (array_set i v l).
Proof.
  intros Hv Ha. unfold array_set. case_decide.
  - by apply Forall_insert.
  - apply Forall_app. split; [done|]. apply Forall_app. split.
    + by apply Forall_replicate.
    + by apply Forall_singleton.
Qed.

Lemma job_ok_evolves k s s' j : evolves s s' → job_ok k s j → job_ok k s' j.
Proof.
  intros He. destruct j as [h res rej v|x f res rej]; [|done].
  intros (? & ? & ? & [Hh|[(i & Hi & Hh & Hf)|(Hh & i & Hi & Hr)]]);
    (split_and!; [done|done|done|]).
  - by left.
  - right; left. exists i. eauto using fulfilled_with_evolves.
  - right; right. split; [done|]. exists i. eauto using rejected_evolves.
Qed.

Lemma jobs_ok_evolves k s s' l :
  evolves s s' → Forall (job_ok k s) l → Forall (job_ok k s') l.
Proof.
  intros He Hl. eapply Forall_impl; [exact Hl|]. intros j. by apply job_ok_evolves.
Qed.

Lemma is_open_ext es es' i :
  es' !! (e0 + i) = es !! (e0 + i) → is_open es' i = is_open es i.
Proof. unfold is_open. by intros ->. Qed.

Lemma open_count_ext es es' k :
  (∀ i, i < k → es' !! (e0 + i) = es !! (e0 + i)) →
  open_count es' k = open_count es k.
Proof.
  induction k as [|k IH]; intros H; [done|]. simpl.
  rewrite IH by (intros; apply H; lia). by rewrite (is_open_ext es es' k) by (apply H; lia).
Qed.

Lemma aggregate_ok_allocated c k s :
  aggregate_ok c k s → ∃ r, resolvers s !! t = Some r ∧ target r = p.
Proof. intros [[H _]|[(H & _)|(H & _)]]; eexists; split; try exact H; done. Qed.

(** ** Steps that keep the invariant *)

Lemma aggregate_ok_evolves c k s s' :
  evolves s s' → resolvers s' !! t = resolvers s !! t →
  aggregate_ok c k s → aggregate_ok c k s'.
Proof.
  intros He Ht [[Hl Hc]|[(Hr & Hf & Hc)|(Hr & Hf & i & Hi & Hri)]].
  - left. split; [|done]. unfold live in *. by rewrite Ht.
  - right; left. rewrite Ht. eauto using fulfilled_with_evolves.
  - right; right. rewrite Ht. split_and!; eauto using rejected_evolves.
Qed.

(** The frame of a step that leaves the environment and the element
    functions of the call alone. *)
Lemma all_ok_frame skip extra gap gap' k s s' :
  all_ok skip extra gap k s →
  evolves s s' → wf s' →
  (∃ l, queue_repr s' l ∧ Forall (job_ok k s') l ∧ on_its_way skip k s' l) →
  Forall pub_slot (vars s') →
  (∀ q pr, promises s' !! q = Some pr → promise_ok k q pr) →
  alls s' !! a = alls s !! a →
  (∀ a' env, alls s' !! a' = Some env → a' ≠ a → resolveFn env ≠ t) →
  (∀ i, i < k → elems s' !! (e0 + i) = elems s !! (e0 + i)) →
  length (elems s) ≤ length (elems s') →
  (∀ e F, elems s' !! e = Some F → e < e0 ∨ e0 + n ≤ e → e_all F ≠ a) →
  aggregate_ok (gap' + extra + open_count (elems s) k) k s' →
  all_ok skip extra gap' k s'.
Proof.
  intros [Hk Hwf Hq Hvars Hps Hin Halls Hoth Hel Henv Hagg] He Hwf' Hq' Hvars' Hps'
    Ha Ha' He' Hlen Hoth' Hagg'.
  pose proof (open_count_ext _ _ k He') as Hcount.
  split; try done.
  - intros i Hi. destruct (Hin i Hi) as [Hlt Hne]. split; [|done].
    destruct He as (_ & _ & Hl). lia.
  - split; [lia|]. intros i Hi. rewrite He' by done. by apply Hel.
  - rewrite Ha, Hcount. destruct Henv as (vals & Hv & Hl & Hvals).
    exists vals. split_and!; [done|done|]. intros i Hi Ho.
    rewrite (is_open_ext (elems s)) in Ho by by apply He'.
    destruct (Hvals i Hi Ho) as (v & ? & ?). exists v.
    eauto using fulfilled_with_evolves.
  - by rewrite Hcount.
Qed.

Lemma all_ok_step skip extra gap gap' k s s' :
  all_ok skip extra gap k s →
  evolves s s' → wf s' →
  (∃ l, queue_repr s' l ∧ Forall (job_ok k s') l ∧ on_its_way skip k s' l) →
  Forall pub_slot (vars s') →
  (∀ q pr, promises s' !! q = Some pr → promise_ok k q pr) →
  alls s' = alls s → elems s' = elems s →
  aggregate_ok (gap' + extra + open_count (elems s) k) k s' →
  all_ok skip extra gap' k s'.
Proof.
  intros Hok He Hwf' Hq' Hvars' Hps' Ha He' Hagg'.
  apply (all_ok_frame skip extra gap gap' k s); try done.
  - by rewrite Ha.
  - rewrite Ha. apply Hok.
  - intros. by rewrite He'.
  - by rewrite He'.
  - rewrite He'. apply Hok.
Qed.

Lemma on_its_way_frame skip k s s' l l' :
  elems s' = elems s → promises s' = promises s → l ⊆ l' →
  on_its_way skip k s l → on_its_way skip k s' l'.
Proof.
  intros He Hp Hl H i pr Hi Hsk Ho Hpr. rewrite He in Ho. rewrite Hp in Hpr.
  specialize (H i pr Hi Hsk Ho Hpr). destruct (state pr) as [[]|]; [|done|done].
  destruct H as (res & rej & Hin). exists res, rej. by apply Hl.
Qed.

Lemma ok_enqueue skip extra gap k j s :
  job_ok k s j → all_ok skip extra gap k s → all_ok skip extra gap k (enqueueJob j s).
Proof.
  intros Hj Hok.
  assert (evolves s (enqueueJob j s)) as He by apply evolves_prim, prim_enqueue.
  apply (all_ok_step skip extra gap gap k s); try done; try by heap_simpl.
  - apply (wf_prim s); [constructor|apply Hok].
  - destruct (ok_queue _ _ _ _ _ Hok) as (l & Hq & Hl & Hway). exists (l ++ [j]).
    split_and!.
    + by apply enqueueJob_repr.
    + apply Forall_app. split; [by eapply jobs_ok_evolves|].
      apply Forall_singleton. by eapply job_ok_evolves.
    + eapply on_its_way_frame; [| | |exact Hway]; [by heap_simpl|by heap_simpl|].
      by apply sublist_subseteq, sublist_inserts_r.
  - heap_simpl. apply Hok.
  - intros q pr. heap_simpl. apply Hok.
  - eapply aggregate_ok_evolves; [done|by heap_simpl|apply Hok].
Qed.

Lemma ok_enqueue_all skip extra gap k js s :
  (∀ s', evolves s s' → Forall (job_ok k s') js) →
  all_ok skip extra gap k s → all_ok skip extra gap k (enqueue_all js s).
Proof.
  unfold enqueue_all. revert s. induction js as [|j js IH]; intros s Hjs Hs; [done|].
  simpl. apply IH.
  - intros s' He. assert (evolves s s') as He'.
    { etrans; [|exact He]. apply evolves_prim, prim_enqueue. }
    specialize (Hjs s' He'). by apply Forall_cons in Hjs as [_ ?].
  - apply ok_enqueue; [|done]. specialize (Hjs s ltac:(reflexivity)).
    by apply Forall_cons in Hjs as [? _].
Qed.

Lemma the_pair_allocated skip extra gap k s :
  all_ok skip extra gap k s → t < length (resolvers s) ∧ p < length (promises s).
Proof.
  intros Hok. destruct (aggregate_ok_allocated _ _ _ (ok_agg _ _ _ _ _ Hok)) as (r & Hr & Hp).
  split; [by eapply lookup_lt_Some|].
  destruct (ok_wf _ _ _ _ _ Hok) as [_ (Hb & _)]. rewrite <-Hp. by eapply Hb.
Qed.

Lemma ok_alloc skip extra gap k s :
  all_ok skip extra gap k s → all_ok skip extra gap k (alloc s).
Proof.
  intros Hok.
  assert (evolves s (alloc s)) as He by apply evolves_prim, prim_alloc.
  destruct (the_pair_allocated _ _ _ _ _ Hok) as [Ht Hp].
  apply (all_ok_step skip extra gap gap k s); try done.
  - apply wf_alloc, Hok.
  - destruct (ok_queue _ _ _ _ _ Hok) as (l & Hq & Hl & Hway). exists l.
    split_and!; [done|by eapply jobs_ok_evolves|].
    intros i pr Hi Hsk Ho Hpr. apply (Hway i pr Hi Hsk Ho).
    simpl in Hpr. rewrite lookup_app_l in Hpr; [done|].
    by apply (ok_inputs _ _ _ _ _ Hok).
  - apply Hok.
  - intros q pr. simpl. intros [H|[_ H]]%lookup_app_Some.
    + by apply (ok_promises _ _ _ _ _ Hok).
    + apply list_lookup_singleton_Some in H as [_ <-]. by split_and!.
  - eapply aggregate_ok_evolves; [done| |apply Hok]. simpl. by rewrite lookup_app_l.
Qed.

Lemma ok_push skip extra gap k q pr f r s :
  promises s !! q = Some pr → state pr = None →
  freaction_ok k q f → rreaction_ok k q r →
  all_ok skip extra gap k s → all_ok skip extra gap k (push_reactions q f r s).
Proof.
  intros Hq Hst Hf Hr Hok.
  assert (evolves s (push_reactions q f r s)) as He
    by by eapply evolves_prim, prim_push.
  apply (all_ok_step skip extra gap gap k s); try done.
  - eapply (wf_prim s); [by econstructor|apply Hok].
  - destruct (ok_queue _ _ _ _ _ Hok) as (l & Hql & Hl & Hway). exists l.
    split_and!; [done|by eapply jobs_ok_evolves|].
    intros i pr' Hi Hsk Ho Hpr. simpl in Hpr.
    destruct (decide (inp i = q)) as [Heq|Hne].
    + rewrite Heq, list_lookup_alter_eq, Hq in Hpr. simpl in Hpr. injection Hpr as <-.
      simpl. rewrite Hst. rewrite <-Heq in Hq.
      specialize (Hway i pr Hi Hsk Ho Hq). rewrite Hst in Hway.
      destruct Hway as (r0 & Hr0 & Hh). exists r0. split; [|done].
      apply elem_of_app. by left.
    + rewrite list_lookup_alter_ne in Hpr by done. by apply (Hway i pr' Hi Hsk Ho).
  - apply Hok.
  - intros q' pr'. simpl. destruct (decide (q' = q)) as [->|Hne].
    + rewrite list_lookup_alter_eq, Hq. simpl. intros [= <-].
      destruct (ok_promises _ _ _ _ _ Hok q pr Hq) as (Hv & Hfs & Hrs).
      split_and!; simpl; [done| |]; (apply Forall_app; split; [done|]);
        by apply Forall_singleton.
    + rewrite list_lookup_alter_ne by done. by apply (ok_promises _ _ _ _ _ Hok).
  - eapply aggregate_ok_evolves; [done|done|apply Hok].
Qed.

Lemma ok_set_vars skip extra gap k f s :
  (Forall pub_slot (vars s) → Forall pub_slot (f (vars s))) →
  all_ok skip extra gap k s → all_ok skip extra gap k (set_vars f s).
Proof.
  intros Hf Hok.
  assert (evolves s (set_vars f s)) as He by apply evolves_prim, prim_vars.
  apply (all_ok_step skip extra gap gap k s); try done.
  - apply Hok.
  - apply Hok.
  - apply Hf, Hok.
  - apply Hok.
  - apply Hok.
Qed.

(** A call through a pair that user code can hold. *)
Lemma ok_outcome skip extra gap k t' s s' :
  t' ≠ t → outcome pub_val t' s s' →
  all_ok skip extra gap k s → all_ok skip extra gap k s'.
Proof.
  intros Hne Ho Hok.
  pose proof (evolves_outcome _ _ _ _ Ho) as He.
  pose proof (wf_outcome _ _ _ _ Ho (ok_wf _ _ _ _ _ Hok)) as Hwf'.
  destruct (the_pair_allocated _ _ _ _ _ Hok) as [Ht Hp].
  destruct (ok_queue _ _ _ _ _ Hok) as (l & Hq & Hl & Hway).
  destruct Ho as [|q Hlive|q pr b w Hlive Hpq Hst Hw|q pr x f Hlive Hpq Hst Hx Hprobe];
    [done| | |].
  - (* the pair is neutralized, the promise being settled already *)
    apply (all_ok_step skip extra gap gap k s); try done; try apply Hok.
    eapply aggregate_ok_evolves; [done| |apply Hok].
    simpl. by rewrite list_lookup_alter_ne.
  - (* the promise is settled *)
    set (rs := if b then fulfillReactions pr else rejectReactions pr) in *.
    set (s1 := set_promises _ _) in *.
    destruct (ok_promises _ _ _ _ _ Hok q pr Hpq) as (_ & Hfs & Hrs).
    assert (promises s1 !! q = Some (settle b w pr)) as Hq1.
    { simpl. apply list_lookup_insert_eq. by eapply lookup_lt_Some. }
    assert (Forall (job_ok k (enqueue_all (job_of_reaction w <$> rs) s1))
              (job_of_reaction w <$> rs)) as Hnew.
    { apply Forall_fmap. unfold rs. destruct b.
      - eapply Forall_impl; [exact Hfs|]. intros r (? & ? & Hh). simpl.
        split_and!; [done|done|done|]. destruct Hh as [?|(i & Hi & Hin & ->)]; [by left|].
        right; left. exists i. split_and!; [done|done|]. rewrite Hin.
        exists (settle true w pr). by heap_simpl.
      - eapply Forall_impl; [exact Hrs|]. intros r (? & ? & Hh). simpl.
        split_and!; [done|done|done|]. destruct Hh as [?|(-> & i & Hi & Hin)]; [by left|].
        right; right. split; [done|]. exists i. split; [done|]. rewrite Hin.
        exists (settle false w pr). by heap_simpl. }
    apply (all_ok_step skip extra gap gap k s); try done; try by heap_simpl.
    + exists (l ++ (job_of_reaction w <$> rs)). split_and!.
      * by apply enqueue_all_repr.
      * apply Forall_app. split; [by eapply jobs_ok_evolves|done].
      * intros i pr' Hi Hsk. heap_simpl. intros Hopen Hpr'.
        destruct (decide (inp i = q)) as [Heq|Hneq].
        -- rewrite Heq in Hpr'. simpl in Hq1. rewrite Hq1 in Hpr'. injection Hpr' as <-.
           simpl. rewrite <-Heq in Hpq.
           specialize (Hway i pr Hi Hsk Hopen Hpq). rewrite Hst in Hway.
           destruct b; [|done]. destruct Hway as (r & Hr & Hh).
           exists (r_resolve r), (r_reject r). apply elem_of_app. right.
           apply list_elem_of_fmap. exists r. split; [|done].
           unfold job_of_reaction. by rewrite Hh.
        -- rewrite list_lookup_insert_ne in Hpr' by done.
           specialize (Hway i pr' Hi Hsk Hopen Hpr').
           destruct (state pr') as [[]|]; [|done|done].
           destruct Hway as (res & rej & Hin). exists res, rej.
           apply elem_of_app. by left.
    + heap_simpl. apply Hok.
    + intros q' pr'. heap_simpl. destruct (decide (q' = q)) as [->|Hneq].
      * simpl in Hq1. rewrite Hq1. intros [= <-]. by split_and!.
      * rewrite list_lookup_insert_ne by done. by apply (ok_promises _ _ _ _ _ Hok).
    + eapply aggregate_ok_evolves; [done| |apply Hok]. heap_simpl.
      by rewrite list_lookup_alter_ne.
  - (* a thenable: a new pair, and a job *)
    apply (all_ok_step skip extra gap gap k s); try done; try by heap_simpl.
    + eexists. split_and!.
      * by apply enqueueJob_repr.
      * apply Forall_app. split; [by eapply jobs_ok_evolves|].
        apply Forall_singleton. simpl. split_and!; [done|by eapply pub_probe|lia|lia].
      * eapply on_its_way_frame; [| | |exact Hway]; [by heap_simpl|by heap_simpl|].
        by apply sublist_subseteq, sublist_inserts_r.
    + heap_simpl. apply Hok.
    + intros q' pr'. heap_simpl. by apply (ok_promises _ _ _ _ _ Hok).
    + eapply aggregate_ok_evolves; [done| |apply Hok]. heap_simpl.
      rewrite lookup_app_l by by rewrite length_alter.
      by rewrite list_lookup_alter_ne.
Qed.

Lemma ok_resolve skip extra gap k t' v s :
  t' ≠ t → pub_val v →
  all_ok skip extra gap k s → all_ok skip extra gap k (t_resolve t' v s).
Proof.
  intros Hne Hv. apply (ok_outcome _ _ _ _ t'); [done|].
  by apply t_resolve_outcome.
Qed.

Lemma ok_reject skip extra gap k t' v s :
  t' ≠ t → pub_val v →
  all_ok skip extra gap k s → all_ok skip extra gap k (t_reject t' v s).
Proof.
  intros Hne Hv. apply (ok_outcome _ _ _ _ t'); [done|].
  by apply t_reject_outcome.
Qed.

Lemma on_its_way_elems skip k s s' l :
  promises s' = promises s →
  (∀ i, i < k → elems s' !! (e0 + i) = elems s !! (e0 + i)) →
  on_its_way skip k s l → on_its_way skip k s' l.
Proof.
  intros Hp He H i pr Hi Hsk Ho Hpr. rewrite Hp in Hpr.
  rewrite (is_open_ext (elems s)) in Ho by by apply He.
  by apply (H i pr Hi Hsk Ho Hpr).
Qed.

Lemma ok_set_elems skip extra gap k f s :
  (∀ i, i < k → f (elems s) !! (e0 + i) = elems s !! (e0 + i)) →
  length (elems s) ≤ length (f (elems s)) →
  (∀ e F, f (elems s) !! e = Some F → e < e0 ∨ e0 + n ≤ e → e_all F ≠ a) →
  all_ok skip extra gap k s → all_ok skip extra gap k (set_elems f s).
Proof.
  intros Hf Hlen Hoth Hok.
  assert (evolves s (set_elems f s)) as He by apply evolves_prim, prim_elems.
  apply (all_ok_frame skip extra gap gap k s); try done.
  - apply Hok.
  - destruct (ok_queue _ _ _ _ _ Hok) as (l & Hq & Hl & Hway). exists l.
    split_and!; [done|by eapply jobs_ok_evolves|].
    by apply (on_its_way_elems skip k s).
  - apply Hok.
  - apply Hok.
  - apply Hok.
  - apply Hok.
Qed.

Lemma ok_set_alls skip extra gap k f s :
  f (alls s) !! a = alls s !! a →
  (∀ a' env, f (alls s) !! a' = Some env → a' ≠ a → resolveFn env ≠ t) →
  all_ok skip extra gap k s → all_ok skip extra gap k (set_alls f s).
Proof.
  intros Hf Hoth Hok.
  assert (evolves s (set_alls f s)) as He by apply evolves_prim, prim_alls.
  apply (all_ok_frame skip extra gap gap k s); try done.
  - apply Hok.
  - apply Hok.
  - apply Hok.
  - apply Hok.
  - apply Hok.
  - apply Hok.
Qed.

Lemma ok_Promise_new skip extra gap k executor s :
  (∀ t' s0, t' ≠ t → all_ok skip extra gap k s0 →
     all_ok skip extra gap k (snd (executor t' s0)) ∧
     pub_completion (fst (executor t' s0))) →
  all_ok skip extra gap k s →
  all_ok skip extra gap k (snd (Promise_new executor s)).
Proof.
  intros He Hok. rewrite Promise_new_unfold. simpl.
  destruct (the_pair_allocated _ _ _ _ _ Hok) as [Ht _].
  destruct (He (length (resolvers s)) (alloc s)) as [H1 H2];
    [lia|by apply ok_alloc|].
  destruct (executor _ _) as [[v|e] s1]; simpl in *; [done|].
  apply ok_reject; [lia|done|done].
Qed.

Lemma ok_then skip extra gap k this onF onR s :
  pub_val onF → pub_val onR → all_ok skip extra gap k s →
  all_ok skip extra gap k (snd (then_ this onF onR s)) ∧
  pub_completion (fst (then_ this onF onR s)).
Proof.
  intros HF HR Hok. unfold then_. destruct this as [| | | | | |q| | | |]; try done.
  rewrite Promise_new_capture. fold (alloc s).
  pose proof (ok_alloc _ _ _ _ _ Hok) as Ha.
  destruct (the_pair_allocated _ _ _ _ _ Hok) as [Ht _].
  simpl. split; [|done].
  change (_ ++ [MkPromise None VUndef [] []]) with (promises (alloc s)).
  destruct (promises (alloc s) !! q) as [pr|] eqn:Hq; [|done].
  destruct (ok_promises _ _ _ _ _ Ha q pr Hq) as (Hv & _).
  destruct (state pr) as [[]|] eqn:Hst.
  - apply ok_enqueue; [|done]. simpl. split_and!; [lia|lia|done|].
    left. by apply pub_handler_or.
  - apply ok_enqueue; [|done]. simpl. split_and!; [lia|lia|done|].
    left. by apply pub_handler_or.
  - apply (ok_push _ _ _ _ q pr); [done|done| | |done].
    + split_and!; simpl; [lia|lia|]. left. by apply pub_handler_or.
    + split_and!; simpl; [lia|lia|]. left. by apply pub_handler_or.
Qed.

Lemma ok_static_resolve skip extra gap k v s :
  pub_val v → all_ok skip extra gap k s →
  all_ok skip extra gap k (snd (resolve v s)) ∧ pub_val (fst (resolve v s)).
Proof.
  intros Hv Hok. unfold resolve.
  assert (all_ok skip extra gap k
            (snd (Promise_new (λ t s, (Normal VUndef, t_resolve t v s)) s))) as H.
  { apply ok_Promise_new; [|done]. intros t' s0 Ht H0. simpl. split; [|done].
    by apply ok_resolve. }
  destruct (Promise_new _ s) as [[q t'] s1]. simpl in H.
  by destruct v.
Qed.

Lemma ok_static_reject skip extra gap k v s :
  pub_val v → all_ok skip extra gap k s →
  all_ok skip extra gap k (snd (reject v s)) ∧ pub_val (fst (reject v s)).
Proof.
  intros Hv Hok. unfold reject.
  assert (all_ok skip extra gap k
            (snd (Promise_new (λ t s, (Normal VUndef, t_reject t v s)) s))) as H.
  { apply ok_Promise_new; [|done]. intros t' s0 Ht H0. simpl. split; [|done].
    by apply ok_reject. }
  by destruct (Promise_new _ s) as [[q t'] s1].
Qed.

(** An element function of another call of [all]. *)
Lemma ok_promiseAllElement skip extra gap k e v s :
  e < e0 ∨ e0 + n ≤ e → pub_val v →
  all_ok skip extra gap k s → all_ok skip extra gap k (promiseAllElement e v s).
Proof.
  intros He Hv Hok. unfold promiseAllElement.
  destruct (elems s !! e) as [F|] eqn:HF; [|done].
  destruct (alreadyCalled F); [done|].
  pose proof (ok_k _ _ _ _ _ Hok) as Hk.
  pose proof (ok_others _ _ _ _ _ Hok e F HF He) as Hne.
  set (s1 := set_elems _ s).
  assert (all_ok skip extra gap k s1) as H1.
  { apply ok_set_elems; [| | |done].
    - intros i Hi. apply list_lookup_insert_ne. lia.
    - by rewrite length_insert.
    - intros e' F' HF' He'. destruct (decide (e' = e)) as [->|Hne'].
      + apply list_lookup_insert_Some in HF' as [(_ & <- & _)|[? _]]; done.
      + rewrite list_lookup_insert_ne in HF' by done.
        by apply (ok_others _ _ _ _ _ Hok e' F'). }
  destruct (alls s1 !! e_all F) as [env|] eqn:Henv; [|done].
  pose proof (ok_alls _ _ _ _ _ H1 _ _ Henv Hne) as Hres.
  set (s2 := set_alls _ s1).
  assert (all_ok skip extra gap k s2) as H2.
  { apply ok_set_alls; [| |done].
    - by apply list_lookup_insert_ne.
    - intros a' env' Ha' Hne'. destruct (decide (a' = e_all F)) as [->|Hne2].
      + apply list_lookup_insert_Some in Ha' as [(_ & <- & _)|[? _]]; done.
      + rewrite list_lookup_insert_ne in Ha' by done.
        by apply (ok_alls _ _ _ _ _ H1 a' env'). }
  case_decide; [|done]. by apply ok_resolve.
Qed.

(** ** Other calls of [all] and [race], and user code *)

Lemma ok_env_allocated skip extra gap k s :
  all_ok skip extra gap k s → a < length (alls s).
Proof.
  intros Hok. destruct (ok_env _ _ _ _ _ Hok) as (vals & Ha & _).
  by eapply lookup_lt_Some.
Qed.

Lemma ok_all_step skip extra gap a' t' index x s :
  a' ≠ a → t' ≠ t → pub_val x →
  all_ok skip extra gap n s → all_ok skip extra gap n (all_step a' t' index x s).
Proof.
  intros Ha Ht Hx Hok. unfold all_step.
  destruct (ok_static_resolve _ _ _ _ x s Hx Hok) as [H1 Hv].
  destruct (resolve x s) as [tv s1]. simpl in *.
  destruct (ok_elems _ _ _ _ _ H1) as [Hlen _].
  apply ok_then; [simpl; lia|done|].
  apply ok_set_alls.
  - simpl. by apply list_lookup_alter_ne.
  - simpl. intros a2 env H2 Hne. destruct (decide (a2 = a')) as [->|Hne2].
    + rewrite list_lookup_alter_eq in H2.
      destruct (alls s1 !! a') as [env'|] eqn:Henv; simplify_eq/=.
      by apply (ok_alls _ _ _ _ _ H1 a' env').
    + rewrite list_lookup_alter_ne in H2 by done.
      by apply (ok_alls _ _ _ _ _ H1 a2 env).
  - apply ok_set_elems; [| | |done].
    + intros i Hi. apply lookup_app_l. lia.
    + rewrite length_app. lia.
    + intros e F [H|[Hge H]]%lookup_app_Some He.
      * by apply (ok_others _ _ _ _ _ H1 e F).
      * apply list_lookup_singleton_Some in H as [_ <-]. done.
Qed.

Lemma ok_all_loop skip extra gap a' t' list : ∀ index s,
  a' ≠ a → t' ≠ t → Forall pub_val list →
  all_ok skip extra gap n s → all_ok skip extra gap n (all_loop a' t' index list s).
Proof.
  induction list as [|x list IH]; intros index s Ha Ht Hl Hok; [done|].
  apply Forall_cons in Hl as [Hx Hl]. simpl. apply IH; [done|done|done|].
  by apply ok_all_step.
Qed.

Lemma ok_all skip extra gap list s :
  Forall pub_val list → all_ok skip extra gap n s →
  all_ok skip extra gap n (snd (all list s)) ∧ pub_val (fst (all list s)).
Proof.
  intros Hl Hok. unfold all. rewrite Promise_new_capture. fold (alloc s).
  destruct (the_pair_allocated _ _ _ _ _ Hok) as [Ht _].
  pose proof (ok_env_allocated _ _ _ _ _ Hok) as Ha.
  change (alls (alloc s)) with (alls s).
  set (s2 := set_alls _ (alloc s)).
  assert (all_ok skip extra gap n s2) as H2.
  { apply ok_set_alls; [| |by apply ok_alloc].
    - simpl. by apply lookup_app_l.
    - simpl. intros a2 env [H|[_ H]]%lookup_app_Some Hne.
      + by apply (ok_alls _ _ _ _ _ Hok a2 env).
      + apply list_lookup_singleton_Some in H as [_ <-]. simpl. lia. }
  set (s3 := all_loop _ _ _ _ s2).
  assert (all_ok skip extra gap n s3) as H3 by (apply ok_all_loop; [lia|lia|done|done]).
  simpl. split; [|done].
  destruct (alls s3 !! _) as [env|] eqn:Henv; [|done].
  set (s4 := set_alls _ s3).
  assert (all_ok skip extra gap n s4) as H4.
  { apply ok_set_alls; [| |done].
    - apply list_lookup_insert_ne. lia.
    - intros a2 env2 H Hne. destruct (decide (a2 = length (alls s))) as [->|Hne2].
      + apply list_lookup_insert_Some in H as [(_ & <- & _)|[? _]]; [|done].
        simpl. eapply (ok_alls _ _ _ _ _ H3); [exact Henv|lia].
      + rewrite list_lookup_insert_ne in H by done.
        by apply (ok_alls _ _ _ _ _ H3 a2 env2). }
  case_decide; [|done]. apply ok_resolve; [lia|done|done].
Qed.

Lemma ok_race_step skip extra gap k t' x s :
  t' ≠ t → pub_val x →
  all_ok skip extra gap k s → all_ok skip extra gap k (race_step t' x s).
Proof.
  intros Ht Hx Hok. unfold race_step.
  destruct (ok_static_resolve _ _ _ _ x s Hx Hok) as [H1 Hv].
  destruct (resolve x s) as [tv s1]. simpl in *.
  by apply ok_then.
Qed.

Lemma ok_race skip extra gap k list s :
  Forall pub_val list → all_ok skip extra gap k s →
  all_ok skip extra gap k (snd (race list s)) ∧ pub_val (fst (race list s)).
Proof.
  intros Hl Hok. unfold race. rewrite Promise_new_capture. fold (alloc s).
  destruct (the_pair_allocated _ _ _ _ _ Hok) as [Ht _]. simpl. split; [|done].
  pose proof (ok_alloc _ _ _ _ _ Hok) as Ha. revert Ha.
  generalize (alloc s). induction list as [|x list IH]; intros s1 H1; [done|].
  apply Forall_cons in Hl as [Hx Hl]. simpl. apply IH; [done|].
  apply ok_race_step; [lia|done|done].
Qed.

Lemma ok_call_builtin skip extra gap b this args s :
  pub_builtin b → pub_val this → Forall pub_val args →
  all_ok skip extra gap n s →
  all_ok skip extra gap n (snd (call_builtin b this args s)) ∧
  pub_completion (fst (call_builtin b this args s)).
Proof.
  intros Hb Hthis Hargs Hok. unfold call_builtin. destruct b as [t'|t'|e|]; simpl.
  - split; [|done]. apply ok_resolve; [done|by apply pub_arg|done].
  - split; [|done]. apply ok_reject; [done|by apply pub_arg|done].
  - split; [|done]. apply ok_promiseAllElement; [done|by apply pub_arg|done].
  - apply ok_then; [by apply pub_arg|by apply pub_arg|done].
Qed.

Lemma ok_interp skip extra gap c s :
  pub_prog c → all_ok skip extra gap n s →
  all_ok skip extra gap n (snd (interp c s)) ∧ pub_completion (fst (interp c s)).
Proof.
  revert s. induction c as [v|e|b this args k IH|executor IHe k IHk|v k IH|v k IH
    |list k IH|list k IH|func IHf k IHk|x k IH|x v k IH]; intros s Hc Hok;
    cbn [interp]; cbn [pub_prog] in Hc.
  - done.
  - done.
  - destruct Hc as (Hb & Hthis & Hargs & Hk).
    destruct (ok_call_builtin _ _ _ b this args s Hb Hthis Hargs Hok) as [H1 H2].
    destruct (call_builtin b this args s) as [r s1]. by apply IH; [apply Hk|].
  - destruct Hc as (Hex & Hk).
    match goal with |- context [Promise_new ?ex s] =>
      pose proof (ok_Promise_new skip extra gap n ex s) as H1 end.
    destruct (Promise_new _ s) as [[q t'] s1]. apply IHk; [by apply Hk|].
    apply H1; [|done]. intros t2 s0 Ht H0. by apply IHe; [apply Hex|].
  - destruct Hc as (Hv & Hk).
    destruct (ok_static_resolve _ _ _ _ v s Hv Hok) as [H1 H2].
    destruct (resolve v s) as [r s1]. by apply IH; [apply Hk|].
  - destruct Hc as (Hv & Hk).
    destruct (ok_static_reject _ _ _ _ v s Hv Hok) as [H1 H2].
    destruct (reject v s) as [r s1]. by apply IH; [apply Hk|].
  - destruct Hc as (Hl & Hk).
    destruct (ok_all _ _ _ list s Hl Hok) as [H1 H2].
    destruct (all list s) as [r s1]. by apply IH; [apply Hk|].
  - destruct Hc as (Hl & Hk).
    destruct (ok_race _ _ _ _ list s Hl Hok) as [H1 H2].
    destruct (race list s) as [r s1]. by apply IH; [apply Hk|].
  - destruct Hc as (Hf & Hk).
    match goal with |- context [Promise_new ?ex s] =>
      pose proof (ok_Promise_new skip extra gap n ex s) as H1 end.
    destruct (Promise_new _ s) as [[q t'] s1]. apply IHk; [by apply Hk|].
    apply H1; [|done]. intros t2 s0 Ht H0. destruct (IHf s0 Hf H0) as [H3 H4].
    destruct (interp func s0) as [[v|e] s2]; simpl in *; [|done].
    split; [|done]. by apply ok_resolve.
  - apply IH; [|done]. apply Hc.
    pose proof (ok_vars _ _ _ _ _ Hok) as Hvs.
    destruct (vars s !! x) as [[v|]|] eqn:Hx; simpl; try done.
    by apply (Forall_lookup_1 _ _ _ _ Hvs Hx).
  - destruct Hc as (Hv & Hk). apply IH; [done|].
    apply ok_set_vars; [|done]. by apply pub_array_set.
Qed.

(** ** The functions of the call *)

Lemma all_ok_gap skip extra gap gap' k s :
  all_ok skip extra gap k s →
  aggregate_ok (gap' + extra + open_count (elems s) k) k s →
  all_ok skip extra gap' k s.
Proof. intros [] ?. by split. Qed.

Lemma ok_unskip i extra gap k s :
  is_open (elems s) i = false →
  all_ok (Some i) extra gap k s → all_ok None extra gap k s.
Proof.
  intros Hc [Hk Hwf (l & Hq & Hl & Hway) Hvars Hps Hin Halls Hoth Hel Henv Hagg].
  split; try done. exists l. split_and!; [done|done|].
  intros j pr Hj _ Ho Hpr. apply (Hway j pr Hj); [|done|done].
  intros [= ->]. congruence.
Qed.

Lemma ok_skip sk extra gap k s :
  all_ok None extra gap k s → all_ok sk extra gap k s.
Proof.
  intros [Hk Hwf (l & Hq & Hl & Hway) Hvars Hps Hin Halls Hoth Hel Henv Hagg].
  split; try done. exists l. split_and!; [done|done|].
  intros j pr Hj _ Ho Hpr. by apply (Hway j pr Hj).
Qed.

(** The reactions of the aggregate are the user's. *)
Lemma aggregate_jobs skip extra gap k s pr v b s' :
  all_ok skip extra gap k s → promises s !! p = Some pr → pub_val v →
  Forall (job_ok k s')
    (job_of_reaction v <$> (if b : bool then fulfillReactions pr else rejectReactions pr)).
Proof.
  intros Hok Hp Hv. destruct (ok_promises _ _ _ _ _ Hok p pr Hp) as (_ & Hfs & Hrs).
  apply Forall_fmap. destruct b.
  - eapply Forall_impl; [exact Hfs|]. intros r (? & ? & Hh). simpl.
    split_and!; [done|done|done|]. left. destruct Hh as [?|(i & Hi & Hin & _)]; [done|].
    by destruct (ok_inputs _ _ _ _ _ Hok i Hi).
  - eapply Forall_impl; [exact Hrs|]. intros r (? & ? & Hh). simpl.
    split_and!; [done|done|done|]. left. destruct Hh as [?|(_ & i & Hi & Hin)]; [done|].
    by destruct (ok_inputs _ _ _ _ _ Hok i Hi).
Qed.

(** Settling the aggregate through its pair. *)
Lemma ok_settle_aggregate skip extra gap gap' k s pr b v :
  all_ok skip extra gap k s →
  live (resolvers s) t p → promises s !! p = Some pr → state pr = None →
  pub_val v →
  let s' := enqueue_all
              (job_of_reaction v <$> (if b : bool then fulfillReactions pr
                                      else rejectReactions pr))
              (set_promises (<[p := settle b v pr]>) (neutralize t s)) in
  aggregate_ok (gap' + extra + open_count (elems s) k) k s' →
  all_ok skip extra gap' k s'.
Proof.
  intros Hok Hlive Hp Hst Hv s' Hagg.
  assert (outcome pub_val t s s') as Ho by by apply (out_settle pub_val t s p pr b v).
  pose proof (evolves_outcome _ _ _ _ Ho) as He.
  pose proof (wf_outcome _ _ _ _ Ho (ok_wf _ _ _ _ _ Hok)) as Hwf'.
  destruct (ok_queue _ _ _ _ _ Hok) as (l & Hq & Hl & Hway).
  apply (all_ok_step skip extra gap gap' k s); try done; try by (unfold s'; heap_simpl).
  - eexists. split_and!.
    + by apply enqueue_all_repr.
    + apply Forall_app. split; [by eapply jobs_ok_evolves|].
      by eapply aggregate_jobs.
    + intros i pr' Hi Hsk. unfold s'. heap_simpl. intros Hopen Hpr'.
      destruct (ok_inputs _ _ _ _ _ Hok i Hi) as [_ Hne].
      rewrite list_lookup_insert_ne in Hpr' by done.
      specialize (Hway i pr' Hi Hsk Hopen Hpr').
      destruct (state pr') as [[]|]; [|done|done].
      destruct Hway as (res & rej & Hin). exists res, rej.
      apply elem_of_app. by left.
  - unfold s'. heap_simpl. apply Hok.
  - intros q' pr'. unfold s'. heap_simpl. destruct (decide (q' = p)) as [->|Hneq].
    + rewrite list_lookup_insert_eq by by eapply lookup_lt_Some.
      intros [= <-]. by split_and!.
    + rewrite list_lookup_insert_ne by done. by apply (ok_promises _ _ _ _ _ Hok).
Qed.

Lemma aggregate_pending skip extra gap k s :
  all_ok skip extra gap k s → live (resolvers s) t p →
  ∃ pr, promises s !! p = Some pr ∧ state pr = None.
Proof. intros Hok Hl. destruct (ok_wf _ _ _ _ _ Hok) as [_ (_ & H & _)]. eauto. Qed.

(** The test that follows a decrement of the counter. *)
Lemma ok_fire skip extra k z s :
  z = Z.of_nat (extra + open_count (elems s) k) →
  all_ok skip extra 1 k s →
  all_ok skip extra 0 k (if decide (z = 0%Z) then t_resolve t (VArray a) s else s).
Proof.
  intros -> Hok. pose proof (ok_agg _ _ _ _ _ Hok) as Hagg.
  case_decide as Hz.
  - assert (extra + open_count (elems s) k = 0) as H0 by lia.
    destruct Hagg as [[Hl _]|[(_ & _ & ?)|(Hr & Hrej & Hi)]]; [|lia|].
    + destruct (aggregate_pending _ _ _ _ _ Hok Hl) as (pr & Hp & Hst).
      rewrite (t_resolve_plain t p pr (VArray a) s Hl Hp Hst eq_refl).
      apply (ok_settle_aggregate _ _ 1 0 _ _ pr true); try done.
      right; left. split_and!.
      * heap_simpl. unfold live in Hl. by rewrite list_lookup_alter_eq, Hl.
      * exists (settle true (VArray a) pr). heap_simpl. split; [|done].
        apply list_lookup_insert_eq. by eapply lookup_lt_Some.
      * simpl. lia.
    + rewrite (t_resolve_dead t (Resolver p true)) by done.
      apply (all_ok_gap _ _ 1); [done|]. right; right. done.
  - apply (all_ok_gap _ _ 1); [done|].
    destruct Hagg as [[Hl _]|[(_ & _ & ?)|(Hr & Hrej & Hi)]]; [|lia|].
    + left. split; [done|]. lia.
    + right; right. done.
Qed.

(** The aggregate's [reject], called by the job of a rejected input. *)
Lemma ok_reject_aggregate skip extra k s v :
  pub_val v → (∃ i, i < k ∧ rejected s (inp i)) →
  all_ok skip extra 0 k s → all_ok skip extra 0 k (t_reject t v s).
Proof.
  intros Hv (i & Hi & Hrej) Hok.
  destruct (ok_agg _ _ _ _ _ Hok) as [[Hl _]|[(Hr & _)|(Hr & _)]].
  - destruct (aggregate_pending _ _ _ _ _ Hok Hl) as (pr & Hp & Hst).
    rewrite (t_reject_live t p pr v s Hl Hp Hst).
    assert (outcome pub_val t s
      (enqueue_all (job_of_reaction v <$> rejectReactions pr)
         (set_promises (<[p := settle false v pr]>) (neutralize t s)))) as Ho
      by by apply (out_settle pub_val t s p pr false v).
    apply (ok_settle_aggregate _ _ 0 0 _ _ pr false); try done.
    right; right. split_and!.
    + heap_simpl. unfold live in Hl. by rewrite list_lookup_alter_eq, Hl.
    + exists (settle false v pr). heap_simpl. split; [|done].
      apply list_lookup_insert_eq. by eapply lookup_lt_Some.
    + exists i. split; [done|]. eapply rejected_evolves; [|done].
      by eapply evolves_outcome.
  - by rewrite (t_reject_dead t (Resolver p true)).
  - by rewrite (t_reject_dead t (Resolver p true)).
Qed.

Lemma open_count_close es k i F :
  i < k → es !! (e0 + i) = Some F → alreadyCalled F = false →
  open_count (<[e0 + i := ElemEnv a i true]> es) k + 1 = open_count es k.
Proof.
  intros Hi HF Hc. induction k as [|k IH]; [lia|]. simpl.
  destruct (decide (i = k)) as [->|Hne].
  - assert (is_open es k = true) as -> by (unfold is_open; by rewrite HF, Hc).
    assert (is_open (<[e0 + k := ElemEnv a k true]> es) k = false) as ->.
    { unfold is_open. rewrite list_lookup_insert_eq by by eapply lookup_lt_Some. done. }
    rewrite (open_count_ext es); [lia|].
    intros j Hj. apply list_lookup_insert_ne. lia.
  - rewrite (is_open_ext es) by (apply list_lookup_insert_ne; lia).
    specialize (IH ltac:(lia)). lia.
Qed.

(** The element function of input [i], called with the value of the
    input. *)
Lemma ok_element extra k i v s :
  i < k → fulfilled_with s (inp i) v →
  all_ok (Some i) extra 0 k s →
  all_ok None extra 0 k (promiseAllElement (e0 + i) v s).
Proof.
  intros Hi Hful Hok. unfold promiseAllElement.
  destruct (proj2 (ok_elems _ _ _ _ _ Hok) i Hi) as (c & HF). rewrite HF. simpl.
  destruct c.
  { apply (ok_unskip i); [|done]. unfold is_open. by rewrite HF. }
  destruct (ok_env _ _ _ _ _ Hok) as (vals & Ha & Hlen & Hvals).
  cbn [alls set_elems]. rewrite Ha. cbn [remaining values resolveFn].
  set (es' := <[e0 + i := ElemEnv a i true]> (elems s)).
  pose proof (open_count_close (elems s) k i _ Hi HF eq_refl) as Hcount. fold es' in Hcount.
  set (rem := (Z.of_nat (extra + open_count (elems s) k) - 1)%Z).
  set (s2 := set_alls _ _).
  assert (elems s2 = es') as Hes2 by done.
  assert (evolves s s2) as He by by apply evolves_heap.
  assert (∀ j, j ≠ i → es' !! (e0 + j) = elems s !! (e0 + j)) as Hother.
  { intros j Hj. apply list_lookup_insert_ne. lia. }
  assert (is_open es' i = false) as Hclosed.
  { unfold is_open, es'. by rewrite list_lookup_insert_eq by by eapply lookup_lt_Some. }
  apply (ok_fire None extra k rem s2); [unfold rem; rewrite Hes2; lia|].
  destruct Hok as [Hk Hwf (l & Hq & Hl & Hway) Hvars Hps Hin Halls Hoth Hel _ Hagg].
  split; try done.
  - exists l. split_and!; [done|done|].
    intros j pr Hj _. rewrite Hes2. intros Ho Hpr.
    destruct (decide (j = i)) as [->|Hne]; [congruence|].
    apply (Hway j pr Hj); [congruence| |done].
    by rewrite <-(is_open_ext (elems s) es' j) by by apply Hother.
  - intros a' env. simpl. intros H Hne. rewrite list_lookup_insert_ne in H by done.
    by apply (Halls a' env).
  - intros e F. rewrite Hes2. intros H He0.
    unfold es' in H. rewrite list_lookup_insert_ne in H by lia. by apply (Hoth e F).
  - rewrite Hes2. unfold es'. rewrite length_insert. split; [apply Hel|].
    intros j Hj. destruct (decide (j = i)) as [->|Hne].
    + exists true. apply list_lookup_insert_eq. by eapply lookup_lt_Some.
    + rewrite list_lookup_insert_ne by lia. by apply Hel.
  - exists (array_set i v vals). rewrite Hes2. split_and!.
    + simpl. rewrite list_lookup_insert_eq by by eapply lookup_lt_Some.
      do 2 f_equal. unfold rem. lia.
    + rewrite array_set_length. lia.
    + intros j Hj Ho. destruct (decide (j = i)) as [->|Hne].
      * exists v. split; [apply array_set_lookup|done].
      * rewrite (is_open_ext (elems s) es' j) in Ho by by apply Hother.
        destruct (Hvals j Hj Ho) as (w & Hw & Hfw). exists w.
        split; [by apply array_set_lookup_ne|done].
  - rewrite Hes2.
    replace (1 + extra + open_count es' k) with (0 + extra + open_count (elems s) k) by lia.
    eapply aggregate_ok_evolves; [exact He|done|done].
Qed.

(** ** Queue entries *)

(** The element function that a job calls, if it calls one of this call. *)
Definition job_skip (j : job) : option nat :=
  match j with
  | ReactionJob (Handler (FBuiltin (BAllElement e))) _ _ _ =>
      if decide (e0 ≤ e < e0 + n) then Some (e - e0) else None
  | _ => None
  end.

Lemma job_skip_elem i res rej v :
  i < n → job_skip (ReactionJob (elem_handler i) res rej v) = Some i.
Proof.
  intros Hi. unfold job_skip, elem_handler. rewrite decide_True by lia.
  f_equal. lia.
Qed.

Lemma ok_dequeue extra gap k s j l :
  all_ok None extra gap k s → queue_repr s (j :: l) →
  job_ok k s j ∧ all_ok (job_skip j) extra gap k (snd (dequeueJob s)).
Proof.
  intros Hok Hq.
  destruct (ok_queue _ _ _ _ _ Hok) as (l0 & Hq0 & Hl & Hway).
  pose proof (queue_repr_inj _ _ _ Hq0 Hq) as ->.
  apply Forall_cons in Hl as [Hj Hl]. split; [done|].
  destruct (dequeueJob_repr_cons s j l Hq)
    as (i0 & nxt & _ & _ & _ & Hps & Hrs & Has & Hes & Hvs & Hq').
  set (sd := snd (dequeueJob s)) in *.
  assert (evolves s sd) as He by by apply evolves_heap.
  apply (all_ok_step (job_skip j) extra gap gap k s).
  - by apply ok_skip.
  - done.
  - apply (wf_hprim s); [apply hprim_dequeue|apply Hok].
  - exists l. split_and!; [done|by eapply jobs_ok_evolves|].
    intros i pr Hi Hsk. rewrite Hes, Hps. intros Ho Hpr.
    specialize (Hway i pr Hi ltac:(done) Ho Hpr).
    destruct (state pr) as [[]|]; [|done|done].
    destruct Hway as (res & rej & Hin). exists res, rej.
    apply elem_of_cons in Hin as [<-|Hin]; [|done].
    destruct Hsk. apply job_skip_elem. pose proof (ok_k _ _ _ _ _ Hok). lia.
  - rewrite Hvs. apply Hok.
  - rewrite Hps. apply Hok.
  - done.
  - done.
  - eapply aggregate_ok_evolves; [done|by rewrite Hrs|apply Hok].
Qed.

Section Run.
Variable table : nat → val → list val → prog.
Hypothesis table_is_pub : pub_table table.

Lemma ok_call skip extra gap f this args s :
  pub_fnval f → pub_val this → Forall pub_val args →
  all_ok skip extra gap n s →
  all_ok skip extra gap n (snd (call table f this args s)) ∧
  pub_completion (fst (call table f this args s)).
Proof.
  intros Hf Hthis Hargs Hok. destruct f as [fid|b]; simpl.
  - apply ok_interp; [|done]. by apply table_is_pub.
  - by apply ok_call_builtin.
Qed.

Lemma ok_finish_job skip extra gap res rej r s :
  pub_builtin res → pub_builtin rej → pub_completion r →
  all_ok skip extra gap n s →
  all_ok skip extra gap n
    match r with
    | Normal w => snd (call_builtin res VUndef [w] s)
    | Abrupt e => snd (call_builtin rej VUndef [e] s)
    end.
Proof.
  intros Hres Hrej Hr Hok.
  destruct r as [w|e]; apply ok_call_builtin; try done; by apply Forall_singleton.
Qed.

Lemma ok_run_job extra j s :
  job_ok n s j → all_ok (job_skip j) extra 0 n s →
  all_ok None extra 0 n (run_job table j s).
Proof.
  intros Hj Hok. destruct j as [h res rej v|x f res rej]; simpl in Hj.
  - destruct Hj as (Hres & Hrej & Hv & Hh).
    destruct Hh as [Hh|[(i & Hi & -> & Hful)|(-> & Hrejd)]].
    + assert (job_skip (ReactionJob h res rej v) = None) as Hsk.
      { destruct h as [| |[|[]]]; simpl in *; try done.
        rewrite decide_False; [done|lia]. }
      rewrite Hsk in Hok. cbn [run_job].
      destruct h as [| |f]; simpl.
      * by apply (ok_finish_job None extra 0 res rej (Normal v)).
      * by apply (ok_finish_job None extra 0 res rej (Abrupt v)).
      * destruct (ok_call None extra 0 f VUndef [v] s) as [H1 H2]; try done.
        { by apply Forall_singleton. }
        destruct (call table f VUndef [v] s) as [r s1]. by apply ok_finish_job.
    + rewrite job_skip_elem in Hok by done.
      cbn [run_job elem_handler call]. unfold call_builtin at 1. cbn [arg fst snd].
      apply (ok_finish_job None extra 0 res rej (Normal VUndef)); [done|done|done|].
      by apply ok_element.
    + cbn [run_job reject_handler call]. unfold call_builtin at 1. cbn [arg fst snd].
      apply (ok_finish_job None extra 0 res rej (Normal VUndef)); [done|done|done|].
      by apply ok_reject_aggregate.
  - destruct Hj as (Hx & Hf & Hres & Hrej). cbn [job_skip] in Hok. cbn [run_job].
    destruct (ok_call None extra 0 f x [VFun (FBuiltin res); VFun (FBuiltin rej)] s)
      as [H1 H2]; try done.
    { apply Forall_cons. split; [done|]. by apply Forall_singleton. }
    destruct (call table f x _ s) as [[r|e] s1]; simpl in *; [done|].
    apply ok_call_builtin; try done. by apply Forall_singleton.
Qed.

Lemma ok_runQueueEntry extra s :
  all_ok None extra 0 n s → all_ok None extra 0 n (snd (runQueueEntry table s)).
Proof.
  intros Hok. destruct (ok_queue _ _ _ _ _ Hok) as ([|j l] & Hq & _).
  - by rewrite (runQueueEntry_nil table s Hq).
  - destruct (runQueueEntry_cons table s j l Hq) as [-> _]. simpl.
    destruct (ok_dequeue _ _ _ _ _ _ Hok Hq) as [Hj Hd].
    apply ok_run_job; [|done].
    eapply job_ok_evolves; [|exact Hj].
    destruct (dequeueJob_heap s) as (_ & Hps & Hrs & _). by apply evolves_heap.
Qed.

Lemma ok_host_action extra s s' :
  host_action table s s' → all_ok None extra 0 n s → all_ok None extra 0 n s'.
Proof.
  intros [c s0 Hc|s0] Hok.
  - by apply ok_interp.
  - by apply ok_runQueueEntry.
Qed.

Lemma ok_host_run extra s s' :
  rtc (host_action table) s s' → all_ok None extra 0 n s → all_ok None extra 0 n s'.
Proof. induction 1; eauto using ok_host_action. Qed.

End Run.

(** ** What the invariant says about the aggregate *)

Lemma open_count_zero es k :
  open_count es k = 0 ↔ ∀ i, i < k → is_open es i = false.
Proof.
  induction k as [|k IH]; simpl.
  - split; [intros; lia|done].
  - split.
    + intros H i Hi. destruct (is_open es k) eqn:Hk; [lia|].
      destruct (decide (i = k)) as [->|Hne]; [done|].
      apply IH; lia.
    + intros H. rewrite (H k) by lia. rewrite (proj2 IH); [done|].
      intros i Hi. apply H. lia.
Qed.

(** When the aggregate is fulfilled, its value is the [values] array, which
    holds, input by input, the value the input is fulfilled with. *)
Lemma all_ok_fulfilled s pr :
  all_ok None 0 0 n s → promises s !! p = Some pr → state pr = Some true →
  value pr = VArray a ∧
  ∃ vs, values <$> alls s !! a = Some (Some <$> vs) ∧ length vs = n ∧
    ∀ i, i < n → ∃ v, vs !! i = Some v ∧ fulfilled_with s (inp i) v.
Proof.
  intros Hok Hp Hst.
  destruct (ok_agg _ _ _ _ _ Hok) as [[Hl _]|[(_ & Hful & Hc)|(_ & Hrej & _)]].
  - destruct (aggregate_pending _ _ _ _ _ Hok Hl) as (pr' & Hp' & Hst'). congruence.
  - split.
    { destruct Hful as (pr' & Hp' & _ & Hv). congruence. }
    simpl in Hc. pose proof (proj1 (open_count_zero _ _) Hc) as Hclosed.
    destruct (ok_env _ _ _ _ _ Hok) as (vals & Ha & Hlen & Hvals).
    assert (∀ i, i < n → ∃ v, vals !! i = Some (Some v) ∧ fulfilled_with s (inp i) v)
      as Hall by (intros i Hi; apply Hvals; [done|by apply Hclosed]).
    exists ((λ o, default VUndef o) <$> vals). rewrite Ha. simpl. split_and!.
    + f_equal. apply list_eq. intros i. rewrite !list_lookup_fmap.
      destruct (decide (i < n)) as [Hi|Hi].
      * destruct (Hall i Hi) as (v & -> & _). done.
      * rewrite lookup_ge_None_2; [done|lia].
    + rewrite length_fmap. apply Nat.le_antisymm; [done|].
      destruct (decide (n ≤ length vals)) as [|Hlt]; [done|].
      destruct (Hall (length vals)) as (v & Hv & _); [lia|].
      apply lookup_lt_Some in Hv. lia.
    + intros i Hi. destruct (Hall i Hi) as (v & Hv & Hf). exists v.
      rewrite list_lookup_fmap, Hv. done.
  - destruct Hrej as (pr' & Hp' & Hst'). congruence.
Qed.

(** When every input is fulfilled and the queue is empty, the aggregate is
    fulfilled. *)
Lemma all_ok_settled s :
  all_ok None 0 0 n s → queueHead s = None →
  (∀ i, i < n → ∃ v, fulfilled_with s (inp i) v) →
  fulfilled_with s p (VArray a).
Proof.
  intros Hok Hh Hall.
  destruct (ok_queue _ _ _ _ _ Hok) as (l & Hq & _ & Hway).
  apply (queue_repr_nil_iff _ _ Hq) in Hh as ->.
  assert (open_count (elems s) n = 0) as Hc.
  { apply open_count_zero. intros i Hi.
    destruct (is_open (elems s) i) eqn:Ho; [|done].
    destruct (Hall i Hi) as (v & pr & Hpr & Hst & _).
    specialize (Hway i pr Hi ltac:(done) Ho Hpr). rewrite Hst in Hway.
    destruct Hway as (? & ? & Hin). by apply elem_of_nil in Hin. }
  destruct (ok_agg _ _ _ _ _ Hok) as [[_ ?]|[(_ & Hful & _)|(_ & _ & i & Hi & Hrej)]].
  - simpl in *. lia.
  - done.
  - destruct (Hall i Hi) as (v & Hv). destruct (fulfilled_not_rejected _ _ _ Hv Hrej).
Qed.

(** ** Registering the inputs *)

Lemma freaction_ok_mono k k' q r : k ≤ k' → freaction_ok k q r → freaction_ok k' q r.
Proof.
  intros Hk (? & ? & [?|(i & ? & ? & ?)]); (split_and!; [done|done|]); [by left|].
  right. exists i. split_and!; [lia|done|done].
Qed.

Lemma rreaction_ok_mono k k' q r : k ≤ k' → rreaction_ok k q r → rreaction_ok k' q r.
Proof.
  intros Hk (? & ? & [?|(? & i & ? & ?)]); (split_and!; [done|done|]); [by left|].
  right. split; [done|]. exists i. split; [lia|done].
Qed.

Lemma promise_ok_mono k k' q pr : k ≤ k' → promise_ok k q pr → promise_ok k' q pr.
Proof.
  intros Hk (? & Hf & Hr). split_and!; [done| |].
  - eapply Forall_impl; [exact Hf|]. intros r. by apply freaction_ok_mono.
  - eapply Forall_impl; [exact Hr|]. intros r. by apply rreaction_ok_mono.
Qed.

Lemma job_ok_mono k k' s j : k ≤ k' → job_ok k s j → job_ok k' s j.
Proof.
  intros Hk. destruct j as [h res rej v|x f res rej]; [|done].
  intros (? & ? & ? & [Hh|[(i & Hi & Hh & Hf)|(Hh & i & Hi & Hr)]]);
    (split_and!; [done|done|done|]).
  - by left.
  - right; left. exists i. split_and!; [lia|done|done].
  - right; right. split; [done|]. exists i. split; [lia|done].
Qed.

(** The element function of input [k] is created and counted. *)
Lemma ok_grow k s :
  k < n → length (elems s) = e0 + k →
  inp k < length (promises s) → inp k ≠ p →
  all_ok None 1 0 k s →
  all_ok (Some k) 1 0 (S k)
    (set_alls (alter incr a) (set_elems (λ es, es ++ [ElemEnv a k false]) s)).
Proof.
  intros Hkn Hlen Hinp Hne
    [Hk Hwf (l & Hq & Hl & Hway) Hvars Hps Hin Halls Hoth Hel Henv Hagg].
  set (s' := set_alls _ _).
  assert (elems s' = elems s ++ [ElemEnv a k false]) as Hes by done.
  assert (∀ i, i < k → is_open (elems s') i = is_open (elems s) i) as Hopen.
  { intros i Hi. apply is_open_ext. rewrite Hes. apply lookup_app_l. lia. }
  assert (is_open (elems s') k = true) as Hopenk.
  { unfold is_open. rewrite Hes, <-Hlen, lookup_snoc. done. }
  assert (open_count (elems s') (S k) = open_count (elems s) k + 1) as Hcount.
  { cbn [open_count]. rewrite Hopenk. f_equal. apply open_count_ext.
    intros i Hi. rewrite Hes. apply lookup_app_l. lia. }
  split.
  - lia.
  - done.
  - exists l. split_and!; [done| |].
    + eapply Forall_impl; [exact Hl|]. intros j Hj.
      apply (job_ok_mono k); [lia|]. eapply job_ok_evolves; [|exact Hj].
      by apply evolves_heap.
    + intros i pr Hi Hsk Ho Hpr. assert (i < k) as Hi' by (destruct (decide (i = k)); [congruence|lia]).
      rewrite Hopen in Ho by done. by apply (Hway i pr Hi').
  - done.
  - intros q pr Hq'. apply (promise_ok_mono k); [lia|]. by apply Hps.
  - intros i Hi. destruct (decide (i = k)) as [->|]; [done|]. apply Hin. lia.
  - intros a' env. simpl. intros H Hne'. rewrite list_lookup_alter_ne in H by done.
    by apply (Halls a' env).
  - intros e F. rewrite Hes. intros [H|[Hge H]]%lookup_app_Some He.
    + by apply (Hoth e F).
    + apply list_lookup_singleton_Some in H as [H0 _]. lia.
  - rewrite Hes, length_app. simpl. split; [lia|].
    intros i Hi. destruct (decide (i = k)) as [->|].
    + exists false. rewrite <-Hlen. apply lookup_snoc.
    + destruct (proj2 Hel i) as (c & Hc); [lia|]. exists c.
      by apply lookup_app_l_Some.
  - destruct Henv as (vals & Ha & Hlv & Hvals). exists vals. split_and!.
    + rewrite Hcount. simpl. rewrite list_lookup_alter_eq, Ha. simpl. unfold incr. simpl.
      do 2 f_equal. lia.
    + lia.
    + intros i Hi Ho. assert (i < k) as Hi' by (destruct (decide (i = k)); [congruence|lia]).
      rewrite Hopen in Ho by done. by apply Hvals.
  - rewrite Hcount.
    destruct Hagg as [[Hlive Hc]|[(_ & _ & ?)|(Hr & Hrej & i & Hi & Hri)]]; [|lia|].
    + left. split; [done|lia].
    + right; right. split_and!; [done|done|]. exists i. split; [lia|done].
Qed.

Lemma ok_unskip_way i extra gap k s :
  (∀ l pr, queue_repr s l → promises s !! inp i = Some pr →
     match state pr with
     | None => ∃ r, r ∈ fulfillReactions pr ∧ r_handler r = elem_handler i
     | Some true => ∃ res rej, ReactionJob (elem_handler i) res rej (value pr) ∈ l
     | Some false => True
     end) →
  all_ok (Some i) extra gap k s → all_ok None extra gap k s.
Proof.
  intros Hi [Hk Hwf (l & Hq & Hl & Hway) Hvars Hps Hin Halls Hoth Hel Henv Hagg].
  split; try done. exists l. split_and!; [done|done|].
  intros j pr Hj _ Ho Hpr. destruct (decide (j = i)) as [->|Hne].
  - by apply Hi.
  - apply (Hway j pr Hj); [congruence|done|done].
Qed.

(** [t.then(f, rejectFn)] for input [k]. *)
Lemma ok_then_element k s :
  k < n → all_ok (Some k) 1 0 (S k) s →
  all_ok None 1 0 (S k)
    (snd (then_ (VPromise (inp k)) (VFun (FBuiltin (BAllElement (e0 + k))))
            (VFun (FBuiltin (BReject t))) s)).
Proof.
  intros Hkn Hok.
  destruct (ok_inputs _ _ _ _ _ Hok k ltac:(lia)) as [Hlt _].
  destruct (lookup_lt_is_Some_2 _ _ Hlt) as [pr Hpr].
  destruct (the_pair_allocated _ _ _ _ _ Hok) as [Ht _].
  rewrite (then_unfold (inp k) pr _ _ s Hpr). cbn [snd handler_or].
  pose proof (ok_alloc _ _ _ _ _ Hok) as Ha.
  assert (promises (alloc s) !! inp k = Some pr) as Hpr' by by apply lookup_app_l_Some.
  destruct (ok_queue _ _ _ _ _ Ha) as (l & Hq & _).
  destruct (state pr) as [[]|] eqn:Hst.
  - (* fulfilled: the job of the element function is queued *)
    set (J := ReactionJob _ _ _ _).
    apply (ok_unskip_way k).
    + intros l' pr' Hq' Hp'.
      assert (pr' = pr) as ->
        by (rewrite (proj1 (enqueueJob_heap _ _)) in Hp'; congruence).
      rewrite Hst.
      pose proof (queue_repr_inj _ _ _ Hq' (enqueueJob_repr J _ _ Hq)) as ->.
      eexists _, _. apply elem_of_app. right. by apply list_elem_of_singleton.
    + apply ok_enqueue; [|done]. simpl. split_and!; [lia|lia|apply (ok_promises _ _ _ _ _ Ha _ _ Hpr')|].
      right; left. exists k. split_and!; [lia|done|]. by exists pr.
  - (* rejected: the job of the aggregate's reject is queued *)
    apply (ok_unskip_way k).
    + intros l' pr' Hq' Hp'.
      assert (pr' = pr) as ->
        by (rewrite (proj1 (enqueueJob_heap _ _)) in Hp'; congruence).
      by rewrite Hst.
    + apply ok_enqueue; [|done]. simpl. split_and!; [lia|lia|apply (ok_promises _ _ _ _ _ Ha _ _ Hpr')|].
      right; right. split; [done|]. exists k. split; [lia|]. by exists pr.
  - (* pending: the two reactions are registered *)
    apply (ok_unskip_way k).
    + intros l' pr' Hq'. simpl. rewrite list_lookup_alter_eq.
      rewrite (lookup_app_l_Some _ _ _ _ Hpr). simpl. intros [= <-]. simpl. rewrite Hst.
      eexists. split; [apply elem_of_app; right; by apply list_elem_of_singleton|done].
    + apply (ok_push _ _ _ _ (inp k) pr); [done|done| | |done].
      * split_and!; simpl; [lia|lia|]. right. exists k. split_and!; [lia|done|done].
      * split_and!; simpl; [lia|lia|]. right. split; [done|]. exists k. split; [lia|done].
Qed.

Lemma resolve_result x s :
  fst (resolve x s) =
  match x with VPromise q => VPromise q | _ => VPromise (length (promises s)) end.
Proof.
  unfold resolve. destruct x; try done; by rewrite Promise_new_unfold.
Qed.

Lemma resolve_grows x s :
  (∀ q, x ≠ VPromise q) →
  length (promises s) < length (promises (snd (resolve x s))).
Proof.
  intros Hx.
  assert (resolve x s =
          let '(p, _, s) := Promise_new (λ t s, (Normal VUndef, t_resolve t x s)) s in
          (VPromise p, s)) as ->.
  { unfold resolve. destruct x; try done. by destruct (Hx p0). }
  rewrite Promise_new_unfold. cbn.
  pose proof (evolves_prim _ _ (prim_resolve (length (resolvers s)) x (alloc s)))
    as (_ & _ & Hl).
  simpl in Hl. rewrite length_app in Hl. simpl in Hl. lia.
Qed.

Lemma ok_register k x s :
  k < n → length (elems s) = e0 + k → pub_val x →
  (∀ q, x = VPromise q → q < p) →
  fst (resolve x s) = VPromise (inp k) →
  all_ok None 1 0 k s →
  all_ok None 1 0 (S k) (all_step a t k x s) ∧
  length (elems (all_step a t k x s)) = e0 + S k.
Proof.
  intros Hkn Hlen Hx Hq Hres Hok. unfold all_step.
  destruct (ok_static_resolve _ _ _ _ x s Hx Hok) as [H1 _].
  destruct (resolve_alls x s) as [_ Hes].
  destruct (the_pair_allocated _ _ _ _ _ Hok) as [_ Hp].
  assert (inp k < length (promises (snd (resolve x s))) ∧ inp k ≠ p) as [Hlt Hne].
  { rewrite resolve_result in Hres.
    assert ((∃ q, x = VPromise q) ∨ ∀ q, x ≠ VPromise q) as [[q ->]|Hx']
      by (destruct x; try (by right); left; by eexists).
    - injection Hres as <-. specialize (Hq _ eq_refl). simpl. split; lia.
    - pose proof (resolve_grows x s Hx') as Hg.
      destruct x; try (injection Hres as <-; split; lia). by destruct (Hx' p0). }
  destruct (resolve x s) as [tv s1]. simpl in *. subst tv.
  assert (length (elems s1) = e0 + k) as Hl1 by by rewrite Hes.
  rewrite Hl1. split.
  - apply ok_then_element; [done|]. by apply ok_grow.
  - destruct (then_alls (VPromise (inp k)) (VFun (FBuiltin (BAllElement (e0 + k))))
                (VFun (FBuiltin (BReject t)))
                (set_alls (alter incr a) (set_elems (λ es, es ++ [ElemEnv a k false]) s1)))
      as [_ Hth].
    unfold incr in Hth. rewrite Hth.
    simpl. rewrite length_app, Hl1. simpl. lia.
Qed.

Lemma ok_loop xs : ∀ k s,
  k + length xs = n → length (elems s) = e0 + k → Forall pub_val xs →
  (∀ q, VPromise q ∈ xs → q < p) →
  (∀ j, j < length xs →
     all_inputs a t k xs s !! j = Some (VPromise (inp (k + j)))) →
  all_ok None 1 0 k s → all_ok None 1 0 n (all_loop a t k xs s).
Proof.
  induction xs as [|x xs IH]; intros k s Hn Hlen Hxs Hq Hinp Hok.
  - simpl in *. by replace n with k by lia.
  - apply Forall_cons in Hxs as [Hx Hxs]. simpl in Hn. cbn [all_loop].
    destruct (ok_register k x s) as [H1 H2]; try done.
    + lia.
    + intros q ->. apply Hq. by left.
    + specialize (Hinp 0 ltac:(simpl; lia)). simpl in Hinp.
      rewrite Nat.add_0_r in Hinp. by injection Hinp.
    + apply IH; try done.
      * lia.
      * intros q Hin. apply Hq. by right.
      * intros j Hj. specialize (Hinp (S j) ltac:(simpl; lia)). simpl in Hinp.
        by replace (S k + j) with (k + S j) by lia.
Qed.

(** ** Before and after the loop *)

Definition pub_reaction (r : reaction) : Prop :=
  pub_handler (r_handler r) ∧ pub_builtin (r_resolve r) ∧ pub_builtin (r_reject r).

Definition pub_job (j : job) : Prop :=
  match j with
  | ReactionJob h res rej v =>
      pub_handler h ∧ pub_builtin res ∧ pub_builtin rej ∧ pub_val v
  | ThenableJob x f res rej =>
      pub_val x ∧ pub_fnval f ∧ pub_builtin res ∧ pub_builtin rej
  end.

Definition pub_promise (pr : promise) : Prop :=
  pub_val (value pr) ∧ Forall pub_reaction (fulfillReactions pr) ∧
  Forall pub_reaction (rejectReactions pr).

(** The machine in which [all] is called: no object of it mentions a
    function that the call is going to create, or its environment. *)
Definition pub_state (s : machine) : Prop :=
  Forall (λ c, pub_job (c_job c)) (jobs s) ∧
  Forall pub_promise (promises s) ∧
  Forall pub_slot (vars s) ∧
  Forall (λ env, resolveFn env ≠ t) (alls s) ∧
  Forall (λ F, e_all F ≠ a) (elems s).

Lemma lseg_cells cells h l tl :
  lseg cells h l tl → ∀ j, j ∈ l → ∃ c, c ∈ cells ∧ c_job c = j.
Proof.
  revert h. induction l as [|j0 l IH]; intros h Hl j Hj; [by apply elem_of_nil in Hj|].
  destruct Hl as (i & nxt & _ & Hi & _ & _ & Hl).
  apply elem_of_cons in Hj as [->|Hj].
  - exists (Cell j0 nxt). split; [by eapply list_elem_of_lookup_2|done].
  - by eapply IH.
Qed.

Lemma ok_init s :
  wf s → pub_state s →
  p = length (promises s) → t = length (resolvers s) →
  a = length (alls s) → e0 = length (elems s) →
  all_ok None 1 0 0 (all_started t s).
Proof.
  intros Hwf (Hjs & Hps & Hvs & Has & Hes) Hp Ht Ha He. unfold all_started.
  destruct (proj1 Hwf) as [l Hq].
  split.
  - lia.
  - apply (wf_prim _ _ (prim_alls _ _)), wf_alloc, Hwf.
  - exists l. split_and!; [exact Hq| |intros i pr Hi; lia].
    apply Forall_forall. intros j Hj.
    destruct (lseg_cells _ _ _ _ Hq j Hj) as (c & Hc & <-).
    pose proof (proj1 (Forall_forall _ _) Hjs c Hc) as Hpj. simpl in Hpj.
    destruct (c_job c) as [h res rej v|x f res rej]; [|exact Hpj].
    destruct Hpj as (? & ? & ? & ?). simpl. split_and!; [done|done|done|by left].
  - done.
  - intros q pr. simpl. intros [H|[_ H]]%lookup_app_Some.
    + destruct (Forall_lookup_1 _ _ _ _ Hps H) as (Hv & Hf & Hr). split_and!; [done| |].
      * eapply Forall_impl; [exact Hf|]. intros r (? & ? & ?). split_and!; [done|done|by left].
      * eapply Forall_impl; [exact Hr|]. intros r (? & ? & ?). split_and!; [done|done|by left].
    + apply list_lookup_singleton_Some in H as [_ <-]. by split_and!.
  - intros i Hi. lia.
  - intros a' env. simpl. intros [H|[Hge H]]%lookup_app_Some Hne.
    + by apply (Forall_lookup_1 _ _ _ _ Has H).
    + apply list_lookup_singleton_Some in H as [H0 _]. lia.
  - intros e F. simpl. intros H _. by apply (Forall_lookup_1 _ _ _ _ Hes H).
  - simpl. split; [lia|]. intros i Hi. lia.
  - exists []. simpl. rewrite Ha, lookup_snoc. split_and!; [done|done|]. intros i Hi. lia.
  - left. split; [|simpl; lia]. unfold live. simpl. rewrite Ht, Hp. apply lookup_snoc.
Qed.

Lemma ok_finish s :
  all_ok None 1 0 n s → all_ok None 0 0 n (all_finish a t s).
Proof.
  intros Hok. unfold all_finish.
  destruct (ok_env _ _ _ _ _ Hok) as (vals & Ha & Hlen & Hvals). rewrite Ha.
  cbn [remaining values resolveFn].
  set (rem := (Z.of_nat (1 + open_count (elems s) n) - 1)%Z).
  set (s2 := set_alls _ s).
  assert (evolves s s2) as He by by apply evolves_heap.
  apply (ok_fire None 0 n rem s2); [unfold rem; simpl; lia|].
  destruct Hok as [Hk Hwf (l & Hq & Hl & Hway) Hvars Hps Hin Halls Hoth Hel _ Hagg].
  split; try done.
  - exists l. by split_and!.
  - intros a' env. simpl. intros H Hne. rewrite list_lookup_insert_ne in H by done.
    by apply (Halls a' env).
  - exists vals. split_and!; [|done|done]. simpl.
    rewrite list_lookup_insert_eq by by eapply lookup_lt_Some.
    do 2 f_equal. unfold rem. lia.
Qed.

Lemma all_inputs_length xs : ∀ k s, length (all_inputs a t k xs s) = length xs.
Proof. induction xs as [|x xs IH]; intros k s; simpl; [done|]. by rewrite IH. Qed.

Lemma all_inputs_promises xs : ∀ k s j,
  j < length xs → ∃ d, all_inputs a t k xs s !! j = Some (VPromise d).
Proof.
  induction xs as [|x xs IH]; intros k s j Hj; simpl in *; [lia|].
  destruct j as [|j]; simpl.
  - destruct (resolve_is_promise x s) as [q ->]. by exists q.
  - apply IH. lia.
Qed.

End AllInputs.

(** What the loop of [all] makes of each element: a promise is taken as it
    is, and any other value is wrapped in a new promise, which is fulfilled
    with the value at once when the value is not a thenable. *)
Lemma all_inputs_spec a t xs : ∀ k s j x,
  xs !! j = Some x →
  ∃ d, all_inputs a t k xs s !! j = Some (VPromise d) ∧
    match x with
    | VPromise q => d = q
    | _ => length (promises s) ≤ d ∧
           (probe x = NotThenable → fulfilled_with (all_loop a t k xs s) d x)
    end.
Proof.
  induction xs as [|x0 xs IH]; intros k s j x Hj; [done|].
  destruct j as [|j]; simpl in Hj.
  - injection Hj as ->. exists (match x with VPromise q => q | _ => length (promises s) end).
    cbn [all_inputs lookup list_lookup]. rewrite resolve_result.
    assert (steps (snd (resolve x s)) (all_loop a t k (x :: xs) s)) as Hsteps.
    { cbn [all_loop]. etrans; [|apply steps_all_loop]. unfold all_step.
      destruct (resolve x s) as [tv s1]. cbn [snd].
      etrans; [apply steps_prim, (prim_elems (λ es, es ++ [ElemEnv a k false]))|].
      etrans; [apply steps_prim, prim_alls|]. apply steps_then_. }
    assert (probe x = NotThenable →
            fulfilled_with (all_loop a t k (x :: xs) s) (length (promises s)) x) as Hplain.
    { intros Hx. apply (fulfilled_with_evolves (snd (resolve x s)));
        [by apply evolves_steps|].
      rewrite (resolve_plain x s Hx). exists (MkPromise (Some true) x [] []).
      split; [apply lookup_snoc|done]. }
    destruct x; try (split; [done|]; split; [done|exact Hplain]). done.
  - destruct (IH (S k) (all_step a t k x0 s) j x Hj) as (d & Hd & Hx).
    exists d. split; [exact Hd|].
    destruct x; try done;
      (destruct Hx as [Hle Hf]; split; [|exact Hf];
       pose proof (evolves_steps _ _ (steps_all_step a t k x0 s)) as (_ & _ & Hl); lia).
Qed.

(** C8.  [all] is called on any list of values, in any machine of the
    polyfill and with any user code that has no means of naming the
    functions the call creates for itself.  The promise of input [i] is
    what the loop gets from [Promise.resolve]: the input itself if it is a
    promise, and else a new promise, which is fulfilled with the input at
    once when the input is not a thenable.  However the host then runs user
    code and queue entries, and so in whatever order and by whatever means
    the inputs are settled: whenever the promise returned by [all] is
    fulfilled, its value is the [values] array of the call, which has one
    entry for each input and holds at index [i] the value the promise of
    input [i] is fulfilled with; the promise is fulfilled whenever the
    promises of all inputs are fulfilled and the queue is empty; and so,
    when a drain has returned and the promises of all inputs are fulfilled,
    it is fulfilled with the inputs' values in input order. *)
Theorem all_keeps_input_order (table : nat → val → list val → prog)
    (xs : list val) (s : machine) :
  let p := length (promises s) in
  let t := length (resolvers s) in
  let a := length (alls s) in
  let e0 := length (elems s) in
  let n := length xs in
  let s1 := snd (all xs s) in
  let ts := all_inputs a t 0 xs (all_started t s) in
  wf s → pub_state a t e0 n s → pub_table t e0 n table →
  Forall (pub_val t e0 n) xs → (∀ q, VPromise q ∈ xs → q < p) →
  fst (all xs s) = VPromise p ∧
  (∀ i x, xs !! i = Some x →
     ∃ d, ts !! i = Some (VPromise d) ∧
       match x with
       | VPromise q => d = q
       | _ => p < d ∧ (probe x = NotThenable → fulfilled_with s1 d x)
       end) ∧
  ∀ s', rtc (host_action t e0 n table) s1 s' →
    (∀ pr, promises s' !! p = Some pr → state pr = Some true →
       value pr = VArray a ∧
       ∃ vs, values <$> alls s' !! a = Some (Some <$> vs) ∧ length vs = n ∧
         ∀ i d, ts !! i = Some (VPromise d) →
           ∃ v, vs !! i = Some v ∧ fulfilled_with s' d v) ∧
    ((∀ i d, ts !! i = Some (VPromise d) → ∃ v, fulfilled_with s' d v) →
     queueHead s' = None → fulfilled_with s' p (VArray a)) ∧
    (∀ fuel s'', runQueue table fuel s' = Some s'' →
       (∀ i d, ts !! i = Some (VPromise d) → ∃ v, fulfilled_with s'' d v) →
       fulfilled_with s'' p (VArray a) ∧
       ∃ vs, values <$> alls s'' !! a = Some (Some <$> vs) ∧ length vs = n ∧
         ∀ i d, ts !! i = Some (VPromise d) →
           ∃ v, vs !! i = Some v ∧ fulfilled_with s'' d v).
Proof.
  intros p t a e0 n s1 ts Hwf Hpub Htable Hxs Hold.
  assert (s1 = all_finish a t (all_loop a t 0 xs (all_started t s))) as Hs1
    by (unfold s1; by rewrite all_unfold_list).
  split; [by rewrite all_unfold_list|].
  set (inp := λ i, match ts !! i with Some (VPromise d) => d | _ => 0 end).
  assert (length ts = n) as Hlen by apply all_inputs_length.
  assert (∀ i d, ts !! i = Some (VPromise d) → i < n ∧ inp i = d) as Hinp.
  { intros i d Hi. split; [rewrite <-Hlen; by eapply lookup_lt_Some|].
    unfold inp. by rewrite Hi. }
  assert (∀ i, i < n → ts !! i = Some (VPromise (inp i))) as Hts.
  { intros i Hi. destruct (all_inputs_promises a t xs 0 (all_started t s) i Hi) as [d Hd].
    fold ts in Hd. by rewrite (proj2 (Hinp i d Hd)). }
  assert (all_ok a t p e0 n inp None 0 0 n s1) as Hok.
  { rewrite Hs1. apply ok_finish. apply (ok_loop a t p e0 n inp xs 0); try done.
    by apply ok_init. }
  split.
  { intros i x Hx.
    destruct (all_inputs_spec a t xs 0 (all_started t s) i x Hx) as (d & Hd & Hspec).
    exists d. split; [exact Hd|].
    destruct x; try done;
      (destruct Hspec as [Hle Hf]; split; [simpl in Hle; rewrite length_app in Hle; simpl in Hle; lia|];
       intros Hplain; apply (fulfilled_with_evolves (all_loop a t 0 xs (all_started t s)));
       [|by apply Hf]; rewrite Hs1; unfold all_finish;
       destruct (alls _ !! a) as [env|]; [|reflexivity];
       apply evolves_steps; (etrans; [apply steps_prim, prim_alls|]);
       case_decide; [apply steps_prim, prim_resolve|reflexivity]). }
  intros s' Hrun.
  pose proof (ok_host_run a t p e0 n inp table Htable 0 s1 s' Hrun Hok) as Hok'.
  split_and!.
  - intros pr Hp Hst.
    destruct (all_ok_fulfilled a t p e0 n inp s' pr Hok' Hp Hst) as (Hv & vs & Hvs & Hl & Hall).
    split; [done|]. exists vs. split_and!; [done|done|].
    intros i d Hi. destruct (Hinp i d Hi) as [Hlt <-]. by apply Hall.
  - intros Hall Hh. apply (all_ok_settled a t p e0 n inp s' Hok' Hh).
    intros i Hi. by apply (Hall i), Hts.
  - intros fuel s'' Hdrain Hall.
    apply runQueue_Some in Hdrain as (m & _ & -> & Hh & _).
    assert (rtc (host_action t e0 n table) s' (entries table m s')) as Hent.
    { clear. revert s'. induction m as [|m IH]; intros s'; simpl; [done|].
      eapply rtc_l; [apply host_enters|apply IH]. }
    pose proof (ok_host_run a t p e0 n inp table Htable 0 s' _ Hent Hok') as Hok''.
    assert (fulfilled_with (entries table m s') p (VArray a)) as Hful.
    { apply (all_ok_settled a t p e0 n inp _ Hok'' Hh).
      intros i Hi. by apply (Hall i), Hts. }
    split; [exact Hful|]. destruct Hful as (pr & Hp & Hst & _).
    destruct (all_ok_fulfilled a t p e0 n inp _ pr Hok'' Hp Hst) as (_ & vs & Hvs & Hl & Hvals).
    exists vs. split_and!; [done|done|].
    intros i d Hi. destruct (Hinp i d Hi) as [Hlt <-]. by apply Hvals.
Qed.

(** * Instances for the further properties *)

(** [Promise.resolve(1).then(f0)] *)
Definition ex_then_prog : prog :=
  Resolve (VNum 1) (λ r, Call BThen r [VFun (FUser 0); VUndef] (λ _, Ret VUndef)).

Definition ex_reached : machine := snd (interp ex_then_prog initial).

Lemma ex_reached_reachable : reachable no_table ex_reached.
Proof. apply reach_prog, reach_initial. Qed.

Lemma queue_well_formed_witness :
  ∃ l, queue_repr ex_reached l ∧
    (queueHead ex_reached = None ↔ l = []) ∧ (queueTail ex_reached = None ↔ l = []).
Proof. apply (queue_well_formed no_table ex_reached), ex_reached_reachable. Defined.

Lemma pairs_well_formed_witness :
  live (resolvers ex_reached) 1 1 ∧
  ∃ pr, promises ex_reached !! 1 = Some pr ∧ state pr = None.
Proof.
  split; [reflexivity|].
  destruct (pairs_well_formed no_table ex_reached ex_reached_reachable) as (_ & H & _).
  exact (H 1 1 eq_refl).
Defined.

(** [Promise.resolve({ then: f0 })] in the initial machine. *)
Lemma static_resolve_wraps_witness :
  promises (snd (resolve ex_thenable initial)) = [MkPromise None VUndef [] []] ∧
  queue_repr (snd (resolve ex_thenable initial))
    [ThenableJob ex_thenable (FUser 0) (BResolve 1) (BReject 1)].
Proof.
  assert (∀ q, ex_thenable ≠ VPromise q) as Hv by done.
  destruct (static_resolve_wraps ex_thenable initial [] initial_repr Hv) as (_ & _ & H).
  destruct (H (FUser 0) eq_refl) as (H1 & _ & H3). split; [exact H1|exact H3].
Defined.

Lemma drain_twice_witness :
  ∃ s', runQueue ex_table 4 ex_follow_on = Some s' ∧
    runQueueEntry ex_table s' = (false, s') ∧
    ∀ fuel', runQueue ex_table (S fuel') s' = Some s'.
Proof.
  destruct (runQueue ex_table 4 ex_follow_on) as [s'|] eqn:Hr; [|by vm_compute in Hr].
  exists s'. split; [done|]. exact (drain_twice ex_table 4 ex_follow_on s' Hr).
Defined.

Lemma then_getter_error_rejects_witness :
  promises (t_resolve 0 (VTrapped (VStr "boom")) ex_pending) !! 0
    = Some (MkPromise (Some false) (VStr "boom") [] []).
Proof.
  destruct (then_getter_error_rejects ex_pending 0 0 (MkPromise None VUndef [] [])
              (VStr "boom") [] eq_refl eq_refl eq_refl eq_refl) as [H _].
  exact H.
Defined.

(** [Promise.resolve(1).then()]: promise 1. *)
Lemma then_without_handler_witness :
  promises (entries no_table 1 (snd (then_ (VPromise 0) VUndef VUndef ex_fulfilled))) !! 1
    = Some (MkPromise (Some true) (VNum 1) [] []).
Proof.
  destruct (then_without_handler no_table ex_fulfilled 0
              (MkPromise (Some true) (VNum 1) [] []) true VUndef VUndef
              eq_refl eq_refl eq_refl eq_refl (λ _, eq_refl)) as (_ & _ & H & _).
  exact H.
Defined.

(** The user's functions all return the string "done". *)
Definition ex_const_table : nat → val → list val → prog :=
  λ _ _ _, Ret (VStr "done").


(** [Promise.reject("no")] in the initial machine: promise 0, rejected. *)
Definition ex_rejected : machine := snd (reject (VStr "no") initial).

Lemma catch_contract_witness :
  promises (entries ex_const_table 1
              (snd (_catch (VPromise 0) (VFun (FUser 0)) ex_rejected))) !! 1
    = Some (MkPromise (Some true) (VStr "done") [] []).
Proof.
  destruct (catch_contract ex_const_table ex_rejected 0
              (MkPromise (Some false) (VStr "no") [] []) false (VFun (FUser 0))
              eq_refl eq_refl eq_refl) as (_ & _ & H).
  destruct (H eq_refl 0 (Normal (VStr "done")) eq_refl (λ _, eq_refl)) as [H1 _].
  exact (H1 (VStr "done") eq_refl eq_refl).
Defined.

(** Function 0 raises whatever it is called with. *)
Definition ex_raise_table : nat → val → list val → prog :=
  λ _ _ _, Throw (VStr "boom").

Lemma thenable_then_raises_witness :
  promises (entries ex_raise_table 1
              (t_resolve 0 (VObject (Some (FUser 0))) ex_pending)) !! 0
    = Some (MkPromise (Some false) (VStr "boom") [] []).
Proof.
  destruct (thenable_then_raises ex_raise_table ex_pending 0 0
              (MkPromise None VUndef [] []) 0 (VStr "boom")
              eq_refl eq_refl eq_refl eq_refl) as (_ & H & _ & _).
  exact (H (λ _ _ _, eq_refl)).
Defined.

Lemma try_contract_witness :
  promises (snd (interp (Try (Throw (VStr "boom")) Ret) initial)) !! 0
    = Some (MkPromise (Some false) (VStr "boom") [] []).
Proof.
  assert (state_free 0 initial) as Hfree by (by split_and!; constructor).
  destruct (try_contract (Throw (VStr "boom")) initial wf_initial Hfree I) as (_ & _ & H).
  exact (H (VStr "boom") eq_refl).
Defined.

(** [var p0 = new Promise(function () {}); Promise.resolve(1)]: promise 0
    pending, promise 1 fulfilled. *)
Definition ex_two : machine :=
  snd (interp (New (λ _ _, Ret VUndef) (λ _, Resolve (VNum 1) Ret)) initial).

Lemma ex_two_reachable : reachable no_table ex_two.
Proof. apply reach_prog, reach_initial. Qed.
















(** [Promise.all([1, 2, 3])] in the initial machine. *)
Lemma all_of_plain_values_witness :
  values <$> alls (entries no_table 3 (snd (all [VNum 1; VNum 2; VNum 3] initial))) !! 0
    = Some [Some (VNum 1); Some (VNum 2); Some (VNum 3)].
Proof.
  assert (∀ x, x ∈ [VNum 1; VNum 2; VNum 3] → probe x = NotThenable) as Hplain.
  { intros x [->|[->|[->|?%elem_of_nil]%elem_of_cons]%elem_of_cons]%elem_of_cons; done. }
  destruct (all_of_plain_values no_table [VNum 1; VNum 2; VNum 3] initial Hplain eq_refl)
    as (_ & _ & _ & H & _).
  exact H.
Defined.



(** * Instances for [all] on any list *)

(** The user's function 0 is the [then] of a thenable: it calls the
    [resolve] it is given with a string. *)
Definition ex_then_table : nat → val → list val → prog :=
  chain_table 1 0 (VStr "t").

Lemma ex_then_table_pub t e0 n : pub_table t e0 n ex_then_table.
Proof.
  intros fid this args Hthis Hargs. unfold ex_then_table, chain_table.
  destruct args as [|[| | | | | | | |[g|r]| |] [|y [|z args]]]; try done.
  apply Forall_cons in Hargs as [Hr _]. case_decide; [|done].
  simpl. split_and!; [done|done|by repeat constructor|done].
Qed.

(** [all([p0, 7, { then: f0 }, p1])], where [p0] is pending and [p1] is
    fulfilled with 1. *)
Definition ex_list : list val := [VPromise 0; VNum 7; ex_thenable; VPromise 1].

(** After the call, [p0] is fulfilled with a string through its pair, and
    six queue entries are run. *)
Definition ex_settle : prog :=
  Call (BResolve 0) VUndef [VStr "late"] (λ _, Ret VUndef).

Definition ex_all_run : machine :=
  entries ex_then_table 6 (snd (interp ex_settle (snd (all ex_list ex_two)))).

Lemma ex_all_run_inputs :
  all_inputs 0 2 0 ex_list (all_started 2 ex_two)
  = [VPromise 0; VPromise 4; VPromise 6; VPromise 1].
Proof. vm_compute. reflexivity. Qed.

Lemma ex_all_run_state :
  fulfilled_with ex_all_run 0 (VStr "late") ∧ fulfilled_with ex_all_run 4 (VNum 7) ∧
  fulfilled_with ex_all_run 6 (VStr "t") ∧ fulfilled_with ex_all_run 1 (VNum 1) ∧
  queueHead ex_all_run = None.
Proof.
  split_and!; [| | | |vm_compute; reflexivity];
    (eexists (MkPromise (Some true) _ [] []); split; [vm_compute; reflexivity|done]).
Qed.

Lemma ex_settle_pub : pub_prog 2 0 4 ex_settle.
Proof.
  unfold ex_settle. cbn [pub_prog]. split_and!; try done. by repeat constructor.
Qed.

Lemma ex_all_run_host :
  rtc (host_action 2 0 4 ex_then_table) (snd (all ex_list ex_two)) ex_all_run.
Proof.
  apply (rtc_l _ _ (snd (interp ex_settle (snd (all ex_list ex_two))))).
  - apply host_runs, ex_settle_pub.
  - unfold ex_all_run. generalize 6. intros m.
    generalize (snd (interp ex_settle (snd (all ex_list ex_two)))).
    induction m as [|m IH]; intros s0; cbn [entries]; [done|].
    eapply rtc_l; [apply host_enters|apply IH].
Qed.

Lemma ex_two_pub : pub_state 0 2 0 4 ex_two.
Proof. split_and!; try by repeat constructor. Qed.

Lemma ex_list_pub : Forall (pub_val 2 0 4) ex_list.
Proof. by repeat constructor. Qed.

Lemma ex_list_old q : VPromise q ∈ ex_list → q < 2.
Proof.
  intros Hq. unfold ex_list in Hq.
  repeat (apply elem_of_cons in Hq as [Hq|Hq]; [simplify_eq; lia|]).
  by apply elem_of_nil in Hq.
Qed.

Lemma all_keeps_input_order_witness :
  fulfilled_with ex_all_run 2 (VArray 0) ∧
  ∃ vs : list val, values <$> alls ex_all_run !! 0 = Some (Some <$> vs) ∧
    vs !! 0 = Some (VStr "late") ∧ vs !! 1 = Some (VNum 7) ∧
    vs !! 2 = Some (VStr "t") ∧ vs !! 3 = Some (VNum 1).
Proof.
  destruct (all_keeps_input_order ex_then_table ex_list ex_two
              (reachable_wf no_table _ ex_two_reachable) ex_two_pub
              (ex_then_table_pub 2 0 4) ex_list_pub ex_list_old) as (_ & _ & Hrun).
  change (length (promises ex_two)) with 2 in Hrun.
  change (length (resolvers ex_two)) with 2 in Hrun.
  change (length (alls ex_two)) with 0 in Hrun.
  change (length (elems ex_two)) with 0 in Hrun.
  change (length ex_list) with 4 in Hrun.
  rewrite ex_all_run_inputs in Hrun.
  destruct (Hrun ex_all_run ex_all_run_host) as (Hsafe & Hlive & _). clear Hrun.
  generalize ex_all_run_state. revert Hsafe Hlive. generalize ex_all_run.
  intros s' Hsafe Hlive (H0 & H1 & H2 & H3 & Hidle).
  assert (fulfilled_with s' 2 (VArray 0)) as Hful.
  { apply Hlive; [|exact Hidle].
    intros [|[|[|[|i]]]] d Hd; [| | | |done]; injection Hd as <-; eauto. }
  split; [exact Hful|].
  destruct Hful as (pr & Hp & Hst & _).
  destruct (Hsafe pr Hp Hst) as (_ & vs & Hvs & _ & Hval).
  exists vs. split; [exact Hvs|].
  assert (∀ i d v, [VPromise 0; VPromise 4; VPromise 6; VPromise 1] !! i
                   = Some (VPromise d) →
            fulfilled_with s' d v → vs !! i = Some v) as Hget.
  { intros i d v Hi Hv. destruct (Hval i d Hi) as (w & Hw & Hfw).
    by rewrite (fulfilled_with_inj _ _ _ _ Hv Hfw). }
  split_and!.
  - by apply (Hget 0 0).
  - by apply (Hget 1 4).
  - by apply (Hget 2 6).
  - by apply (Hget 3 1).
Defined.
